(** * Vacancy fetch-and-ingest pipeline: model and verification

    A shallow embedding of [db_manager.py] and [hh_api.py]: the paginated
    fetch of one employer's vacancies, the repository operations of
    [DBManager] over the two tables, the coordinator that feeds fetched
    vacancies to the repository, and the in-memory reporting helpers.

    Python integers are [Z]; page numbers, lengths and HTTP status codes are
    [nat]; text is [string]; exact rationals ([Q]) stand for the results of
    [/] and of SQL [AVG].  A Python exception is a value of [py_exception];
    code that can raise or that mutates state lives in the monad [Py].

    [DBManager] is the class on a database that accepts every statement;
    [Transactional] puts its statements on a connection whose server can
    refuse one.  [HhApi] computes on exact numbers; [Numeric] tells
    integers from floats, for what the arithmetic raises. *)

From Stdlib Require Import List String Ascii Bool Arith ZArith QArith Lia.
From Stdlib Require Import DecimalString Permutation Sorted.
Import ListNotations.

Local Close Scope Q_scope.
Local Open Scope string_scope.

(** ** Exceptions and the state-and-exception monad *)

(** An exception: its class name and [str(e)]. *)
Inductive py_exception : Type :=
| PyExc (cls : string) (msg : string).

Definition exc_str (e : py_exception) : string :=
  match e with PyExc _ msg => msg end.

Inductive outcome (A : Type) : Type :=
| Returned (a : A)
| Raised (e : py_exception).
Arguments Returned {A} a.
Arguments Raised {A} e.

(** A computation over a mutable world [W]: the world after it, and either
    the value returned or the exception raised. *)
Definition Py (W A : Type) : Type := W -> W * outcome A.

Definition ret {W A} (a : A) : Py W A := fun w => (w, Returned a).

Definition bind {W A B} (c : Py W A) (k : A -> Py W B) : Py W B :=
  fun w =>
    match c w with
    | (w', Returned a) => k a w'
    | (w', Raised e) => (w', Raised e)
    end.

Definition raise {W A} (e : py_exception) : Py W A := fun w => (w, Raised e).

(** [try: c except Exception as e: h e] *)
Definition try_except {W A} (c : Py W A) (h : py_exception -> Py W A) : Py W A :=
  fun w =>
    match c w with
    | (w', Returned a) => (w', Returned a)
    | (w', Raised e) => h e w'
    end.

Definition modify {W} (f : W -> W) : Py W unit := fun w => (f w, Returned tt).

Declare Scope py_scope.
Delimit Scope py_scope with py.
Notation "x <- c ;; k" := (bind c (fun x => k))
  (at level 61, c at next level, right associativity) : py_scope.
Notation "c ;;; k" := (bind c (fun _ => k))
  (at level 61, right associativity) : py_scope.
Local Open Scope py_scope.

(** [for x in xs: body x] where the body neither breaks nor returns. *)
Fixpoint for_each {W A} (xs : list A) (body : A -> Py W unit) : Py W unit :=
  match xs with
  | [] => ret tt
  | x :: rest => body x ;;; for_each rest body
  end.

Definition world_after {W A} (r : W * outcome A) : W := fst r.
Definition result_of {W A} (r : W * outcome A) : outcome A := snd r.

(** ** Formatting *)

Definition str_nat (n : nat) : string := NilZero.string_of_uint (Nat.to_uint n).
Definition str_Z (z : Z) : string := NilZero.string_of_int (Z.to_int z).

(** [f"{x}"] of an optional integer: [None] prints as [None]. *)
Definition str_opt_Z (o : option Z) : string :=
  match o with Some z => str_Z z | None => "None" end.

(** ** Records of the vacancy API *)

(** The nested [salary] object; a bound is [None] when the key is missing or
    holds [null]. *)
Record salary_obj : Type := mk_salary {
  salary_from : option Z;
  salary_to : option Z
}.

(** One element of [items].  A field is [None] when the key is missing;
    [raw_salary] is [None] also when the API sends [null]. *)
Record raw_vacancy : Type := mk_raw {
  raw_name : option string;
  raw_salary : option salary_obj;
  raw_alternate_url : option string
}.

(** [d.get(key, default)] for a key that holds a string when present. *)
Definition get_or (o : option string) (default : string) : string :=
  match o with Some s => s | None => default end.

(** ** The HTTP transport *)

(** The [params] dictionary of one request. *)
Record params : Type := mk_params {
  employer_id : option string;
  per_page : nat;
  page : option nat
}.

Definition set_page (p : params) (n : nat) : params :=
  mk_params (employer_id p) (per_page p) (Some n).

(** The decoded body: [items] is [None] when the key is missing. *)
Record json_body : Type := mk_body {
  items : option (list raw_vacancy)
}.

(** A response; [body] is [None] when the body is not JSON. *)
Record response : Type := mk_response {
  status_code : nat;
  body : option json_body
}.

(** What [requests.get] does for one call: it raises or it answers. *)
Inductive reply : Type :=
| Fails (e : py_exception)
| Answers (r : response).

Definition transport : Type := string -> params -> reply.

(** The world of one fetch: requests sent so far (oldest first) and lines
    printed so far. *)
Record fetch_world : Type := mk_fetch_world {
  sent : list (string * params);
  fetch_stdout : list string
}.

Definition fresh_fetch_world : fetch_world := mk_fetch_world [] [].

Definition requests_get (t : transport) (url : string) (p : params)
  : Py fetch_world response :=
  fun w =>
    let w' := mk_fetch_world (sent w ++ [(url, p)])%list (fetch_stdout w) in
    match t url p with
    | Fails e => (w', Raised e)
    | Answers r => (w', Returned r)
    end.

Definition response_json {W} (r : response) : Py W json_body :=
  match body r with
  | Some d => ret d
  | None => raise (PyExc "JSONDecodeError" "Expecting value")
  end.

Definition fetch_print (line : string) : Py fetch_world unit :=
  modify (fun w => mk_fetch_world (sent w) (fetch_stdout w ++ [line])%list).

(** [data.get('items', [])] *)
Definition data_items (d : json_body) : list raw_vacancy :=
  match items d with Some l => l | None => [] end.

(** ** get_vacancies_for_company *)

Definition BASE_URL : string := "https://api.hh.ru/".

(** Truth value of the [company_id] argument: [None] and the empty string
    are false. *)
Definition truthy_id (company_id : option string) : bool :=
  match company_id with
  | Some s => negb (s =? "")
  | None => false
  end.

Definition initial_params (company_id : option string) : params :=
  if truthy_id company_id then mk_params company_id 100 None
  else mk_params None 100 None.

Definition status_line (status : nat) : string :=
  "Ошибка при получении данных о вакансиях: " ++ str_nat status.

(** The [for page in range(pages)] loop, from the pages still to visit;
    each [break] ends the recursion. *)
Fixpoint fetch_pages (t : transport) (url : string) (p : params)
    (todo : list nat) (all_vacancies : list raw_vacancy)
  : Py fetch_world (list raw_vacancy) :=
  match todo with
  | [] => ret all_vacancies
  | n :: rest =>
      let p := set_page p n in
      r <- requests_get t url p ;;
      if Nat.eqb (status_code r) 200 then
        data <- response_json r ;;
        let all_vacancies := (all_vacancies ++ data_items data)%list in
        if Nat.ltb (List.length (data_items data)) 100 then ret all_vacancies
        else fetch_pages t url p rest all_vacancies
      else
        fetch_print (status_line (status_code r)) ;;;
        ret all_vacancies
  end.

Definition get_vacancies_for_company (t : transport)
    (company_id : option string) (pages : nat)
  : Py fetch_world (list raw_vacancy) :=
  let all_vacancies := [] in
  let p := initial_params company_id in
  let url := BASE_URL ++ "vacancies" in
  fetch_pages t url p (seq 0 pages) all_vacancies.

(** ** The tables *)

Record company_row : Type := mk_company_row {
  c_id : Z;
  c_name : string;
  c_industry : option string;
  c_area : option string
}.

Record vacancy_row : Type := mk_vacancy_row {
  v_id : Z;
  v_title : string;
  v_salary_min : option Z;
  v_salary_max : option Z;
  v_url : string;
  v_company_id : Z
}.

(** Modelled from the spec: the table declarations are not in the sources.
    [companies(id PK, name UNIQUE NOT NULL, industry NULL, area NULL)] and
    [vacancies(id PK, title NOT NULL, salary_min NULL INT, salary_max NULL
    INT, url UNIQUE NOT NULL, company_id FK)], rows in insertion order.  No
    statement of the sources supplies an [id], so ids come from one counter
    per table; a counter is advanced by every [INSERT], also by one that
    [ON CONFLICT DO NOTHING] then drops.  The foreign key is not enforced
    by the model: that it holds is a theorem about the coordinator. *)
Record tables : Type := mk_tables {
  companies : list company_row;
  vacancies : list vacancy_row
}.

Definition empty_tables : tables := mk_tables [] [].

(** The parameters of one [INSERT INTO vacancies]:
    [(title, salary_min, salary_max, url, company_id)]. *)
Definition vacancy_tuple : Type :=
  (string * option Z * option Z * string * Z)%type.

Definition vt_title (r : vacancy_tuple) : string :=
  match r with (title, _, _, _, _) => title end.
Definition vt_salary_min (r : vacancy_tuple) : option Z :=
  match r with (_, salary_min, _, _, _) => salary_min end.
Definition vt_salary_max (r : vacancy_tuple) : option Z :=
  match r with (_, _, salary_max, _, _) => salary_max end.
Definition vt_url (r : vacancy_tuple) : string :=
  match r with (_, _, _, url, _) => url end.
Definition vt_company_id (r : vacancy_tuple) : Z :=
  match r with (_, _, _, _, company_id) => company_id end.

(** ** LIKE patterns *)

Inductive like_token : Type :=
| AnySequence              (* % *)
| AnyCharacter             (* _ *)
| Literal (c : ascii).

(** Reading a pattern: a backslash makes the next character literal; a
    pattern that ends in a lone backslash is rejected. *)
Fixpoint like_tokens (pattern : string) : option (list like_token) :=
  match pattern with
  | EmptyString => Some []
  | String "\" EmptyString => None
  | String "\" (String c rest) =>
      option_map (cons (Literal c)) (like_tokens rest)
  | String "%" rest => option_map (cons AnySequence) (like_tokens rest)
  | String "_" rest => option_map (cons AnyCharacter) (like_tokens rest)
  | String c rest => option_map (cons (Literal c)) (like_tokens rest)
  end.

Fixpoint like_match (pattern : list like_token) (s : string) : bool :=
  match pattern with
  | [] => match s with EmptyString => true | _ => false end
  | AnySequence :: pattern' =>
      (fix skip (s : string) : bool :=
         like_match pattern' s
         || match s with
            | EmptyString => false
            | String _ s' => skip s'
            end) s
  | AnyCharacter :: pattern' =>
      match s with
      | EmptyString => false
      | String _ s' => like_match pattern' s'
      end
  | Literal c :: pattern' =>
      match s with
      | EmptyString => false
      | String d s' => Ascii.eqb c d && like_match pattern' s'
      end
  end.

(** ** Case folding and substring search *)

Definition lower_ascii (c : ascii) : ascii :=
  let n := nat_of_ascii c in
  if (65 <=? n)%nat && (n <=? 90)%nat then ascii_of_nat (n + 32) else c.

(** [s.lower()] on ASCII letters; other characters are kept. *)
Fixpoint ascii_lower (s : string) : string :=
  match s with
  | EmptyString => EmptyString
  | String c rest => String (lower_ascii c) (ascii_lower rest)
  end.

(** [needle in haystack] on [str]. *)
Fixpoint str_in (needle haystack : string) : bool :=
  prefix needle haystack
  || match haystack with
     | EmptyString => false
     | String _ rest => str_in needle rest
     end.

(** ** class DBManager *)

Module DBManager.

(** The connection and its cursor.  [session] is what the connection sees,
    [committed] what has been made durable by [commit]; the two id counters
    are outside the transaction.  [cursor] holds the rows, each a single
    [id], that the last statement left to fetch. *)
Record t : Type := mk {
  session : tables;
  committed : tables;
  companies_id_seq : Z;
  vacancies_id_seq : Z;
  cursor : list Z
}.

(** A connection to a database with no rows yet. *)
Definition empty : t := mk empty_tables empty_tables 1 1 [].

Definition name_taken (name : string) (tb : tables) : bool :=
  existsb (fun c => c_name c =? name) (companies tb).

Definition url_taken (url : string) (tb : tables) : bool :=
  existsb (fun v => v_url v =? url) (vacancies tb).

(** [INSERT INTO companies (name, industry, area) VALUES (%s, %s, %s)
    ON CONFLICT (name) DO NOTHING RETURNING id] *)
Definition execute_insert_company (company_name : string)
    (industry area : option string) : Py t unit :=
  modify (fun db =>
    let id := companies_id_seq db in
    if name_taken company_name (session db) then
      mk (session db) (committed db) (id + 1) (vacancies_id_seq db) []
    else
      mk (mk_tables
            (companies (session db)
               ++ [mk_company_row id company_name industry area])%list
            (vacancies (session db)))
         (committed db) (id + 1) (vacancies_id_seq db) [id]).

(** [SELECT id FROM companies WHERE name = %s] *)
Definition execute_select_company_id (company_name : string) : Py t unit :=
  modify (fun db =>
    mk (session db) (committed db) (companies_id_seq db) (vacancies_id_seq db)
       (map c_id
          (filter (fun c => c_name c =? company_name)
                  (companies (session db))))).

(** [INSERT INTO vacancies (title, salary_min, salary_max, url, company_id)
    VALUES (%s, %s, %s, %s, %s) ON CONFLICT (url) DO NOTHING] *)
Definition execute_insert_vacancy (r : vacancy_tuple) : Py t unit :=
  modify (fun db =>
    let id := vacancies_id_seq db in
    if url_taken (vt_url r) (session db) then
      mk (session db) (committed db) (companies_id_seq db) (id + 1) []
    else
      mk (mk_tables
            (companies (session db))
            (vacancies (session db)
               ++ [mk_vacancy_row id (vt_title r) (vt_salary_min r)
                     (vt_salary_max r) (vt_url r) (vt_company_id r)])%list)
         (committed db) (companies_id_seq db) (id + 1) []).

(** [cursor.executemany(query, rows)]: the statement once per row, in
    order. *)
Definition executemany_insert_vacancy (rows : list vacancy_tuple)
  : Py t unit :=
  for_each rows execute_insert_vacancy.

Definition commit : Py t unit :=
  modify (fun db =>
    mk (session db) (session db) (companies_id_seq db) (vacancies_id_seq db)
       (cursor db)).

Definition fetchone : Py t (option Z) :=
  fun db =>
    match cursor db with
    | [] => (db, Returned None)
    | id :: rest =>
        (mk (session db) (committed db) (companies_id_seq db)
            (vacancies_id_seq db) rest,
         Returned (Some id))
    end.

(** [row[0]] where [row] is what [fetchone] gave. *)
Definition first_column (row : option Z) : Py t Z :=
  match row with
  | Some id => ret id
  | None => raise (PyExc "TypeError" "'NoneType' object is not subscriptable")
  end.

Definition insert_company (company_name : string)
    (industry area : option string) : Py t Z :=
  execute_insert_company company_name industry area ;;;
  commit ;;;
  result <- fetchone ;;
  match result with
  | Some id => ret id
  | None =>
      execute_select_company_id company_name ;;;
      row <- fetchone ;;
      first_column row
  end.


Definition insert_vacancies_bulk (vacancies : list vacancy_tuple)
  : Py t unit :=
  executemany_insert_vacancy vacancies ;;;
  commit.

(** *** get_avg_salary *)

Definition coalesce (o : option Z) (default : Z) : Z :=
  match o with Some z => z | None => default end.

Definition is_not_null (o : option Z) : bool :=
  match o with Some _ => true | None => false end.

(** [(COALESCE(v.salary_min, 0) + COALESCE(v.salary_max, 0)) / 2.0] *)
Definition midpoint (v : vacancy_row) : Q :=
  (inject_Z (coalesce (v_salary_min v) 0 + coalesce (v_salary_max v) 0) / 2)%Q.

(** [WHERE v.salary_min IS NOT NULL OR v.salary_max IS NOT NULL] *)
Definition has_bound (v : vacancy_row) : bool :=
  is_not_null (v_salary_min v) || is_not_null (v_salary_max v).

(** The aggregate [AVG]: a running sum and row count, [NULL] over no rows. *)
Definition avg_step (acc : Q * nat) (x : Q) : Q * nat :=
  ((fst acc + x)%Q, S (snd acc)).

Definition avg_final (acc : Q * nat) : option Q :=
  match snd acc with
  | O => None
  | S _ => Some (fst acc / inject_Z (Z.of_nat (snd acc)))%Q
  end.

Definition sql_avg (xs : list Q) : option Q :=
  avg_final (fold_left avg_step xs (0%Q, O)).

(** The statement and [fetchone()[0]]; nothing is left in the cursor. *)
Definition get_avg_salary : Py t (option Q) :=
  fun db =>
    (mk (session db) (committed db) (companies_id_seq db)
        (vacancies_id_seq db) [],
     Returned
       (sql_avg (map midpoint (filter has_bound (vacancies (session db)))))).

(** *** get_vacancies_with_keyword *)

(** [vacancies v JOIN companies c ON v.company_id = c.id] *)
Definition join_companies (tb : tables) : list (vacancy_row * company_row) :=
  flat_map
    (fun v =>
       map (fun c => (v, c))
           (filter (fun c => Z.eqb (v_company_id v) (c_id c)) (companies tb)))
    (vacancies tb).

(** [SELECT v.title, v.salary_min, v.salary_max, v.url, c.name] *)
Definition listing_row : Type :=
  (string * option Z * option Z * string * string)%type.

Definition select_listing (vc : vacancy_row * company_row) : listing_row :=
  (v_title (fst vc), v_salary_min (fst vc), v_salary_max (fst vc),
   v_url (fst vc), c_name (snd vc)).

Section Keyword.

(** The case mapping of the database, [lower()]. *)
Variable lower : string -> string.

(** [WHERE v.title ILIKE %s] with the pattern [%keyword%]: both sides
    are folded to lower case and matched as [LIKE]; a pattern that is
    rejected makes the statement fail.  Then [fetchall()]. *)
Definition get_vacancies_with_keyword (keyword : string)
  : Py t (list listing_row) :=
  fun db =>
    let db' := mk (session db) (committed db) (companies_id_seq db)
                  (vacancies_id_seq db) [] in
    let pattern := "%" ++ keyword ++ "%" in
    match like_tokens (lower pattern) with
    | None =>
        (db, Raised (PyExc "DataError"
                       "LIKE pattern must not end with escape character"))
    | Some tokens =>
        (db',
         Returned
           (map select_listing
              (filter (fun vc => like_match tokens (lower (v_title (fst vc))))
                      (join_companies (session db)))))
    end.

End Keyword.

End DBManager.

(** ** The coordinator *)

(** What the coordinator asks of its [db_manager] argument: the two methods
    it calls.  Either may raise, and leaves the object as it chooses. *)
Class Repository (R : Type) : Type := {
  insert_company : string -> option string -> option string -> Py R Z;
  insert_vacancies_bulk : list vacancy_tuple -> Py R unit
}.

#[export] Instance DBManager_Repository : Repository DBManager.t := {
  insert_company := DBManager.insert_company;
  insert_vacancies_bulk := DBManager.insert_vacancies_bulk
}.

(** A repository that also records every call made to it and how the call
    ended. *)
Inductive repo_call : Type :=
| InsertCompany (company_name : string) (industry area : option string)
    (result : outcome Z)
| InsertVacanciesBulk (rows : list vacancy_tuple) (result : outcome unit).

Record recording (R : Type) : Type := mk_recording {
  inner : R;
  calls : list repo_call
}.
Arguments mk_recording {R} inner calls.
Arguments inner {R} r.
Arguments calls {R} r.

#[export] Instance recording_Repository (R : Type) `{Repository R}
  : Repository (recording R) := {
  insert_company company_name industry area := fun r =>
    let (db, res) := insert_company company_name industry area (inner r) in
    (mk_recording db
       (calls r ++ [InsertCompany company_name industry area res])%list,
     res);
  insert_vacancies_bulk rows := fun r =>
    let (db, res) := insert_vacancies_bulk rows (inner r) in
    (mk_recording db (calls r ++ [InsertVacanciesBulk rows res])%list, res)
}.

(** One element of [companies]: [id] and [name] are required keys. *)
Record company : Type := mk_company {
  company_id : string;
  company_name : string;
  company_industry : option string;
  company_area : option string
}.

(** A finished task of the pool: the world its fetch left and how it
    ended. *)
Definition future : Type := (fetch_world * outcome (list raw_vacancy))%type.

(** [executor.submit(get_vacancies_for_company, company_id, pages)].  The
    task runs on its own worker against the transport; its requests and the
    lines it prints are kept with the task. *)
Definition submit (t : transport) (company_id : string) (pages : nat)
  : future :=
  get_vacancies_for_company t (Some company_id) pages fresh_fetch_world.

(** What the main thread works on: the repository and the lines it has
    printed. *)
Record world (R : Type) : Type := mk_world {
  db_manager : R;
  stdout : list string
}.
Arguments mk_world {R} db_manager stdout.
Arguments db_manager {R} w.
Arguments stdout {R} w.

Section Coordinator.

Context {R : Type} `{Repository R}.

Definition on_db {A} (c : Py R A) : Py (world R) A :=
  fun w =>
    let (db, res) := c (db_manager w) in
    (mk_world db (stdout w), res).

Definition print (line : string) : Py (world R) unit :=
  modify (fun w => mk_world (db_manager w) (stdout w ++ [line])%list).

(** [future.result()]: the value of the task, or its exception raised
    again. *)
Definition future_result (f : future) : Py (world R) (list raw_vacancy) :=
  fun w => (w, snd f).

(** One round of the loop over [vacancies]: the tuple that is appended to
    [vacancies_data], and the line that is printed. *)
Definition vacancy_data (company_id : Z) (vacancy : raw_vacancy)
  : vacancy_tuple :=
  let title := get_or (raw_name vacancy) "Не указано" in
  let salary_info := raw_salary vacancy in
  let salary_min :=
    match salary_info with Some s => salary_from s | None => None end in
  let salary_max :=
    match salary_info with Some s => salary_to s | None => None end in
  let vacancy_url := get_or (raw_alternate_url vacancy) "Нет ссылки" in
  (title, salary_min, salary_max, vacancy_url, company_id).

Definition vacancy_line (r : vacancy_tuple) : string :=
  "Вакансия: " ++ vt_title r ++ ", от " ++ str_opt_Z (vt_salary_min r)
    ++ " до " ++ str_opt_Z (vt_salary_max r) ++ ", Ссылка: " ++ vt_url r.

Fixpoint collect_vacancies (company_id : Z) (vacancies : list raw_vacancy)
    (vacancies_data : list vacancy_tuple)
  : Py (world R) (list vacancy_tuple) :=
  match vacancies with
  | [] => ret vacancies_data
  | vacancy :: rest =>
      let r := vacancy_data company_id vacancy in
      let vacancies_data := (vacancies_data ++ [r])%list in
      print (vacancy_line r) ;;;
      collect_vacancies company_id rest vacancies_data
  end.

(** The body of the [try]. *)
Definition persist_company (f : future) (c : company) : Py (world R) unit :=
  vacancies <- future_result f ;;
  match vacancies with
  | [] => ret tt
  | _ :: _ =>
      company_id <- on_db (insert_company (company_name c)
                             (company_industry c) (company_area c)) ;;
      vacancies_data <- collect_vacancies company_id vacancies [] ;;
      on_db (insert_vacancies_bulk vacancies_data)
  end.

Definition error_line (c : company) (e : py_exception) : string :=
  "Ошибка при получении данных для компании " ++ company_name c ++ ": "
    ++ exc_str e.

(** One round of [for future in futures]. *)
Definition handle_future (fc : future * company) : Py (world R) unit :=
  try_except (persist_company (fst fc) (snd fc))
             (fun e => print (error_line (snd fc) e)).

(** The [futures] dictionary, in the order the tasks were submitted. *)
Definition submit_all (t : transport) (companies : list company)
  : list (future * company) :=
  map (fun c => (submit t (company_id c) 5, c)) companies.

Definition get_all_vacancies_for_companies (t : transport)
    (companies : list company) : Py (world R) unit :=
  match companies with
  | [] => ret tt
  | _ :: _ => for_each (submit_all t companies) handle_future
  end.

End Coordinator.

(** ** hh_api.py: helpers over fetched vacancies *)

Module HhApi.

(** [vacancies_by_company]: company names with their vacancies, in the
    order of the dictionary. *)
Definition vacancies_by_company : Type := list (string * list raw_vacancy).

(** Truth value of an optional integer: [None] and [0] are false. *)
Definition truthy (o : option Z) : bool :=
  match o with
  | Some z => negb (Z.eqb z 0)
  | None => false
  end.

(** [salary.get(key, 0) or 0] *)
Definition or_zero (o : option Z) : Z :=
  if truthy o then match o with Some z => z | None => 0%Z end else 0%Z.

(** [a / b] on numbers. *)
Definition truediv (a : Q) (b : nat) : outcome Q :=
  match b with
  | O => Raised (PyExc "ZeroDivisionError" "division by zero")
  | S _ => Returned (a / inject_Z (Z.of_nat b))%Q
  end.

(** The body of the inner loop, on [(total_salary, salary_count)]. *)
Definition add_salary (acc : Q * nat) (vacancy : raw_vacancy) : Q * nat :=
  let (total_salary, salary_count) := acc in
  match raw_salary vacancy with
  | Some salary =>
      if truthy (salary_from salary) || truthy (salary_to salary) then
        let salary_from := or_zero (salary_from salary) in
        let salary_to := or_zero (salary_to salary) in
        let average :=
          if negb (Z.eqb salary_from 0) && negb (Z.eqb salary_to 0)
          then (inject_Z (salary_from + salary_to) / 2)%Q
          else if negb (Z.eqb salary_from 0) then inject_Z salary_from
               else inject_Z salary_to in
        ((total_salary + average)%Q, S salary_count)
      else acc
  | None => acc
  end.

Definition salary_totals (v : vacancies_by_company) : Q * nat :=
  fold_left (fun acc entry => fold_left add_salary (snd entry) acc) v (0%Q, O).

Definition calculate_average_salary (v : vacancies_by_company) : outcome Q :=
  let (total_salary, salary_count) := salary_totals v in
  if Nat.ltb 0 salary_count then truediv total_salary salary_count
  else Returned 0%Q.

Section Keyword.

(** [str.lower]. *)
Variable lower : string -> string.

(** The list built for one company by the first loop. *)
Definition matching (keyword : string) (vacancies : list raw_vacancy)
  : list raw_vacancy :=
  filter (fun vacancy => str_in keyword (lower (get_or (raw_name vacancy) "")))
         vacancies.

(** The first loop of [search_vacancies_by_keyword]: [matching_vacancies]
    and [total_matching_vacancies].  The function then prints them and
    returns nothing. *)
Definition search_vacancies_by_keyword (v : vacancies_by_company)
    (keyword : string) : vacancies_by_company * nat :=
  let keyword := lower keyword in
  fold_left
    (fun acc entry =>
       let found := matching keyword (snd entry) in
       ((fst acc ++ [(fst entry, found)])%list,
        (snd acc + List.length found)%nat))
    v ([], O).

End Keyword.

End HhApi.

(** ** Vocabulary of the statements *)

(** The request for page [n] of a company. *)
Definition page_request (company_id : option string) (n : nat)
  : string * params :=
  (BASE_URL ++ "vacancies", set_page (initial_params company_id) n).

(** Page [n] is answered with status 200 and a body whose items are
    [its]. *)
Definition serves (t : transport) (company_id : option string) (n : nat)
    (its : list raw_vacancy) : Prop :=
  exists d,
    t (fst (page_request company_id n)) (snd (page_request company_id n))
      = Answers (mk_response 200 (Some d))
    /\ data_items d = its.

(** Page [n] is answered with the status [status], which is not 200. *)
Definition refuses (t : transport) (company_id : option string) (n : nat)
    (status : nat) : Prop :=
  status <> 200%nat
  /\ exists b,
       t (fst (page_request company_id n)) (snd (page_request company_id n))
         = Answers (mk_response status b).

(** The items of pages [0 .. n-1], in page order. *)
Definition pages_concat (its : nat -> list raw_vacancy) (n : nat)
  : list raw_vacancy :=
  List.concat (map its (seq 0 n)).


(** The rows of [companies] with a given name, and of [vacancies] with a
    given url. *)
Definition rows_named (name : string) (tb : tables) : list company_row :=
  filter (fun c => c_name c =? name) (companies tb).


(** The uniqueness constraint on [companies.name]. *)
Definition names_unique (tb : tables) : Prop :=
  NoDup (map c_name (companies tb)).

(** The row that an [INSERT INTO vacancies] with parameters [r] creates when
    it draws [id]. *)
Definition row_of_tuple (id : Z) (r : vacancy_tuple) : vacancy_row :=
  mk_vacancy_row id (vt_title r) (vt_salary_min r) (vt_salary_max r)
                 (vt_url r) (vt_company_id r).

(** The [vacancies] table after the insert statement has been executed for
    each of [rows] in turn, the first of them drawing the id [next]. *)
Fixpoint upsert_rows (vs : list vacancy_row) (next : Z)
    (rows : list vacancy_tuple) : list vacancy_row :=
  match rows with
  | [] => vs
  | r :: rest =>
      upsert_rows
        (if existsb (fun v => v_url v =? vt_url r) vs then vs
         else vs ++ [row_of_tuple next r])%list
        (next + 1) rest
  end.

(** The foreign key of [vacancies.company_id]. *)
Definition references_hold (tb : tables) : Prop :=
  forall v, In v (vacancies tb) ->
    exists c, In c (companies tb) /\ c_id c = v_company_id v.

Definition integrity (db : DBManager.t) : Prop :=
  references_hold (DBManager.session db)
  /\ references_hold (DBManager.committed db).

(** A company name, or a vacancy url, that the connection sees and that is
    committed. *)
Definition has_company (name : string) (db : DBManager.t) : Prop :=
  DBManager.name_taken name (DBManager.session db) = true
  /\ DBManager.name_taken name (DBManager.committed db) = true.

Definition has_url (url : string) (db : DBManager.t) : Prop :=
  DBManager.url_taken url (DBManager.session db) = true
  /\ DBManager.url_taken url (DBManager.committed db) = true.

(** The states of the database that the coordinator can bring about from a
    database without rows: after a whole round of its loop, after the
    [insert_company] of a round, and after any number of the rows of the
    round's batch. *)
Inductive reachable : DBManager.t -> Prop :=
| reach_empty : reachable DBManager.empty
| reach_round (db : DBManager.t) (fc : future * company) (out : list string) :
    reachable db ->
    reachable (db_manager (world_after (handle_future fc (mk_world db out))))
| reach_company (db : DBManager.t) (c : company) :
    reachable db ->
    reachable
      (world_after
         (DBManager.insert_company (company_name c) (company_industry c)
            (company_area c) db))
| reach_rows (db db1 : DBManager.t) (c : company) (id : Z)
    (vs : list raw_vacancy) (n : nat) :
    reachable db ->
    DBManager.insert_company (company_name c) (company_industry c)
      (company_area c) db = (db1, Returned id) ->
    reachable
      (world_after
         (DBManager.executemany_insert_vacancy
            (firstn n (map (vacancy_data id) vs)) db1)).

(** ** Averages *)

Definition sum_Q (xs : list Q) : Q := fold_right Qplus 0%Q xs.



(** All vacancies of a [vacancies_by_company], in the order the loops
    visit them. *)
Definition all_vacancies (v : HhApi.vacancies_by_company)
  : list raw_vacancy :=
  flat_map snd v.




(** What [calculate_average_salary] counts: a vacancy with a bound that is
    a number other than zero; and the value it adds for it: the midpoint
    when both bounds are such numbers, else the bound that is. *)
Definition counted (vacancy : raw_vacancy) : bool :=
  match raw_salary vacancy with
  | Some s => HhApi.truthy (salary_from s) || HhApi.truthy (salary_to s)
  | None => false
  end.

Definition salary_value (vacancy : raw_vacancy) : Q :=
  match raw_salary vacancy with
  | Some s =>
      match HhApi.truthy (salary_from s), HhApi.truthy (salary_to s) with
      | true, true =>
          (inject_Z (DBManager.coalesce (salary_from s) 0
                     + DBManager.coalesce (salary_to s) 0) / 2)%Q
      | true, false => inject_Z (DBManager.coalesce (salary_from s) 0)
      | false, _ => inject_Z (DBManager.coalesce (salary_to s) 0)
      end
  | None => 0%Q
  end.

(** ** Sample data *)

Definition sample_url (n : nat) : string :=
  "https://hh.ru/vacancy/" ++ str_nat n.

(** A vacancy with both salary bounds, and one with only the lower bound. *)
Definition sample_vacancy (n : nat) : raw_vacancy :=
  mk_raw (Some "Python Developer")
         (Some (mk_salary (Some 1000%Z) (Some 2000%Z)))
         (Some (sample_url n)).

Definition lower_bound_vacancy : raw_vacancy :=
  mk_raw (Some "Analyst") (Some (mk_salary (Some 1000%Z) None))
         (Some (sample_url 7)).

Definition lower_bound_only : HhApi.vacancies_by_company :=
  [("Acme", [lower_bound_vacancy])].

(** A database with one company and one vacancy of it, committed. *)
Definition acme_tables : tables :=
  mk_tables
    [mk_company_row 1 "Acme" (Some "IT") None]
    [mk_vacancy_row 1 "Analyst" (Some 1000%Z) None (sample_url 7) 1].

Definition acme_db : DBManager.t := DBManager.mk acme_tables acme_tables 2 2 [].

(** No character of [s] has a meaning of its own in a LIKE pattern. *)
Fixpoint plain (s : string) : bool :=
  match s with
  | EmptyString => true
  | String c rest =>
      negb (Ascii.eqb c "%") && negb (Ascii.eqb c "_")
      && negb (Ascii.eqb c "\") && plain rest
  end.

(** [needle] occurs in [haystack]. *)
Definition occurs_in (needle haystack : string) : Prop :=
  exists before after, haystack = before ++ needle ++ after.

(** The tokens of a string taken letter by letter. *)
Fixpoint literals (s : string) : list like_token :=
  match s with
  | EmptyString => []
  | String c rest => Literal c :: literals rest
  end.

(** Pages: a full one of 100 vacancies and a short one of two. *)
Definition full_page : list raw_vacancy := map sample_vacancy (seq 0 100).

Definition short_page : list raw_vacancy :=
  [sample_vacancy 100; sample_vacancy 101].

Definition two_pages (n : nat) : list raw_vacancy :=
  match n with
  | 0 => full_page
  | 1 => short_page
  | _ => []
  end.

Definition ok_page (its : list raw_vacancy) : reply :=
  Answers (mk_response 200 (Some (mk_body (Some its)))).

(** A transport with a full page 0 and a short page 1. *)
Definition two_page_transport : transport :=
  fun _ p =>
    match page p with
    | Some 0 => ok_page full_page
    | Some 1 => ok_page short_page
    | _ => Fails (PyExc "ConnectionError" "connection refused")
    end.

(** A transport with a full page 0 that answers 503 from page 1 on. *)
Definition refusing_transport : transport :=
  fun _ p =>
    match page p with
    | Some 0 => ok_page full_page
    | _ => Answers (mk_response 503 None)
    end.

(** A transport that cannot be reached for employer 2, has no vacancy for
    employer 9, and one short page for every other employer. *)
Definition flaky_transport : transport :=
  fun _ p =>
    match employer_id p with
    | Some "2" => Fails (PyExc "ConnectionError" "connection refused")
    | Some "9" => ok_page []
    | _ => ok_page short_page
    end.

Definition acme : company := mk_company "1" "Acme" (Some "IT") None.
Definition broken : company := mk_company "2" "Broken" None None.
Definition globex : company := mk_company "3" "Globex" None (Some "Moscow").
Definition idle : company := mk_company "9" "Idle" None None.
Definition unlucky : company := mk_company "4" "Unlucky" None None.

(** A repository whose connection is lost after a number of calls. *)
Record lossy : Type := mk_lossy {
  calls_left : nat;
  store : DBManager.t
}.

Definition connection_lost : py_exception :=
  PyExc "OperationalError" "server closed the connection unexpectedly".

#[export] Instance lossy_Repository : Repository lossy := {
  insert_company company_name industry area := fun r =>
    match calls_left r with
    | O => (r, Raised connection_lost)
    | S n =>
        let (db, res) :=
          DBManager.insert_company company_name industry area (store r) in
        (mk_lossy n db, res)
    end;
  insert_vacancies_bulk rows := fun r =>
    match calls_left r with
    | O => (r, Raised connection_lost)
    | S n =>
        let (db, res) := DBManager.insert_vacancies_bulk rows (store r) in
        (mk_lossy n db, res)
    end
}.

(** A vacancy without a salary, and rows of [vacancies] for one url. *)
Definition unpaid : HhApi.vacancies_by_company :=
  [("Acme", [mk_raw (Some "Intern") None (Some (sample_url 8))])].




(** ** hh_api.py: get_all_vacancies_from_api *)

(** The loop of [get_all_vacancies_from_api]: [params] and [url] are built
    anew for each page. *)
Fixpoint api_pages (t : transport) (company_id : option string)
    (todo : list nat) (all_vacancies : list raw_vacancy)
  : Py fetch_world (list raw_vacancy) :=
  match todo with
  | [] => ret all_vacancies
  | n :: rest =>
      let p :=
        if truthy_id company_id then mk_params company_id 100 (Some n)
        else mk_params None 100 (Some n) in
      let url := BASE_URL ++ "vacancies" in
      r <- requests_get t url p ;;
      if Nat.eqb (status_code r) 200 then
        data <- response_json r ;;
        let all_vacancies := (all_vacancies ++ data_items data)%list in
        if Nat.ltb (List.length (data_items data)) 100 then ret all_vacancies
        else api_pages t company_id rest all_vacancies
      else
        fetch_print (status_line (status_code r)) ;;;
        ret all_vacancies
  end.

Definition get_all_vacancies_from_api (t : transport)
    (company_id : option string) (pages : nat)
  : Py fetch_world (list raw_vacancy) :=
  let all_vacancies := [] in
  api_pages t company_id (seq 0 pages) all_vacancies.

(** ** class DBManager: the reading methods *)

Module Reports.

(** [COUNT(v.id)] of the group of company [c] in
    [companies c LEFT JOIN vacancies v ON c.id = v.company_id]: the
    vacancies that refer to it, none for a company without vacancies. *)
Definition vacancy_count (tb : tables) (c : company_row) : nat :=
  List.length
    (filter (fun v => Z.eqb (c_id c) (v_company_id v)) (vacancies tb)).

(** [ORDER BY COUNT(v.id) DESC]: insertion into a list that is in
    descending order.  Groups with equal counts come in an order the
    database chooses; here they keep the order of the table. *)
Fixpoint insert_by_count (x : string * nat) (l : list (string * nat))
  : list (string * nat) :=
  match l with
  | [] => [x]
  | y :: rest =>
      if Nat.ltb (snd y) (snd x) then x :: l
      else y :: insert_by_count x rest
  end.

Definition order_by_count_desc (l : list (string * nat))
  : list (string * nat) :=
  fold_right insert_by_count [] l.

(** [SELECT c.name, COUNT(v.id) ... GROUP BY c.id ORDER BY COUNT(v.id) DESC
    LIMIT 10] and [fetchall()]; [c.id] is the key of [companies], so each
    company is a group. *)
Definition get_companies_and_vacancies_count
  : Py DBManager.t (list (string * nat)) :=
  fun db =>
    (DBManager.mk (DBManager.session db) (DBManager.committed db)
       (DBManager.companies_id_seq db) (DBManager.vacancies_id_seq db) [],
     Returned
       (firstn 10
          (order_by_count_desc
             (map (fun c => (c_name c, vacancy_count (DBManager.session db) c))
                  (companies (DBManager.session db)))))).

(** [SELECT v.title, v.salary_min, v.salary_max, v.url, c.name FROM
    vacancies v JOIN companies c ON v.company_id = c.id] and
    [fetchall()]. *)
Definition get_all_vacancies : Py DBManager.t (list DBManager.listing_row) :=
  fun db =>
    (DBManager.mk (DBManager.session db) (DBManager.committed db)
       (DBManager.companies_id_seq db) (DBManager.vacancies_id_seq db) [],
     Returned
       (map DBManager.select_listing
            (DBManager.join_companies (DBManager.session db)))).

(** [x > y] on numbers. *)
Definition Q_gtb (x y : Q) : bool := negb (Qle_bool x y).

(** The second statement of [get_vacancies_with_higher_salary], with
    [avg_salary] for its [%s], and [fetchall()]. *)
Definition select_higher_salary (avg_salary : Q)
  : Py DBManager.t (list DBManager.listing_row) :=
  fun db =>
    (DBManager.mk (DBManager.session db) (DBManager.committed db)
       (DBManager.companies_id_seq db) (DBManager.vacancies_id_seq db) [],
     Returned
       (map DBManager.select_listing
          (filter (fun vc => Q_gtb (DBManager.midpoint (fst vc)) avg_salary)
                  (DBManager.join_companies (DBManager.session db))))).

Definition get_vacancies_with_higher_salary
  : Py DBManager.t (list DBManager.listing_row) :=
  avg_salary <- DBManager.get_avg_salary ;;
  match avg_salary with
  | None => ret []
  | Some avg_salary => select_higher_salary avg_salary
  end.

End Reports.

(** ** Dictionaries *)

(** A [dict] with string keys, in insertion order. *)
Fixpoint dict_get {V} (d : list (string * V)) (k : string) : option V :=
  match d with
  | [] => None
  | (k', v) :: rest => if k' =? k then Some v else dict_get rest k
  end.

(** [d[k] = v]: a key that is in the dictionary keeps its place. *)
Fixpoint dict_set {V} (d : list (string * V)) (k : string) (v : V)
  : list (string * V) :=
  match d with
  | [] => [(k, v)]
  | (k', v') :: rest =>
      if k' =? k then (k, v) :: rest else (k', v') :: dict_set rest k v
  end.

(** [k in d] *)
Definition dict_has {V} (d : list (string * V)) (k : string) : bool :=
  match dict_get d k with Some _ => true | None => false end.

(** ** hh_api.py: the functions on fetched vacancies *)

Module Fetched.

(** [get_vacancies_with_higher_salary]: the test of the comprehension.  A
    salary object that is present is taken to be a dictionary with keys,
    which is true. *)
Definition higher (avg_salary : Q) (vacancy : raw_vacancy) : bool :=
  match raw_salary vacancy with
  | Some salary =>
      Reports.Q_gtb
        (inject_Z (HhApi.or_zero (salary_from salary)
                   + HhApi.or_zero (salary_to salary)) / 2)%Q
        avg_salary
  | None => false
  end.

Definition get_vacancies_with_higher_salary
    (v : HhApi.vacancies_by_company) (avg_salary : Q)
  : HhApi.vacancies_by_company :=
  fold_left
    (fun higher_salary_vacancies entry =>
       let filtered_vacancies := filter (higher avg_salary) (snd entry) in
       match filtered_vacancies with
       | [] => higher_salary_vacancies
       | _ :: _ =>
           dict_set higher_salary_vacancies (fst entry) filtered_vacancies
       end)
    v [].

Section Coordinator.

(** [vacancy['employer']['name']].  The record of a vacancy keeps the keys
    that the other functions read; what this lookup gives for a vacancy,
    the name or the exception of a missing key, is a parameter. *)
Variable employer_name : raw_vacancy -> outcome string.

(** The text of the elapsed time in the last line printed; it depends on
    the clock. *)
Variable execution_time : string.

(** One round of the loop over [futures]. *)
Definition collect_future (all_vacancies : HhApi.vacancies_by_company)
    (fn : future * string)
  : Py fetch_world HhApi.vacancies_by_company :=
  let company_name := snd fn in
  try_except
    (match snd (fst fn) with
     | Raised e => raise e
     | Returned [] => ret all_vacancies
     | Returned (v :: vs) => ret (dict_set all_vacancies company_name (v :: vs))
     end)
    (fun e =>
       fetch_print ("Ошибка при получении данных для компании "
                      ++ company_name ++ ": " ++ exc_str e) ;;;
       ret all_vacancies).

Fixpoint collect_futures (futures : list (future * string))
    (all_vacancies : HhApi.vacancies_by_company)
  : Py fetch_world HhApi.vacancies_by_company :=
  match futures with
  | [] => ret all_vacancies
  | fn :: rest =>
      all_vacancies <- collect_future all_vacancies fn ;;
      collect_futures rest all_vacancies
  end.

(** The loop of the [else] branch, which groups vacancies by employer. *)
Fixpoint group_by_employer (all_vacancies_list : list raw_vacancy)
    (all_vacancies : HhApi.vacancies_by_company)
  : Py fetch_world HhApi.vacancies_by_company :=
  match all_vacancies_list with
  | [] => ret all_vacancies
  | vacancy :: rest =>
      match employer_name vacancy with
      | Raised e => raise e
      | Returned company_name =>
          let all_vacancies :=
            if dict_has all_vacancies company_name then all_vacancies
            else dict_set all_vacancies company_name [] in
          let all_vacancies :=
            match dict_get all_vacancies company_name with
            | Some l => dict_set all_vacancies company_name (l ++ [vacancy])%list
            | None => all_vacancies
            end in
          group_by_employer rest all_vacancies
      end
  end.

(** The world is that of the main thread: the requests it sends itself and
    the lines it prints. *)
Definition get_all_vacancies_for_companies (t : transport)
    (companies : list company)
  : Py fetch_world HhApi.vacancies_by_company :=
  let all_vacancies := [] in
  all_vacancies <-
    match companies with
    | _ :: _ =>
        let futures :=
          map (fun c => (submit t (company_id c) 5, company_name c))
              companies in
        collect_futures futures all_vacancies
    | [] =>
        all_vacancies_list <- get_vacancies_for_company t None 5 ;;
        group_by_employer all_vacancies_list all_vacancies
    end ;;
  fetch_print ("Время выполнения: " ++ execution_time ++ " секунд") ;;;
  ret all_vacancies.

End Coordinator.

End Fetched.

(** ** Vocabulary of further statements *)

(** The request for page [n] ends in the exception [e]: [requests.get]
    raises it, or the answer has status 200 and a body that is not JSON. *)
Definition breaks (t : transport) (company_id : option string) (n : nat)
    (e : py_exception) : Prop :=
  t (fst (page_request company_id n)) (snd (page_request company_id n))
  = Fails e
  \/ (t (fst (page_request company_id n)) (snd (page_request company_id n))
      = Answers (mk_response 200 None)
      /\ e = PyExc "JSONDecodeError" "Expecting value").

(** Page [n] is answered with status 200 and at least 100 items. *)
Definition full (t : transport) (company_id : option string) (n : nat)
  : Prop :=
  exists d,
    t (fst (page_request company_id n)) (snd (page_request company_id n))
      = Answers (mk_response 200 (Some d))
    /\ 100 <= List.length (data_items d).

(** ** More sample data *)

(** A transport all of whose pages are full, and one that is cut off after
    page 0. *)
Definition endless_transport : transport := fun _ _ => ok_page full_page.

Definition cut_off_transport : transport :=
  fun _ p =>
    match page p with
    | Some 0 => ok_page full_page
    | _ => Fails (PyExc "ConnectionError" "connection reset")
    end.

(** ** Consistency of the tables *)

(** The keys and uniqueness constraints of both tables, and ids below the
    counters [cseq] and [vseq] that the next rows will draw. *)
Definition tables_consistent (tb : tables) (cseq vseq : Z) : Prop :=
  NoDup (map c_name (companies tb))
  /\ NoDup (map c_id (companies tb))
  /\ (forall c, In c (companies tb) -> (c_id c < cseq)%Z)
  /\ NoDup (map v_url (vacancies tb))
  /\ NoDup (map v_id (vacancies tb))
  /\ (forall v, In v (vacancies tb) -> (v_id v < vseq)%Z).

Definition consistent (db : DBManager.t) : Prop :=
  tables_consistent (DBManager.session db) (DBManager.companies_id_seq db)
    (DBManager.vacancies_id_seq db)
  /\ tables_consistent (DBManager.committed db) (DBManager.companies_id_seq db)
       (DBManager.vacancies_id_seq db).

(** The name of the company with a given id, the empty string when there
    is none. *)
Definition name_of_company (tb : tables) (id : Z) : string :=
  match find (fun c => Z.eqb id (c_id c)) (companies tb) with
  | Some c => c_name c
  | None => ""
  end.

(** The row of [get_all_vacancies] for a vacancy. *)
Definition listing_of (tb : tables) (v : vacancy_row) : DBManager.listing_row :=
  (v_title v, v_salary_min v, v_salary_max v, v_url v,
   name_of_company tb (v_company_id v)).



(** The url under which the coordinator stores a fetched vacancy. *)
Definition stored_url (vacancy : raw_vacancy) : string :=
  get_or (raw_alternate_url vacancy) "Нет ссылки".

(** A list of counted names in descending order of the counts. *)
Definition descending (l : list (string * nat)) : Prop :=
  StronglySorted (fun x y => snd y <= snd x) l.

(** The name of each company with the number of vacancies that refer to
    it. *)
Definition company_counts (tb : tables) : list (string * nat) :=
  map (fun c => (c_name c, Reports.vacancy_count tb c)) (companies tb).

(** ** Runs of the coordinator *)

(** What a task brought is in the database: the name of the company and
    the url of each of its vacancies are in the session's tables and
    committed, and nothing is left to commit. *)
Definition covered (fc : future * company) (db : DBManager.t) : Prop :=
  match snd (fst fc) with
  | Returned (v :: vs) =>
      has_company (company_name (snd fc)) db
      /\ (forall v', In v' (v :: vs) -> has_url (stored_url v') db)
      /\ DBManager.committed db = DBManager.session db
  | _ => True
  end.

(** ** Vocabulary for the functions on fetched vacancies *)



(** The report of the exception of a company's fetch, and the last line
    that [get_all_vacancies_for_companies] of [hh_api.py] prints. *)
Definition fetch_error_lines (t : transport) (c : company) : list string :=
  match result_of (submit t (company_id c) 5) with
  | Raised e => [error_line c e]
  | Returned _ => []
  end.

Definition time_line (execution_time : string) : string :=
  "Время выполнения: " ++ execution_time ++ " секунд".

(** The fetch of a company returned vacancies. *)
Definition fetched_some (t : transport) (c : company) : Prop :=
  exists v vs, result_of (submit t (company_id c) 5) = Returned (v :: vs).

(** The vacancies of a list whose employer has a given name, for a naming
    of the vacancies. *)
Definition of_employer (name_of : raw_vacancy -> string) (name : string)
    (l : list raw_vacancy) : list raw_vacancy :=
  filter (fun v => name_of v =? name) l.

(** What the last company of a list with a given name and with vacancies
    brought. *)
Fixpoint last_fetched (t : transport) (cs : list company) (name : string)
  : option (list raw_vacancy) :=
  match cs with
  | [] => None
  | c :: rest =>
      match last_fetched t rest name with
      | Some vacancies => Some vacancies
      | None =>
          if company_name c =? name then
            match result_of (submit t (company_id c) 5) with
            | Returned (v :: vs) => Some (v :: vs)
            | _ => None
            end
          else None
      end
  end.

(** Fetched vacancies of two companies, and a naming of vacancies by one
    employer. *)
Definition two_companies : HhApi.vacancies_by_company :=
  [("Acme", [sample_vacancy 1; lower_bound_vacancy]);
   ("Globex", [lower_bound_vacancy])].

Definition employed_by_acme (v : raw_vacancy) : outcome string :=
  Returned "Acme".

(** ** class DBManager on a connection whose statements can fail *)

Module Transactional.

(** psycopg2 opens a transaction with the first statement after a [commit],
    and [commit] ends it.  A statement that the server refuses raises, and
    leaves the transaction failed; in a failed transaction the server
    refuses every further statement, until [commit] or [rollback] ends the
    transaction, which undoes what was not committed.  [db] is the database
    as [DBManager] has it. *)
Record t : Type := mk {
  failed : bool;
  db : DBManager.t
}.

Definition in_failed_transaction : py_exception :=
  PyExc "InFailedSqlTransaction"
    "current transaction is aborted, commands ignored until end of transaction block".

(** What is not committed is undone; the id counters are outside the
    transaction. *)
Definition undo (d : DBManager.t) : DBManager.t :=
  DBManager.mk (DBManager.committed d) (DBManager.committed d)
    (DBManager.companies_id_seq d) (DBManager.vacancies_id_seq d)
    (DBManager.cursor d).

(** [cursor.execute] of a statement that the server refuses with
    [refusal], if with any. *)
Definition execute (refusal : option py_exception)
    (statement : Py DBManager.t unit) : Py t unit :=
  fun c =>
    if failed c then (c, Raised in_failed_transaction)
    else
      match refusal with
      | Some e => (mk true (db c), Raised e)
      | None => let (d, res) := statement (db c) in (mk false d, res)
      end.

(** [connection.commit()]: a failed transaction is ended by undoing it. *)
Definition commit : Py t unit :=
  fun c =>
    if failed c then (mk false (undo (db c)), Returned tt)
    else let (d, res) := DBManager.commit (db c) in (mk false d, res).

(** What the cursor does on its own rows, without a statement. *)
Definition on_cursor {A} (c : Py DBManager.t A) : Py t A :=
  fun s => let (d, res) := c (db s) in (mk (failed s) d, res).

Section Statements.

(** The error with which the server refuses the [INSERT] of a company, and
    of a vacancy, if it refuses it. *)
Variable refused_company :
  string -> option string -> option string -> option py_exception.
Variable refused_vacancy : vacancy_tuple -> option py_exception.

Definition insert_company (company_name : string)
    (industry area : option string) : Py t Z :=
  execute (refused_company company_name industry area)
    (DBManager.execute_insert_company company_name industry area) ;;;
  commit ;;;
  result <- on_cursor DBManager.fetchone ;;
  match result with
  | Some id => ret id
  | None =>
      execute None (DBManager.execute_select_company_id company_name) ;;;
      row <- on_cursor DBManager.fetchone ;;
      on_cursor (DBManager.first_column row)
  end.

(** [cursor.executemany(query, rows)]: the statement once per row, in
    order, up to the first one that raises. *)
Definition executemany_insert_vacancy (rows : list vacancy_tuple)
  : Py t unit :=
  for_each rows
    (fun r => execute (refused_vacancy r) (DBManager.execute_insert_vacancy r)).

Definition insert_vacancies_bulk (vacancies : list vacancy_tuple)
  : Py t unit :=
  executemany_insert_vacancy vacancies ;;;
  commit.

End Statements.

End Transactional.

(** The coordinator's [db_manager] on such a connection. *)
Definition Transactional_Repository
    (refused_company :
       string -> option string -> option string -> option py_exception)
    (refused_vacancy : vacancy_tuple -> option py_exception)
  : Repository Transactional.t :=
  Build_Repository Transactional.t
    (Transactional.insert_company refused_company)
    (Transactional.insert_vacancies_bulk refused_vacancy).

(** Modelled from the spec: [salary_min] and [salary_max] are [INT]
    columns, which hold the integers from [-2^31] to [2^31 - 1]; the server
    refuses the [INSERT] of any other integer. *)
Definition int4 (o : option Z) : bool :=
  match o with
  | Some z => (-2147483648 <=? z)%Z && (z <=? 2147483647)%Z
  | None => true
  end.

Definition integer_out_of_range : py_exception :=
  PyExc "NumericValueOutOfRange" "integer out of range".

Definition salary_columns (r : vacancy_tuple) : option py_exception :=
  if int4 (vt_salary_min r) && int4 (vt_salary_max r) then None
  else Some integer_out_of_range.

Definition any_company (company_name : string) (industry area : option string)
  : option py_exception :=
  None.

(** A vacancy whose lower bound is no [INT], its company, and a transport
    that has this vacancy after another one for employer 5, one vacancy for
    employer 3, and one short page for every other employer. *)
Definition overpaid_vacancy : raw_vacancy :=
  mk_raw (Some "Director") (Some (mk_salary (Some 3000000000%Z) None))
         (Some (sample_url 501)).

Definition greedy : company := mk_company "5" "Greedy" None None.

Definition overpaying_transport : transport :=
  fun _ p =>
    match employer_id p with
    | Some "5" => ok_page [sample_vacancy 500; overpaid_vacancy]
    | Some "3" => ok_page [sample_vacancy 300]
    | _ => ok_page short_page
    end.

(** ** calculate_average_salary on integers and floats *)

Module Numeric.

(** A Python number: an [int], of any size, or a [float].  A float is taken
    as the rational that it stands for: rounding, infinities and NaN are
    not modelled.  What is modelled is which operation raises: that depends
    on which operands are integers and on how large these are. *)
Inductive number : Type :=
| Int (z : Z)
| Float (q : Q).

(** The least integer that is too large for a float: the integers below
    [2**1024 - 2**970] round to a float, at most to the largest one,
    [2**1024 - 2**971]. *)
Definition float_limit : Z := 2 ^ 1024 - 2 ^ 970.

(** The operand of an operation on floats: an [int] is converted. *)
Definition as_float (n : number) : outcome Q :=
  match n with
  | Int z =>
      if (Z.abs z <? float_limit)%Z then Returned (inject_Z z)
      else Raised (PyExc "OverflowError" "int too large to convert to float")
  | Float q => Returned q
  end.

Definition and_then {A B} (o : outcome A) (k : A -> outcome B) : outcome B :=
  match o with
  | Returned a => k a
  | Raised e => Raised e
  end.

(** [a + b]: the sum of two integers is an integer. *)
Definition add (a b : number) : outcome number :=
  match a, b with
  | Int x, Int y => Returned (Int (x + y))
  | _, _ =>
      and_then (as_float a) (fun x =>
      and_then (as_float b) (fun y =>
      Returned (Float (x + y)%Q)))
  end.

(** [a / b]: the quotient of two integers is the float nearest to it, if
    there is one. *)
Definition truediv (a b : number) : outcome number :=
  match a, b with
  | Int x, Int y =>
      if (y =? 0)%Z then
        Raised (PyExc "ZeroDivisionError" "division by zero")
      else if (Z.abs x <? float_limit * Z.abs y)%Z then
        Returned (Float (inject_Z x / inject_Z y)%Q)
      else
        Raised (PyExc "OverflowError"
                  "integer division result too large for a float")
  | _, _ =>
      and_then (as_float a) (fun x =>
      and_then (as_float b) (fun y =>
      if Qeq_bool y 0 then
        Raised (PyExc "ZeroDivisionError" "float division by zero")
      else Returned (Float (x / y)%Q)))
  end.

(** A loop whose body can raise. *)
Fixpoint fold_outcome {A B} (body : A -> B -> outcome A) (l : list B)
    (acc : A) : outcome A :=
  match l with
  | [] => Returned acc
  | x :: rest => and_then (body acc x) (fold_outcome body rest)
  end.

(** The body of the inner loop, on [(total_salary, salary_count)]. *)
Definition add_salary (acc : number * nat) (vacancy : raw_vacancy)
  : outcome (number * nat) :=
  let (total_salary, salary_count) := acc in
  match raw_salary vacancy with
  | Some salary =>
      if HhApi.truthy (salary_from salary) || HhApi.truthy (salary_to salary)
      then
        let salary_from := HhApi.or_zero (salary_from salary) in
        let salary_to := HhApi.or_zero (salary_to salary) in
        and_then
          (if negb (Z.eqb salary_from 0) && negb (Z.eqb salary_to 0)
           then truediv (Int (salary_from + salary_to)) (Int 2)
           else if negb (Z.eqb salary_from 0) then Returned (Int salary_from)
                else Returned (Int salary_to))
          (fun average =>
        and_then (add total_salary average) (fun total_salary =>
        Returned (total_salary, S salary_count)))
      else Returned acc
  | None => Returned acc
  end.

Definition salary_totals (v : HhApi.vacancies_by_company)
  : outcome (number * nat) :=
  fold_outcome (fun acc entry => fold_outcome add_salary (snd entry) acc)
    v (Int 0, O).

Definition calculate_average_salary (v : HhApi.vacancies_by_company)
  : outcome number :=
  and_then (salary_totals v) (fun totals =>
    let (total_salary, salary_count) := totals in
    if Nat.ltb 0 salary_count
    then truediv total_salary (Int (Z.of_nat salary_count))
    else Returned (Int 0)).

(** The rational of a number. *)
Definition value (n : number) : Q :=
  match n with
  | Int z => inject_Z z
  | Float q => q
  end.

End Numeric.

(** An exception is an [OverflowError]. *)
Definition is_overflow (e : py_exception) : Prop :=
  exists msg, e = PyExc "OverflowError" msg.

(** The sum of the absolute values of the salary bounds that
    [calculate_average_salary] reads. *)
Definition bound_size (vacancy : raw_vacancy) : Z :=
  match raw_salary vacancy with
  | Some s =>
      (Z.abs (HhApi.or_zero (salary_from s))
       + Z.abs (HhApi.or_zero (salary_to s)))%Z
  | None => 0%Z
  end.

Definition bounds_size (l : list raw_vacancy) : Z :=
  fold_right Z.add 0%Z (map bound_size l).

(** One vacancy with a lower bound of [10**400]. *)
Definition huge_salary : HhApi.vacancies_by_company :=
  [("Acme",
    [mk_raw (Some "Director") (Some (mk_salary (Some (10 ^ 400)%Z) None))
            (Some (sample_url 9))])].


(** A number is at most [b] in absolute value. *)
Definition within (n : Numeric.number) (b : Z) : Prop :=
  match n with
  | Numeric.Int z => (Z.abs z <= b)%Z
  | Numeric.Float q => (inject_Z (- b) <= q)%Q /\ (q <= inject_Z b)%Q
  end.

(** The run of the coordinator over three companies on a connection with
    no rows yet, where the batch of the second company has the vacancy
    whose lower bound is no [INT]. *)
Definition overpaid_run : world Transactional.t * outcome unit :=
  @get_all_vacancies_for_companies Transactional.t
    (Transactional_Repository any_company salary_columns)
    overpaying_transport [acme; greedy; globex]
    (mk_world (Transactional.mk false DBManager.empty) []).

(** * Pagination *)

Section Pagination.

Variable t : transport.
Variable url : string.

Lemma set_page_twice p n m : set_page (set_page p n) m = set_page p m.
Proof. reflexivity. Qed.

(** From page [s] on: full pages up to [s + k - 1], then a short one. *)
Lemma fetch_pages_short its k :
  forall s len p acc w,
    (k < len)%nat ->
    (forall i, (i < k)%nat ->
       exists d, t url (set_page p (s + i)) = Answers (mk_response 200 (Some d))
                 /\ data_items d = its (s + i)%nat
                 /\ (100 <= List.length (its (s + i)%nat))%nat) ->
    (exists d, t url (set_page p (s + k)) = Answers (mk_response 200 (Some d))
               /\ data_items d = its (s + k)%nat
               /\ (List.length (its (s + k)%nat) < 100)%nat) ->
    fetch_pages t url p (seq s len) acc w
    = (mk_fetch_world
         (sent w ++ map (fun n => (url, set_page p n)) (seq s (S k)))%list
         (fetch_stdout w),
       Returned (acc ++ List.concat (map its (seq s (S k))))%list).
Proof.
  induction k as [|k IH]; intros s len p acc w Hlen Hfull Hshort.
  - destruct len as [|len]; [lia|].
    destruct Hshort as (d & Ht & Hd & Hl).
    rewrite Nat.add_0_r in Ht, Hd, Hl.
    cbn [seq fetch_pages]. unfold bind, requests_get. rewrite Ht.
    cbn [status_code Nat.eqb response_json body ret]. rewrite Hd.
    apply Nat.ltb_lt in Hl. rewrite Hl. cbn. now rewrite app_nil_r.
  - destruct len as [|len]; [lia|].
    destruct (Hfull 0%nat ltac:(lia)) as (d & Ht & Hd & Hl).
    rewrite Nat.add_0_r in Ht, Hd, Hl.
    cbn [seq fetch_pages]. unfold bind at 1, requests_get. rewrite Ht.
    cbn [status_code Nat.eqb response_json body]. unfold bind at 1, ret at 1.
    rewrite Hd. apply Nat.ltb_ge in Hl. rewrite Hl.
    rewrite (IH (S s) len (set_page p s)); [| lia | |].
    + cbn [sent fetch_stdout map List.concat seq]. f_equal.
      * f_equal. rewrite <- app_assoc. reflexivity.
      * rewrite <- app_assoc. reflexivity.
    + intros i Hi. rewrite set_page_twice.
      replace (S s + i)%nat with (s + S i)%nat by lia. apply Hfull. lia.
    + rewrite set_page_twice.
      replace (S s + k)%nat with (s + S k)%nat by lia. exact Hshort.
Qed.

(** From page [s] on: full pages up to [s + k - 1], then a refusal. *)
Lemma fetch_pages_refused its k status :
  forall s len p acc w,
    (k < len)%nat ->
    (forall i, (i < k)%nat ->
       exists d, t url (set_page p (s + i)) = Answers (mk_response 200 (Some d))
                 /\ data_items d = its (s + i)%nat
                 /\ (100 <= List.length (its (s + i)%nat))%nat) ->
    status <> 200%nat ->
    (exists b, t url (set_page p (s + k)) = Answers (mk_response status b)) ->
    fetch_pages t url p (seq s len) acc w
    = (mk_fetch_world
         (sent w ++ map (fun n => (url, set_page p n)) (seq s (S k)))%list
         (fetch_stdout w ++ [status_line status])%list,
       Returned (acc ++ List.concat (map its (seq s k)))%list).
Proof.
  induction k as [|k IH]; intros s len p acc w Hlen Hfull Hst Hrefuse.
  - destruct len as [|len]; [lia|].
    destruct Hrefuse as (b & Ht). rewrite Nat.add_0_r in Ht.
    cbn [seq fetch_pages]. unfold bind at 1, requests_get. rewrite Ht.
    cbn [status_code]. apply Nat.eqb_neq in Hst. rewrite Hst.
    cbn. now rewrite app_nil_r.
  - destruct len as [|len]; [lia|].
    destruct (Hfull 0%nat ltac:(lia)) as (d & Ht & Hd & Hl).
    rewrite Nat.add_0_r in Ht, Hd, Hl.
    cbn [seq fetch_pages]. unfold bind at 1, requests_get. rewrite Ht.
    cbn [status_code Nat.eqb response_json body]. unfold bind at 1, ret at 1.
    rewrite Hd. apply Nat.ltb_ge in Hl. rewrite Hl.
    rewrite (IH (S s) len (set_page p s)); [| lia | | exact Hst |].
    + cbn [sent fetch_stdout map List.concat seq]. f_equal.
      * f_equal. rewrite <- app_assoc. reflexivity.
      * rewrite <- app_assoc. reflexivity.
    + intros i Hi. rewrite set_page_twice.
      replace (S s + i)%nat with (s + S i)%nat by lia. apply Hfull. lia.
    + rewrite set_page_twice.
      replace (S s + k)%nat with (s + S k)%nat by lia. exact Hrefuse.
Qed.

End Pagination.

Section PaginationBound.

Variable t : transport.
Variable url : string.

(** Whatever the pages before it do, nothing is requested beyond a page
    that is refused. *)
Lemma fetch_pages_sent_bound p0 refused status b :
  t url (set_page p0 refused) = Answers (mk_response status b) ->
  status <> 200%nat ->
  forall len s acc w,
    exists m,
      sent (fst (fetch_pages t url p0 (seq s len) acc w))
      = (sent w ++ map (fun n => (url, set_page p0 n)) (seq s m))%list
      /\ ((s <= refused)%nat -> (s + m <= S refused)%nat).
Proof.
  intros Ht Hst len. revert p0 Ht.
  induction len as [|len IH]; intros p0 Ht s acc w.
  - exists 0%nat. cbn. rewrite app_nil_r. split; [reflexivity | lia].
  - cbn [seq fetch_pages]. unfold bind at 1, requests_get.
    destruct (t url (set_page p0 s)) as [e | r] eqn:Hs.
    + exists 1%nat. cbn. split; [reflexivity | lia].
    + destruct (Nat.eqb (status_code r) 200) eqn:Hcode.
      * unfold response_json. destruct (body r) as [d|] eqn:Hbody.
        -- unfold bind at 1, ret at 1.
           destruct (Nat.ltb (List.length (data_items d)) 100).
           ++ exists 1%nat. cbn. split; [reflexivity | lia].
           ++ destruct (IH (set_page p0 s) Ht (S s) (acc ++ data_items d)%list
                          (mk_fetch_world (sent w ++ [(url, set_page p0 s)])%list
                                          (fetch_stdout w)))
                as (m & Hsent & Hm).
              exists (S m). split.
              ** rewrite Hsent. cbn [sent seq map].
                 rewrite <- app_assoc. reflexivity.
              ** intros Hle. destruct (Nat.eq_dec s refused) as [-> | Hne].
                 --- rewrite Ht in Hs. injection Hs as <-.
                     cbn in Hcode. apply Nat.eqb_eq in Hcode. contradiction.
                 --- assert (S s <= refused)%nat by lia. specialize (Hm H). lia.
        -- exists 1%nat. cbn. split; [reflexivity | lia].
      * exists 1%nat. cbn. split; [reflexivity | lia].
Qed.

End PaginationBound.

(** C1. When page [k] is the first page with fewer than 100 items, and
    [pages > k], the fetch sends the requests for pages [0 .. k], in that
    order and nothing else, and returns the items of pages [0 .. k]
    concatenated in page order. *)
Theorem fetch_until_first_short_page :
  forall (t : transport) (company_id : option string) (pages k : nat)
         (its : nat -> list raw_vacancy) (w : fetch_world),
    (k < pages)%nat ->
    (forall i, (i <= k)%nat -> serves t company_id i (its i)) ->
    (forall i, (i < k)%nat -> (100 <= List.length (its i))%nat) ->
    (List.length (its k) < 100)%nat ->
    get_vacancies_for_company t company_id pages w
    = (mk_fetch_world
         (sent w ++ map (page_request company_id) (seq 0 (k + 1)))%list
         (fetch_stdout w),
       Returned (pages_concat its (k + 1))).
Proof.
  intros t cid pages k its w Hk Hserve Hfull Hshort.
  unfold get_vacancies_for_company.
  rewrite (fetch_pages_short t _ its k 0 pages _ [] w Hk).
  - rewrite Nat.add_1_r. reflexivity.
  - intros i Hi. destruct (Hserve i ltac:(lia)) as (d & Ht & Hd).
    exists d. cbn [Nat.add]. repeat split; auto.
  - destruct (Hserve k ltac:(lia)) as (d & Ht & Hd).
    exists d. cbn [Nat.add]. repeat split; auto.
Qed.

(** C6. When page [p] is answered with a status other than 200, no page
    after [p] is requested; and when the pages before [p] were full and
    [p < pages], the fetch sends the requests for pages [0 .. p], prints
    the status, and returns the items of pages [0 .. p-1] without raising. *)
Theorem refused_page_ends_pagination :
  forall (t : transport) (company_id : option string) (pages p status : nat)
         (its : nat -> list raw_vacancy),
    refuses t company_id p status ->
    (forall q,
        In (page_request company_id q)
           (sent (world_after
                    (get_vacancies_for_company t company_id pages
                       fresh_fetch_world))) ->
        (q <= p)%nat)
    /\ ((p < pages)%nat ->
        (forall i, (i < p)%nat ->
           serves t company_id i (its i) /\ (100 <= List.length (its i))%nat) ->
        forall w,
          get_vacancies_for_company t company_id pages w
          = (mk_fetch_world
               (sent w ++ map (page_request company_id) (seq 0 (p + 1)))%list
               (fetch_stdout w ++ [status_line status])%list,
             Returned (pages_concat its p))).
Proof.
  intros t cid pages p status its (Hst & b & Ht). split.
  - intros q Hin. unfold get_vacancies_for_company, world_after in Hin.
    destruct (fetch_pages_sent_bound t (BASE_URL ++ "vacancies")
                (initial_params cid) p status b Ht Hst pages 0 []
                fresh_fetch_world) as (m & Hsent & Hm).
    cbv zeta in Hin. rewrite Hsent in Hin. cbn [fresh_fetch_world sent app] in Hin.
    apply in_map_iff in Hin. destruct Hin as (n & Heq & Hn).
    apply in_seq in Hn. unfold page_request in Heq.
    injection Heq as Heq. subst n. specialize (Hm ltac:(lia)). lia.
  - intros Hp Hfull w. unfold get_vacancies_for_company.
    rewrite (fetch_pages_refused t _ its p status 0 pages _ [] w Hp).
    + rewrite Nat.add_1_r. reflexivity.
    + intros i Hi. destruct (Hfull i Hi) as ((d & Hd & Hitems) & Hlen).
      exists d. cbn [Nat.add]. repeat split; auto.
    + exact Hst.
    + exists b. exact Ht.
Qed.

(** * Lists *)

Lemma filter_none {A} (f : A -> bool) (l : list A) :
  (forall x, In x l -> f x = false) -> filter f l = [].
Proof.
  induction l as [|a l IH]; cbn; intros Hall; [reflexivity|].
  rewrite (Hall a (or_introl eq_refl)). apply IH.
  intros x Hx. apply Hall. now right.
Qed.


(** * The repository *)

Module DBFacts.

Import DBManager.

Lemma name_taken_rows name tb :
  name_taken name tb = true <-> rows_named name tb <> [].
Proof.
  unfold name_taken, rows_named.
  induction (companies tb) as [|c l IH]; cbn.
  - split; [discriminate | congruence].
  - destruct (c_name c =? name); cbn.
    + split; [discriminate | reflexivity].
    + exact IH.
Qed.



(** [insert_company] when the name is already in the table. *)
Lemma insert_company_existing name industry area db :
  name_taken name (session db) = true ->
  exists id rest,
    map c_id (rows_named name (session db)) = id :: rest
    /\ insert_company name industry area db
       = (mk (session db) (session db) (companies_id_seq db + 1)
             (vacancies_id_seq db) rest,
          Returned id).
Proof.
  intros Htaken.
  destruct (map c_id (rows_named name (session db))) as [|id rest] eqn:Hids.
  - apply name_taken_rows in Htaken. apply map_eq_nil in Hids. contradiction.
  - exists id, rest. split; [reflexivity|].
    unfold insert_company, execute_insert_company, commit, fetchone,
      execute_select_company_id, first_column, bind, modify, ret.
    cbn. rewrite Htaken. cbn. unfold rows_named in Hids. rewrite Hids.
    reflexivity.
Qed.

(** [insert_company] when the name is new. *)
Lemma insert_company_new name industry area db :
  name_taken name (session db) = false ->
  let tb :=
    mk_tables
      (companies (session db)
         ++ [mk_company_row (companies_id_seq db) name industry area])
      (vacancies (session db)) in
  insert_company name industry area db
  = (mk tb tb (companies_id_seq db + 1) (vacancies_id_seq db) [],
     Returned (companies_id_seq db)).
Proof.
  intros Hfree.
  unfold insert_company, execute_insert_company, commit, fetchone, bind,
    modify, ret.
  cbn. rewrite Hfree. reflexivity.
Qed.

End DBFacts.


Module BulkFacts.

Import DBManager.

Lemma execute_insert_vacancy_run r db :
  execute_insert_vacancy r db
  = (mk (mk_tables (companies (session db))
                   (upsert_rows (vacancies (session db))
                                (vacancies_id_seq db) [r]))
        (committed db) (companies_id_seq db) (vacancies_id_seq db + 1) [],
     Returned tt).
Proof.
  unfold execute_insert_vacancy, modify, url_taken. cbn [upsert_rows].
  destruct (existsb (fun v => v_url v =? vt_url r) (vacancies (session db)));
    [| reflexivity].
  now destruct (session db).
Qed.

(** The batch never raises; it runs the statement row by row. *)
Lemma executemany_run rows :
  forall db,
    exists cur,
      executemany_insert_vacancy rows db
      = (mk (mk_tables (companies (session db))
                       (upsert_rows (vacancies (session db))
                                    (vacancies_id_seq db) rows))
            (committed db) (companies_id_seq db)
            (vacancies_id_seq db + Z.of_nat (List.length rows)) cur,
         Returned tt).
Proof.
  unfold executemany_insert_vacancy.
  induction rows as [|r rows IH]; intros db.
  - exists (cursor db). cbn. rewrite Z.add_0_r.
    now destruct db as [[? ?] ? ? ? ?].
  - cbn [for_each]. unfold bind at 1. rewrite execute_insert_vacancy_run.
    match goal with
    | |- context [for_each rows _ ?d] => destruct (IH d) as (cur & Hrun)
    end.
    exists cur. rewrite Hrun.
    cbn [session committed companies_id_seq vacancies_id_seq upsert_rows
         List.length companies vacancies].
    do 2 f_equal. lia.
Qed.

Lemma insert_vacancies_bulk_run rows db :
  exists cur,
    insert_vacancies_bulk rows db
    = (let tb := mk_tables (companies (session db))
                           (upsert_rows (vacancies (session db))
                                        (vacancies_id_seq db) rows) in
       mk tb tb (companies_id_seq db)
          (vacancies_id_seq db + Z.of_nat (List.length rows)) cur,
       Returned tt).
Proof.
  destruct (executemany_run rows db) as (cur & Hrun).
  exists cur. unfold insert_vacancies_bulk, bind. rewrite Hrun. reflexivity.
Qed.

(** Rows are only ever appended, and only for urls that were free. *)
Lemma upsert_rows_appends rows :
  forall vs next,
    exists added,
      upsert_rows vs next rows = (vs ++ added)%list
      /\ forall v, In v added ->
           existsb (fun v' => v_url v' =? v_url v) vs = false
           /\ exists id r, In r rows /\ v = row_of_tuple id r.
Proof.
  induction rows as [|r rows IH]; intros vs next.
  - exists []. cbn. rewrite app_nil_r. split; [reflexivity | contradiction].
  - cbn [upsert_rows].
    destruct (existsb (fun v => v_url v =? vt_url r) vs) eqn:Htaken.
    + destruct (IH vs (next + 1)%Z) as (added & Heq & Hadded).
      exists added. split; [exact Heq|].
      intros v Hv. destruct (Hadded v Hv) as (Hfree & id & r' & Hr' & Hv').
      split; [assumption | exists id, r'; split; [now right | assumption]].
    + destruct (IH (vs ++ [row_of_tuple next r])%list (next + 1)%Z)
        as (added & Heq & Hadded).
      exists (row_of_tuple next r :: added). split.
      * rewrite Heq, <- app_assoc. reflexivity.
      * intros v [<- | Hv].
        -- split; [exact Htaken | exists next, r; split; [now left | reflexivity]].
        -- destruct (Hadded v Hv) as (Hfree & id & r' & Hr' & Hv').
           rewrite existsb_app in Hfree. apply orb_false_iff in Hfree.
           split; [tauto | exists id, r'; split; [now right | assumption]].
Qed.


(** After the batch, every url of the batch is in the table. *)
Lemma upsert_rows_covers rows :
  forall vs next r,
    In r rows ->
    existsb (fun v => v_url v =? vt_url r) (upsert_rows vs next rows) = true.
Proof.
  assert (Hmono : forall rows vs next u,
             existsb (fun v => v_url v =? u) vs = true ->
             existsb (fun v => v_url v =? u) (upsert_rows vs next rows) = true).
  { intros rows' vs next u Hu.
    destruct (upsert_rows_appends rows' vs next) as (added & -> & _).
    rewrite existsb_app, Hu. reflexivity. }
  induction rows as [|r0 rows IH]; intros vs next r Hin; [contradiction|].
  cbn [upsert_rows]. destruct Hin as [-> | Hin]; [| now apply IH].
  apply Hmono.
  destruct (existsb (fun v => v_url v =? vt_url r) vs) eqn:Htaken;
    [exact Htaken|].
  rewrite existsb_app. cbn. rewrite String.eqb_refl.
  now rewrite orb_true_r.
Qed.

(** A batch all of whose urls are in the table changes nothing. *)
Lemma upsert_rows_skips rows :
  forall vs next,
    (forall r, In r rows ->
       existsb (fun v => v_url v =? vt_url r) vs = true) ->
    upsert_rows vs next rows = vs.
Proof.
  induction rows as [|r rows IH]; intros vs next Hall; [reflexivity|].
  cbn [upsert_rows]. rewrite (Hall r (or_introl eq_refl)).
  apply IH. intros r' Hr'. apply Hall. now right.
Qed.

End BulkFacts.


(** * The coordinator *)

Section CoordinatorFacts.

Context {R : Type} `{Repository R}.

(** The loop over the vacancies of one company: it does not touch the
    repository and does not raise. *)
Lemma collect_vacancies_run id vacancies :
  forall acc (w : world R),
    collect_vacancies id vacancies acc w
    = (mk_world (db_manager w)
         (stdout w ++ map vacancy_line (map (vacancy_data id) vacancies)),
       Returned (acc ++ map (vacancy_data id) vacancies)%list).
Proof.
  induction vacancies as [|v vs IH]; intros acc w.
  - cbn. rewrite !app_nil_r. now destruct w.
  - cbn [collect_vacancies]. unfold bind, print, modify. rewrite IH.
    cbn [db_manager stdout map]. rewrite <- !app_assoc. reflexivity.
Qed.

(** What the body of the [try] does, by how the task of the company
    ended. *)
Lemma persist_company_raised fw e c (w : world R) :
  persist_company (fw, Raised e) c w = (w, Raised e).
Proof. reflexivity. Qed.

Lemma persist_company_empty fw c (w : world R) :
  persist_company (fw, Returned []) c w = (w, Returned tt).
Proof. reflexivity. Qed.

Lemma persist_company_nonempty fw v vs c (w : world R) :
  persist_company (fw, Returned (v :: vs)) c w
  = match insert_company (company_name c) (company_industry c)
            (company_area c) (db_manager w) with
    | (db1, Raised e) => (mk_world db1 (stdout w), Raised e)
    | (db1, Returned id) =>
        let rows := map (vacancy_data id) (v :: vs) in
        match insert_vacancies_bulk rows db1 with
        | (db2, res) =>
            (mk_world db2 (stdout w ++ map vacancy_line rows), res)
        end
    end.
Proof.
  unfold persist_company, bind at 1, future_result. cbn [snd].
  unfold bind at 1, on_db at 1.
  destruct (insert_company (company_name c) (company_industry c)
              (company_area c) (db_manager w)) as [db1 [id | e]];
    [| reflexivity].
  unfold bind. rewrite collect_vacancies_run. unfold on_db.
  cbn [db_manager stdout app].
  destruct (insert_vacancies_bulk (map (vacancy_data id) (v :: vs)) db1).
  reflexivity.
Qed.

(** No exception leaves one round of the loop. *)
Lemma handle_future_returns fc (w : world R) :
  result_of (handle_future fc w) = Returned tt.
Proof.
  unfold handle_future, try_except, result_of.
  destruct (persist_company (fst fc) (snd fc) w) as [w' [[] | e]];
    reflexivity.
Qed.

Lemma for_each_handle_returns l :
  forall w : world R, result_of (for_each l handle_future w) = Returned tt.
Proof.
  induction l as [|fc l IH]; intros w; [reflexivity|].
  cbn [for_each]. unfold bind.
  pose proof (handle_future_returns fc w) as Hfc. unfold result_of in Hfc.
  destruct (handle_future fc w) as [w' r]. cbn in Hfc. subst r. apply IH.
Qed.

(** The rounds of the loop follow one another: each starts in the world the
    previous one left, whether or not that one caught an exception. *)
Lemma for_each_handle_app l1 l2 :
  forall w : world R,
    for_each (l1 ++ l2) handle_future w
    = for_each l2 handle_future (world_after (for_each l1 handle_future w)).
Proof.
  induction l1 as [|fc l1 IH]; intros w; [reflexivity|].
  cbn [for_each app]. unfold bind.
  pose proof (handle_future_returns fc w) as Hfc. unfold result_of in Hfc.
  destruct (handle_future fc w) as [w' r]. cbn in Hfc. subst r. apply IH.
Qed.

Lemma run_is_loop (t : transport) (cs : list company) :
  get_all_vacancies_for_companies t cs
  = for_each (submit_all t cs) handle_future.
Proof. destruct cs; reflexivity. Qed.

Lemma submit_all_app t cs1 cs2 :
  submit_all t (cs1 ++ cs2) = (submit_all t cs1 ++ submit_all t cs2)%list.
Proof. apply map_app. Qed.

(** A round whose task raised: the repository is as before, the report is
    printed. *)
Lemma handle_future_raised fw e c (w : world R) :
  handle_future ((fw, Raised e), c) w
  = (mk_world (db_manager w) (stdout w ++ [error_line c e]), Returned tt).
Proof. reflexivity. Qed.

(** A round whose task returned no vacancy: nothing happens. *)
Lemma handle_future_empty fw c (w : world R) :
  handle_future ((fw, Returned []), c) w = (w, Returned tt).
Proof. reflexivity. Qed.

(** What has been printed has no influence on what a round does to the
    repository, nor on what it prints. *)
Lemma handle_future_stdout fc db out :
  handle_future fc (mk_world db out)
  = (mk_world (db_manager (world_after (handle_future fc (mk_world db []))))
       (out ++ stdout (world_after (handle_future fc (mk_world db [])))),
     Returned tt).
Proof.
  destruct fc as [[fw [[|v vs] | e]] c].
  - rewrite !handle_future_empty. cbn. now rewrite app_nil_r.
  - unfold handle_future, try_except, world_after. cbn [fst snd].
    rewrite !persist_company_nonempty. cbn [db_manager stdout].
    destruct (insert_company (company_name c) (company_industry c)
                (company_area c) db) as [db1 [id | e]].
    + cbv zeta.
      destruct (insert_vacancies_bulk (map (vacancy_data id) (v :: vs)) db1)
        as [db2 [[] | e]];
        unfold print, modify; cbn [fst db_manager stdout app];
        rewrite ?app_assoc; reflexivity.
    + unfold print, modify. cbn [fst db_manager stdout app]. reflexivity.
  - rewrite !handle_future_raised. reflexivity.
Qed.

Lemma for_each_handle_stdout l :
  forall db out,
    db_manager (world_after (for_each l handle_future (mk_world db out)))
    = db_manager (world_after (for_each l handle_future (mk_world db []))).
Proof.
  induction l as [|fc l IH]; intros db out; [reflexivity|].
  cbn [for_each]. unfold bind.
  rewrite (handle_future_stdout fc db out).
  pose proof (handle_future_returns fc (mk_world db [])) as Hfc.
  unfold result_of, world_after in *.
  destruct (handle_future fc (mk_world db [])) as [w' r].
  cbn in Hfc. subst r. cbn [fst]. destruct w' as [db' out'].
  cbn [db_manager stdout]. rewrite IH. symmetry. apply IH.
Qed.

Lemma for_each_handle_stdout_incl l :
  forall (w : world R) line,
    In line (stdout w) ->
    In line (stdout (world_after (for_each l handle_future w))).
Proof.
  induction l as [|fc l IH]; intros w line Hin; [exact Hin|].
  cbn [for_each]. unfold bind.
  destruct w as [db out]. rewrite (handle_future_stdout fc db out).
  apply IH. cbn [stdout]. apply in_or_app. now left.
Qed.

End CoordinatorFacts.

(** * The coordinator on [DBManager] *)

Module IngestFacts.

(** [DBManager.insert_company] always returns; the id it returns is that of a row
    with the given name; it adds at most that row, and commits. *)
Lemma insert_company_spec name industry area db :
  exists id db1 extra,
    DBManager.insert_company name industry area db = (db1, Returned id)
    /\ DBManager.session db1
       = mk_tables (companies (DBManager.session db) ++ extra) (vacancies (DBManager.session db))
    /\ DBManager.committed db1 = DBManager.session db1
    /\ exists row,
         In row (companies (DBManager.session db1)) /\ c_id row = id /\ c_name row = name.
Proof.
  destruct (DBManager.name_taken name (DBManager.session db)) eqn:Htaken.
  - destruct (DBFacts.insert_company_existing name industry area db Htaken)
      as (id & rest & Hids & Hrun).
    exists id, (DBManager.mk (DBManager.session db) (DBManager.session db) (DBManager.companies_id_seq db + 1)
                   (DBManager.vacancies_id_seq db) rest), [].
    split; [exact Hrun|]. cbn [DBManager.session DBManager.committed]. rewrite app_nil_r.
    split; [now destruct (DBManager.session db) | split; [reflexivity|]].
    unfold rows_named in Hids.
    destruct (filter (fun c => c_name c =? name) (companies (DBManager.session db)))
      as [|row rows] eqn:Hrows; [discriminate|].
    injection Hids as Hid _.
    assert (Hin : In row (filter (fun c => c_name c =? name)
                            (companies (DBManager.session db))))
      by (rewrite Hrows; now left).
    apply filter_In in Hin. destruct Hin as (Hin & Hname).
    exists row. split; [exact Hin | split; [exact Hid|]].
    now apply String.eqb_eq.
  - pose proof (DBFacts.insert_company_new name industry area db Htaken)
      as Hrun. cbv zeta in Hrun.
    eexists _, _, [mk_company_row (DBManager.companies_id_seq db) name industry area].
    split; [exact Hrun|]. cbn [DBManager.session DBManager.committed companies].
    split; [reflexivity | split; [reflexivity|]].
    eexists. split; [apply in_or_app; right; left; reflexivity|].
    split; reflexivity.
Qed.

Lemma references_more_companies cs extra vs :
  references_hold (mk_tables cs vs) ->
  references_hold (mk_tables (cs ++ extra) vs).
Proof.
  intros Href v Hv. destruct (Href v Hv) as (c & Hc & Hid).
  exists c. split; [| exact Hid]. cbn in *. apply in_or_app. now left.
Qed.

Lemma references_upsert cs vs next rows :
  references_hold (mk_tables cs vs) ->
  (forall r, In r rows -> exists c, In c cs /\ c_id c = vt_company_id r) ->
  references_hold (mk_tables cs (upsert_rows vs next rows)).
Proof.
  intros Href Hrows v Hv. cbn [vacancies companies] in *.
  destruct (BulkFacts.upsert_rows_appends rows vs next)
    as (added & Heq & Hadded).
  rewrite Heq in Hv. apply in_app_or in Hv. destruct Hv as [Hv | Hv].
  - exact (Href v Hv).
  - destruct (Hadded v Hv) as (_ & id & r & Hr & ->).
    exact (Hrows r Hr).
Qed.

Lemma firstn_In {A} n (l : list A) x : In x (firstn n l) -> In x l.
Proof.
  revert l. induction n as [|n IH]; intros [|a l]; cbn; try tauto.
  intros [-> | Hin]; [now left | right; now apply IH].
Qed.

Lemma integrity_insert_company name industry area db :
  integrity db ->
  integrity (world_after (DBManager.insert_company name industry area db)).
Proof.
  intros (Hs & _).
  destruct (insert_company_spec name industry area db)
    as (id & db1 & extra & Hrun & Hsession & Hcommitted & _).
  rewrite Hrun. unfold world_after, integrity. cbn [fst].
  rewrite Hcommitted, Hsession.
  assert (references_hold
            (mk_tables (companies (DBManager.session db) ++ extra)
                       (vacancies (DBManager.session db)))).
  { apply references_more_companies. now destruct (DBManager.session db). }
  split; assumption.
Qed.

(** The rows of a company's batch, after its [DBManager.insert_company]. *)
Lemma integrity_rows name industry area db db1 id rows :
  integrity db ->
  DBManager.insert_company name industry area db = (db1, Returned id) ->
  (forall r, In r rows -> vt_company_id r = id) ->
  integrity (world_after (DBManager.executemany_insert_vacancy rows db1))
  /\ integrity (world_after (DBManager.insert_vacancies_bulk rows db1)).
Proof.
  intros Hint Hrun Hrows.
  pose proof (integrity_insert_company name industry area db Hint) as Hint1.
  destruct (insert_company_spec name industry area db)
    as (id' & db1' & extra & Hrun' & Hsession & Hcommitted & row & Hrow & Hid & _).
  rewrite Hrun in Hrun'. injection Hrun' as <- <-.
  rewrite Hrun in Hint1. unfold world_after in Hint1. cbn [fst] in Hint1.
  destruct Hint1 as (Hs1 & Hc1).
  assert (Hup : references_hold
                  (mk_tables (companies (DBManager.session db1))
                     (upsert_rows (vacancies (DBManager.session db1))
                        (DBManager.vacancies_id_seq db1) rows))).
  { apply references_upsert; [now destruct (DBManager.session db1)|].
    intros r Hr. exists row. split; [exact Hrow|].
    rewrite (Hrows r Hr). exact Hid. }
  split.
  - destruct (BulkFacts.executemany_run rows db1) as (cur & Hmany).
    rewrite Hmany. split; [exact Hup | exact Hc1].
  - destruct (BulkFacts.insert_vacancies_bulk_run rows db1) as (cur & Hbulk).
    rewrite Hbulk. split; exact Hup.
Qed.

(** One round of the loop on [DBManager], by how the task ended. *)
Lemma handle_future_db fw v vs c db out :
  exists id db1,
    DBManager.insert_company (company_name c) (company_industry c) (company_area c) db
    = (db1, Returned id)
    /\ handle_future ((fw, Returned (v :: vs)), c) (mk_world db out)
       = (mk_world
            (world_after
               (DBManager.insert_vacancies_bulk (map (vacancy_data id) (v :: vs)) db1))
            (out ++ map vacancy_line (map (vacancy_data id) (v :: vs))),
          Returned tt).
Proof.
  destruct (insert_company_spec (company_name c) (company_industry c)
              (company_area c) db) as (id & db1 & extra & Hrun & _).
  exists id, db1. split; [exact Hrun|].
  unfold handle_future, try_except. cbn [fst snd].
  rewrite persist_company_nonempty. cbn [db_manager stdout].
  cbn [insert_company insert_vacancies_bulk DBManager_Repository].
  rewrite Hrun. cbv zeta.
  destruct (BulkFacts.insert_vacancies_bulk_run
              (map (vacancy_data id) (v :: vs)) db1) as (cur & Hbulk).
  rewrite Hbulk. reflexivity.
Qed.

Lemma vacancy_data_company id vs r :
  In r (map (vacancy_data id) vs) -> vt_company_id r = id.
Proof.
  intros Hin. apply in_map_iff in Hin. destruct Hin as (v & <- & _).
  reflexivity.
Qed.

Lemma integrity_handle_future fc db out :
  integrity db ->
  integrity (db_manager (world_after (handle_future fc (mk_world db out)))).
Proof.
  intros Hint. destruct fc as [[fw [[|v vs] | e]] c].
  - exact Hint.
  - destruct (handle_future_db fw v vs c db out) as (id & db1 & Hrun & Hstep).
    unfold future in *. rewrite Hstep.
    unfold world_after at 1. cbn [fst db_manager].
    eapply integrity_rows; [exact Hint | exact Hrun |].
    intros r. apply vacancy_data_company.
  - exact Hint.
Qed.

Lemma integrity_reachable db : reachable db -> integrity db.
Proof.
  induction 1 as [| db fc out _ IH | db c _ IH | db db1 c id vs n _ IH Hrun].
  - split; intros v [].
  - now apply integrity_handle_future.
  - now apply integrity_insert_company.
  - eapply integrity_rows; [exact IH | exact Hrun |].
    intros r Hr. apply firstn_In in Hr. revert Hr. apply vacancy_data_company.
Qed.

(** What a round has put into the tables stays there in later rounds. *)
Lemma name_taken_app name cs extra vs vs' :
  DBManager.name_taken name (mk_tables cs vs) = true ->
  DBManager.name_taken name (mk_tables (cs ++ extra) vs') = true.
Proof.
  unfold DBManager.name_taken. cbn [companies]. intros Htaken.
  now rewrite existsb_app, Htaken.
Qed.

Lemma url_taken_upsert url cs cs' vs next rows :
  DBManager.url_taken url (mk_tables cs vs) = true ->
  DBManager.url_taken url (mk_tables cs' (upsert_rows vs next rows)) = true.
Proof.
  unfold DBManager.url_taken. cbn [vacancies]. intros Htaken.
  destruct (BulkFacts.upsert_rows_appends rows vs next) as (added & -> & _).
  now rewrite existsb_app, Htaken.
Qed.

(** The tables after a round whose task returned vacancies. *)
Lemma handle_future_tables fw v vs c db out :
  exists id extra next,
    let db2 :=
      db_manager
        (world_after
           (handle_future ((fw, Returned (v :: vs)), c) (mk_world db out))) in
    DBManager.session db2
    = mk_tables
        (companies (DBManager.session db) ++ extra)
        (upsert_rows (vacancies (DBManager.session db)) next
           (map (vacancy_data id) (v :: vs)))
    /\ DBManager.committed db2 = DBManager.session db2
    /\ exists row, In row (companies (DBManager.session db) ++ extra)
                   /\ c_name row = company_name c.
Proof.
  destruct (handle_future_db fw v vs c db out) as (id & db1 & Hrun & Hstep).
  destruct (insert_company_spec (company_name c) (company_industry c)
              (company_area c) db)
    as (id' & db1' & extra & Hrun' & Hsession & Hcommitted & row & Hrow & _ & Hname).
  rewrite Hrun in Hrun'. injection Hrun' as <- <-.
  exists id, extra, (DBManager.vacancies_id_seq db1). cbv zeta.
  rewrite Hstep. unfold world_after. cbn [fst db_manager].
  destruct (BulkFacts.insert_vacancies_bulk_run
              (map (vacancy_data id) (v :: vs)) db1) as (cur & Hbulk).
  rewrite Hbulk. cbv zeta. cbn [fst DBManager.session DBManager.committed].
  rewrite Hsession. cbn [companies vacancies].
  split; [reflexivity | split; [reflexivity|]].
  exists row. rewrite Hsession in Hrow. split; [exact Hrow | exact Hname].
Qed.

Lemma has_company_handle_future name fc db out :
  has_company name db ->
  has_company name
    (db_manager (world_after (handle_future fc (mk_world db out)))).
Proof.
  intros Hhas. destruct fc as [[fw [[|v vs] | e]] c]; try exact Hhas.
  destruct (handle_future_tables fw v vs c db out)
    as (id & extra & next & Hsession & Hcommitted & _).
  cbv zeta in Hsession, Hcommitted. unfold future in *.
  unfold has_company. rewrite Hcommitted, Hsession.
  destruct Hhas as (Hs & _).
  assert (DBManager.name_taken name
            (mk_tables (companies (DBManager.session db))
                       (vacancies (DBManager.session db))) = true)
    by now destruct (DBManager.session db).
  split; eapply name_taken_app; eassumption.
Qed.

Lemma has_url_handle_future url fc db out :
  has_url url db ->
  has_url url (db_manager (world_after (handle_future fc (mk_world db out)))).
Proof.
  intros Hhas. destruct fc as [[fw [[|v vs] | e]] c]; try exact Hhas.
  destruct (handle_future_tables fw v vs c db out)
    as (id & extra & next & Hsession & Hcommitted & _).
  cbv zeta in Hsession, Hcommitted. unfold future in *.
  unfold has_url. rewrite Hcommitted, Hsession.
  destruct Hhas as (Hs & _).
  assert (DBManager.url_taken url
            (mk_tables (companies (DBManager.session db))
                       (vacancies (DBManager.session db))) = true)
    by now destruct (DBManager.session db).
  split; eapply url_taken_upsert; eassumption.
Qed.

(** A round whose task returned vacancies commits the company and a row
    for each url of the vacancies. *)
Lemma handle_future_persists fw v vs c db out :
  let db2 :=
    db_manager
      (world_after
         (handle_future ((fw, Returned (v :: vs)), c) (mk_world db out))) in
  has_company (company_name c) db2
  /\ forall v', In v' (v :: vs) ->
       has_url (get_or (raw_alternate_url v') "Нет ссылки") db2.
Proof.
  destruct (handle_future_tables fw v vs c db out)
    as (id & extra & next & Hsession & Hcommitted & row & Hrow & Hname).
  cbv zeta in *. unfold has_company, has_url.
  rewrite Hcommitted, Hsession. split.
  - assert (DBManager.name_taken (company_name c)
              (mk_tables (companies (DBManager.session db) ++ extra)
                 (upsert_rows (vacancies (DBManager.session db)) next
                    (map (vacancy_data id) (v :: vs)))) = true).
    { unfold DBManager.name_taken. cbn [companies].
      apply existsb_exists. exists row. split; [exact Hrow|].
      now apply String.eqb_eq. }
    split; assumption.
  - intros v' Hv'.
    assert (DBManager.url_taken (get_or (raw_alternate_url v') "Нет ссылки")
              (mk_tables (companies (DBManager.session db) ++ extra)
                 (upsert_rows (vacancies (DBManager.session db)) next
                    (map (vacancy_data id) (v :: vs)))) = true).
    { unfold DBManager.url_taken. cbn [vacancies].
      apply (BulkFacts.upsert_rows_covers _ _ _ (vacancy_data id v')).
      now apply in_map. }
    split; assumption.
Qed.

(** The uniqueness of company names, too, holds in every reachable
    state. *)
Lemma names_unique_insert_company name industry area db :
  names_unique (DBManager.session db) ->
  let db1 := world_after (DBManager.insert_company name industry area db) in
  names_unique (DBManager.session db1)
  /\ names_unique (DBManager.committed db1).
Proof.
  intros Huniq. cbv zeta.
  destruct (DBManager.name_taken name (DBManager.session db)) eqn:Htaken.
  - destruct (DBFacts.insert_company_existing name industry area db Htaken)
      as (id & rest & _ & Hrun).
    rewrite Hrun. split; exact Huniq.
  - pose proof (DBFacts.insert_company_new name industry area db Htaken)
      as Hrun. cbv zeta in Hrun. rewrite Hrun.
    assert (Hnew : names_unique
                     (mk_tables
                        (companies (DBManager.session db)
                           ++ [mk_company_row (DBManager.companies_id_seq db)
                                 name industry area])
                        (vacancies (DBManager.session db)))).
    { unfold names_unique in *. cbn [companies]. rewrite map_app.
      cbn [map c_name]. apply NoDup_app; [exact Huniq | |].
      - constructor; [intros [] | constructor].
      - intros n Hin [<- | []].
        apply in_map_iff in Hin. destruct Hin as (c & Hname & Hc).
        unfold DBManager.name_taken in Htaken.
        assert (existsb (fun c0 => c_name c0 =? name)
                        (companies (DBManager.session db)) = true).
        { apply existsb_exists. exists c. split; [exact Hc|].
          now apply String.eqb_eq. }
        congruence. }
    split; exact Hnew.
Qed.

Lemma names_unique_rows rows db :
  names_unique (DBManager.session db) ->
  names_unique (DBManager.committed db) ->
  (names_unique
     (DBManager.session
        (world_after (DBManager.executemany_insert_vacancy rows db)))
   /\ names_unique
        (DBManager.committed
           (world_after (DBManager.executemany_insert_vacancy rows db))))
  /\ (names_unique
        (DBManager.session
           (world_after (DBManager.insert_vacancies_bulk rows db)))
      /\ names_unique
           (DBManager.committed
              (world_after (DBManager.insert_vacancies_bulk rows db)))).
Proof.
  intros Hs Hc.
  destruct (BulkFacts.executemany_run rows db) as (cur & Hmany).
  destruct (BulkFacts.insert_vacancies_bulk_run rows db) as (cur' & Hbulk).
  rewrite Hmany, Hbulk. repeat split; assumption.
Qed.

Lemma names_unique_reachable db :
  reachable db ->
  names_unique (DBManager.session db) /\ names_unique (DBManager.committed db).
Proof.
  induction 1 as [| db fc out _ IH | db c _ IH | db db1 c id vs n _ IH Hrun].
  - split; constructor.
  - destruct fc as [[fw [[|v vs] | e]] c]; try exact IH.
    destruct (handle_future_db fw v vs c db out) as (id & db1 & Hrun & Hstep).
    unfold future in *. rewrite Hstep. unfold world_after at 1 3.
    cbn [fst db_manager].
    pose proof (names_unique_insert_company (company_name c)
                  (company_industry c) (company_area c) db (proj1 IH)) as H1.
    cbv zeta in H1. rewrite Hrun in H1.
    exact (proj2 (names_unique_rows _ db1 (proj1 H1) (proj2 H1))).
  - now apply names_unique_insert_company.
  - pose proof (names_unique_insert_company (company_name c)
                  (company_industry c) (company_area c) db (proj1 IH)) as H1.
    cbv zeta in H1. rewrite Hrun in H1.
    exact (proj1 (names_unique_rows _ db1 (proj1 H1) (proj2 H1))).
Qed.

Lemma for_each_handle_keeps (P : DBManager.t -> Prop) :
  (forall fc db out,
      P db -> P (db_manager (world_after (handle_future fc (mk_world db out))))) ->
  forall l (w : world DBManager.t),
    P (db_manager w) ->
    P (db_manager (world_after (for_each l handle_future w))).
Proof.
  intros Hstep. induction l as [|fc l IH]; intros w Hw; [exact Hw|].
  cbn [for_each]. unfold bind.
  pose proof (handle_future_returns fc w) as Hret.
  pose proof (Hstep fc (db_manager w) (stdout w) Hw) as Hnext.
  replace (mk_world (db_manager w) (stdout w)) with w in Hnext
    by now destruct w.
  unfold result_of, world_after in *.
  destruct (handle_future fc w) as [w' r]. cbn [fst snd] in *. subst r.
  now apply IH.
Qed.

End IngestFacts.

(** What holds of the rounds of the loop, whatever repository the
    coordinator is given: the run over a list of companies returns without
    an exception; when the round of one company raises, in the fetch or in
    the repository, the exception is caught there, the report naming the
    company is printed, and the companies after it are handled from the
    world that round left; when it is the fetch that raised, the repository
    ends as in a run without that company.  On [DBManager], whose
    statements do not fail, every company of the list whose fetch returned
    vacancies has its name and the urls of its vacancies committed at the
    end. *)
Lemma round_exceptions_are_caught :
  (forall (R : Type) (HR : Repository R) (t : transport)
          (before after : list company) (b : company) (w : world R),
      result_of (get_all_vacancies_for_companies t (before ++ b :: after)%list w) = Returned tt
      /\ (forall e wb,
             persist_company (submit t (company_id b) 5) b
               (world_after (get_all_vacancies_for_companies t before w)) = (wb, Raised e) ->
             get_all_vacancies_for_companies t (before ++ b :: after)%list w
             = get_all_vacancies_for_companies t after
                 (mk_world (db_manager wb) (stdout wb ++ [error_line b e])%list)
             /\ In (error_line b e)
                   (stdout (world_after (get_all_vacancies_for_companies t (before ++ b :: after)%list w))))
      /\ (forall e,
             result_of (submit t (company_id b) 5) = Raised e ->
             db_manager (world_after (get_all_vacancies_for_companies t (before ++ b :: after)%list w))
             = db_manager (world_after (get_all_vacancies_for_companies t (before ++ after)%list w))))
  /\ (forall (t : transport) (cs : list company) (w : world DBManager.t)
             (c : company) (v : raw_vacancy) (vs : list raw_vacancy),
         In c cs ->
         result_of (submit t (company_id c) 5) = Returned (v :: vs) ->
         let final :=
           db_manager (world_after (get_all_vacancies_for_companies t cs w)) in
         has_company (company_name c) final
         /\ forall v', In v' (v :: vs) ->
              has_url (get_or (raw_alternate_url v') "Нет ссылки") final).
Proof.
  split.
  - intros R HR t before after b w.
    rewrite !run_is_loop.
    assert (Hcaught : forall e wb,
               persist_company (submit t (company_id b) 5) b
                 (world_after (for_each (submit_all t before) handle_future w))
               = (wb, Raised e) ->
               for_each (submit_all t (before ++ b :: after)%list) handle_future w
               = for_each (submit_all t after) handle_future
                   (mk_world (db_manager wb) (stdout wb ++ [error_line b e])%list)).
    { intros e wb Hraise.
      rewrite submit_all_app, for_each_handle_app.
      cbn [submit_all map for_each]. unfold bind at 1, handle_future at 1.
      unfold try_except. cbn [fst snd]. rewrite Hraise. reflexivity. }
    split; [apply for_each_handle_returns | split].
    + intros e wb Hraise. split; [now apply Hcaught|].
      rewrite (Hcaught e wb Hraise).
      apply for_each_handle_stdout_incl. cbn [stdout].
      apply in_or_app. right. now left.
    + intros e Hfetch. unfold result_of in Hfetch.
      destruct (submit t (company_id b) 5) as [fw res] eqn:Hsubmit.
      cbn [snd] in Hfetch. subst res.
      rewrite (Hcaught e _ (persist_company_raised fw e b _)).
      rewrite submit_all_app, (for_each_handle_app (submit_all t before)).
      destruct (world_after (for_each (submit_all t before) handle_future w))
        as [db out]. cbn [db_manager stdout].
      rewrite for_each_handle_stdout. symmetry. apply for_each_handle_stdout.
  - intros t cs w c v vs Hin Hfetch final. subst final.
    rewrite run_is_loop.
    apply in_split in Hin. destruct Hin as (before & after & ->).
    rewrite submit_all_app, for_each_handle_app.
    cbn [submit_all map for_each]. unfold bind.
    unfold result_of in Hfetch.
    destruct (submit t (company_id c) 5) as [fw res] eqn:Hsubmit.
    cbn [snd] in Hfetch. subst res.
    match goal with
    | |- context [handle_future _ ?w0] => set (w1 := w0)
    end.
    pose proof (IngestFacts.handle_future_persists fw v vs c (db_manager w1)
                  (stdout w1)) as Hnow.
    cbv zeta in Hnow.
    replace (mk_world (db_manager w1) (stdout w1)) with w1 in Hnow
      by now destruct w1.
    pose proof (handle_future_returns ((fw, Returned (v :: vs)), c) w1) as Hret.
    unfold result_of, world_after in Hnow, Hret. unfold future in *.
    destruct (handle_future ((fw, Returned (v :: vs)), c) w1) as [w2 r].
    cbn [fst snd] in Hnow, Hret. subst r. destruct Hnow as (Hcompany & Hurls).
    split.
    + apply (IngestFacts.for_each_handle_keeps
               (has_company (company_name c))); [| exact Hcompany].
      intros fc db out. apply IngestFacts.has_company_handle_future.
    + intros v' Hv'.
      apply (IngestFacts.for_each_handle_keeps
               (has_url (get_or (raw_alternate_url v') "Нет ссылки")));
        [| now apply Hurls].
      intros fc db out. apply IngestFacts.has_url_handle_future.
Qed.

(** C7. Whatever repository the coordinator is given: the round of a
    company whose fetch returned no vacancy leaves the world as it found
    it, so that a run with that company equals the run without it; with a
    recording repository, the round adds no call to the record. *)
Theorem empty_fetch_persists_nothing :
  forall (R : Type) (HR : Repository R) (t : transport) (c : company),
    result_of (submit t (company_id c) 5) = Returned [] ->
    (forall w : world R,
        handle_future (submit t (company_id c) 5, c) w = (w, Returned tt))
    /\ (forall (before after : list company) (w : world R),
           get_all_vacancies_for_companies t (before ++ c :: after)%list w
           = get_all_vacancies_for_companies t (before ++ after)%list w)
    /\ (forall w : world (recording R),
           calls (db_manager
                    (world_after
                       (handle_future (submit t (company_id c) 5, c) w)))
           = calls (db_manager w)).
Proof.
  intros R HR t c Hfetch. unfold result_of in Hfetch.
  destruct (submit t (company_id c) 5) as [fw res] eqn:Hsubmit.
  cbn [snd] in Hfetch. subst res.
  split; [| split].
  - intros w. apply handle_future_empty.
  - intros before after w. rewrite !run_is_loop, !submit_all_app.
    rewrite !for_each_handle_app. cbn [submit_all map for_each].
    rewrite Hsubmit. unfold bind at 1. rewrite handle_future_empty.
    reflexivity.
  - intros w. rewrite handle_future_empty. reflexivity.
Qed.

(** C8. With a recording repository, the calls that one round of the loop
    makes are: none; or an [insert_company] for the round's company that
    raised, and nothing after it; or an [insert_company] for the round's
    company that returned an id, followed by one [insert_vacancies_bulk]
    all of whose rows carry that id.  On [DBManager], every vacancy row of
    a reachable state refers to the id of a company row, in the session's
    tables and in the committed ones, and a run keeps this true from any
    state in which it holds. *)
Theorem vacancies_reference_their_company :
  (forall (R : Type) (HR : Repository R) (fc : future * company)
          (w : world (recording R)),
      let before := calls (db_manager w) in
      let after := calls (db_manager (world_after (handle_future fc w))) in
      let c := snd fc in
      after = before
      \/ (exists e,
             after
             = (before
                  ++ [InsertCompany (company_name c) (company_industry c)
                        (company_area c) (Raised e)])%list)
      \/ (exists id rows res,
             after
             = (before
                  ++ [InsertCompany (company_name c) (company_industry c)
                        (company_area c) (Returned id);
                      InsertVacanciesBulk rows res])%list
             /\ forall r, In r rows -> vt_company_id r = id))
  /\ (forall db : DBManager.t, reachable db -> integrity db)
  /\ (forall (t : transport) (cs : list company) (w : world DBManager.t),
         integrity (db_manager w) ->
         integrity
           (db_manager (world_after (get_all_vacancies_for_companies t cs w)))).
Proof.
  split; [| split].
  - intros R HR [[fw [[|v vs] | e]] c] w; cbv zeta; cbn [snd].
    + left. rewrite handle_future_empty. reflexivity.
    + right. unfold handle_future, try_except, world_after. cbn [fst snd].
      rewrite persist_company_nonempty.
      cbn [insert_company insert_vacancies_bulk recording_Repository].
      destruct (insert_company (company_name c) (company_industry c)
                  (company_area c) (inner (db_manager w))) as [db1 [id | e]].
      * right. cbv zeta. cbn [inner calls].
        destruct (insert_vacancies_bulk (map (vacancy_data id) (v :: vs)) db1)
          as [db2 res] eqn:Hbulk.
        exists id, (map (vacancy_data id) (v :: vs)), res. split.
        -- destruct res as [[] | e]; cbn [fst db_manager calls];
             rewrite <- app_assoc; reflexivity.
        -- intros r. apply IngestFacts.vacancy_data_company.
      * left. exists e. reflexivity.
    + left. rewrite handle_future_raised. reflexivity.
  - exact IngestFacts.integrity_reachable.
  - intros t cs w Hint. rewrite run_is_loop.
    apply (IngestFacts.for_each_handle_keeps integrity); [| exact Hint].
    intros fc db out. apply IngestFacts.integrity_handle_future.
Qed.

(** * Average salary *)

Module AverageFacts.

Lemma sum_Q_app xs ys : (sum_Q (xs ++ ys) == sum_Q xs + sum_Q ys)%Q.
Proof.
  unfold sum_Q. induction xs as [|x xs IH]; cbn [app fold_right].
  - ring.
  - rewrite IH. ring.
Qed.



(** One round of the inner loop of [calculate_average_salary]. *)
Lemma add_salary_counted acc vacancy :
  HhApi.add_salary acc vacancy
  = if counted vacancy
    then ((fst acc + salary_value vacancy)%Q, S (snd acc))
    else acc.
Proof.
  destruct acc as [total count].
  unfold HhApi.add_salary, counted, salary_value. cbn [fst snd].
  destruct (raw_salary vacancy) as [[[a|] [b|]]|]; cbn; try reflexivity;
    unfold HhApi.or_zero, HhApi.truthy;
    repeat match goal with
      | |- context [(?x =? 0)%Z] => destruct (Z.eqb_spec x 0); subst; cbn
      end;
    try reflexivity; try contradiction.
Qed.

Lemma fold_add_salary l :
  forall acc,
    (fst (fold_left HhApi.add_salary l acc)
     == fst acc + sum_Q (map salary_value (filter counted l)))%Q
    /\ snd (fold_left HhApi.add_salary l acc)
       = (snd acc + List.length (filter counted l))%nat.
Proof.
  induction l as [|x l IH]; intros acc; cbn [fold_left filter].
  - cbn. split; [ring | lia].
  - destruct (IH (HhApi.add_salary acc x)) as (Hsum & Hcount).
    rewrite Hsum, Hcount, add_salary_counted.
    destruct (counted x); cbn [fst snd map sum_Q fold_right List.length].
    + fold (sum_Q (map salary_value (filter counted l))).
      split; [ring | lia].
    + split; [reflexivity | reflexivity].
Qed.

Lemma salary_totals_counted v :
  (fst (HhApi.salary_totals v)
   == sum_Q (map salary_value (filter counted (all_vacancies v))))%Q
  /\ snd (HhApi.salary_totals v)
     = List.length (filter counted (all_vacancies v)).
Proof.
  unfold HhApi.salary_totals, all_vacancies.
  assert (Hgen : forall acc,
             (fst (fold_left
                     (fun acc entry =>
                        fold_left HhApi.add_salary
                          (snd (B:=list raw_vacancy) (A:=string) entry) acc)
                     v acc)
              == fst acc
                 + sum_Q (map salary_value
                            (filter counted (flat_map snd v))))%Q
             /\ snd (fold_left
                       (fun acc entry =>
                          fold_left HhApi.add_salary
                            (snd (B:=list raw_vacancy) (A:=string) entry) acc)
                       v acc)
                = (snd acc
                   + List.length (filter counted (flat_map snd v)))%nat).
  { induction v as [|[name l] v IH]; intros acc; cbn [fold_left flat_map snd].
    - cbn. split; [ring | lia].
    - destruct (IH (fold_left HhApi.add_salary l acc)) as (Hsum & Hcount).
      destruct (fold_add_salary l acc) as (Hsum' & Hcount').
      rewrite Hsum, Hcount, Hsum', Hcount'.
      rewrite filter_app, map_app, length_app.
      split; [| lia].
      rewrite sum_Q_app. ring. }
  destruct (Hgen (0%Q, O)) as (Hsum & Hcount). cbn [fst snd] in *.
  split; [rewrite Hsum; ring | rewrite Hcount; reflexivity].
Qed.

End AverageFacts.



(** * Keyword search *)

Module KeywordFacts.

Lemma prefix_spec a :
  forall b, prefix a b = true <-> exists rest, b = a ++ rest.
Proof.
  induction a as [|c a IH]; intros b.
  - split; [intros _; now exists b | intros _; now destruct b].
  - destruct b as [|d b]; cbn.
    + split; [discriminate | intros (rest & Hrest); discriminate].
    + destruct (ascii_dec c d) as [-> | Hne].
      * rewrite IH. split; intros (rest & Hrest); exists rest.
        -- now rewrite Hrest.
        -- now injection Hrest.
      * split; [discriminate|].
        intros (rest & Hrest). injection Hrest as Hd _. congruence.
Qed.

(** [in] on strings finds exactly the occurrences. *)
Lemma str_in_spec needle :
  forall haystack,
    str_in needle haystack = true <-> occurs_in needle haystack.
Proof.
  unfold occurs_in.
  induction haystack as [|c h IH].
  - cbn [str_in]. rewrite orb_false_r, prefix_spec. split.
    + intros (rest & Hrest). now exists "", rest.
    + intros ([|d before] & rest & Hrest); [now exists rest | discriminate].
  - cbn [str_in]. rewrite orb_true_iff, prefix_spec, IH. split.
    + intros [(rest & Hrest) | (before & rest & Hrest)].
      * now exists "", rest.
      * exists (String c before), rest. cbn. now rewrite Hrest.
    + intros ([|d before] & rest & Hrest).
      * left. now exists rest.
      * right. injection Hrest as _ Hrest. now exists before, rest.
Qed.

Section Search.

Variable lower : string -> string.

(** The list built for one company holds exactly the vacancies whose title,
    in lower case, has the keyword in it. *)
Lemma matching_spec keyword vacancies vacancy :
  In vacancy (HhApi.matching lower keyword vacancies)
  <-> In vacancy vacancies
      /\ occurs_in keyword (lower (get_or (raw_name vacancy) "")).
Proof.
  unfold HhApi.matching. rewrite filter_In, str_in_spec. reflexivity.
Qed.

(** The first loop of [search_vacancies_by_keyword]. *)
Lemma search_vacancies_by_keyword_spec v keyword :
  HhApi.search_vacancies_by_keyword lower v keyword
  = (map (fun entry =>
            (fst entry, HhApi.matching lower (lower keyword) (snd entry))) v,
     List.length
       (flat_map (fun entry =>
                    HhApi.matching lower (lower keyword) (snd entry)) v)).
Proof.
  unfold HhApi.search_vacancies_by_keyword.
  assert (Hgen : forall acc,
             fold_left
               (fun acc entry =>
                  let found :=
                    HhApi.matching lower (lower keyword)
                      (snd (A:=string) entry) in
                  ((fst acc ++ [(fst entry, found)])%list,
                   (snd acc + List.length found)%nat))
               v acc
             = ((fst acc
                   ++ map (fun entry =>
                             (fst entry,
                              HhApi.matching lower (lower keyword) (snd entry)))
                        v)%list,
                (snd acc
                 + List.length
                     (flat_map (fun entry =>
                                  HhApi.matching lower (lower keyword)
                                    (snd entry)) v))%nat)).
  { induction v as [|entry v IH]; intros [dict total].
    - cbn. now rewrite app_nil_r, Nat.add_0_r.
    - cbn [fold_left map flat_map fst snd]. rewrite IH. cbn [fst snd].
      rewrite <- app_assoc, length_app, Nat.add_assoc. reflexivity. }
  exact (Hgen ([], O)).
Qed.

End Search.

(** LIKE on patterns without special characters. *)

Lemma like_any_step p s :
  like_match (AnySequence :: p) s
  = like_match p s
    || match s with
       | EmptyString => false
       | String _ s' => like_match (AnySequence :: p) s'
       end.
Proof. destruct s; reflexivity. Qed.

Lemma like_any_spec p :
  forall s,
    like_match (AnySequence :: p) s = true
    <-> exists before rest, s = before ++ rest /\ like_match p rest = true.
Proof.
  induction s as [|c s IH]; rewrite like_any_step, orb_true_iff.
  - split.
    + intros [Hp | Hfalse]; [now exists "", "" | discriminate].
    + intros ([|d before] & rest & Hs & Hp); [| discriminate].
      left. cbn in Hs. now subst rest.
  - rewrite IH. split.
    + intros [Hp | (before & rest & Hs & Hp)].
      * now exists "", (String c s).
      * exists (String c before), rest. cbn. now rewrite Hs.
    + intros ([|d before] & rest & Hs & Hp).
      * left. cbn in Hs. now subst rest.
      * right. injection Hs as _ Hs. now exists before, rest.
Qed.

Lemma like_literals_spec k p :
  forall s,
    like_match (literals k ++ p) s = true
    <-> exists rest, s = k ++ rest /\ like_match p rest = true.
Proof.
  induction k as [|c k IH]; intros s; cbn [literals app].
  - split; [intros Hp; now exists s | now intros (rest & -> & Hp)].
  - destruct s as [|d s]; cbn [like_match].
    + split; [discriminate | intros (rest & Hs & _); discriminate].
    + rewrite andb_true_iff, IH, Ascii.eqb_eq. split.
      * intros (-> & rest & -> & Hp). now exists rest.
      * intros (rest & Hs & Hp). injection Hs as -> ->. split; eauto.
Qed.

Lemma like_any_all s : like_match [AnySequence] s = true.
Proof.
  apply like_any_spec. exists s, "". split; [| reflexivity].
  induction s as [|c s IH]; cbn; [reflexivity | now rewrite <- IH].
Qed.

Lemma like_contains k s :
  like_match (AnySequence :: literals k ++ [AnySequence]) s = str_in k s.
Proof.
  assert (Hiff : like_match (AnySequence :: literals k ++ [AnySequence]) s
                 = true <-> str_in k s = true).
  { rewrite str_in_spec, like_any_spec. unfold occurs_in. split.
    - intros (before & rest & -> & Hrest).
      apply like_literals_spec in Hrest. destruct Hrest as (rest' & -> & _).
      now exists before, rest'.
    - intros (before & rest & ->).
      exists before, (k ++ rest). split; [reflexivity|].
      apply like_literals_spec. exists rest. split; [reflexivity|].
      apply like_any_all. }
  destruct (like_match _ s), (str_in k s); try reflexivity.
  - symmetry. now apply Hiff.
  - now apply Hiff.
Qed.

Lemma like_tokens_plain k :
  plain k = true ->
  like_tokens (k ++ "%") = Some (literals k ++ [AnySequence])%list.
Proof.
  induction k as [|c k IH]; intros Hplain; [reflexivity|].
  cbn [plain] in Hplain. apply andb_true_iff in Hplain.
  destruct Hplain as (Hc & Hk). specialize (IH Hk).
  cbn [append literals app].
  destruct c as [[] [] [] [] [] [] [] []];
    try discriminate Hc; cbn [like_tokens]; rewrite IH; reflexivity.
Qed.

Lemma ascii_lower_app a b :
  ascii_lower (a ++ b) = ascii_lower a ++ ascii_lower b.
Proof. induction a as [|c a IH]; cbn; [reflexivity | now rewrite IH]. Qed.

Lemma plain_ascii_lower k : plain k = true -> plain (ascii_lower k) = true.
Proof.
  induction k as [|c k IH]; intros Hplain; [reflexivity|].
  cbn [plain] in Hplain. apply andb_true_iff in Hplain.
  destruct Hplain as (Hc & Hk). cbn [ascii_lower plain].
  rewrite (IH Hk), andb_true_r.
  destruct c as [[] [] [] [] [] [] [] []];
    try discriminate Hc; reflexivity.
Qed.

(** For a keyword without [%], [_] and backslash, the query lists exactly
    the joined rows whose title, in lower case, has the keyword, in lower
    case, in it. *)
Lemma get_vacancies_with_keyword_plain keyword db :
  plain keyword = true ->
  result_of (DBManager.get_vacancies_with_keyword ascii_lower keyword db)
  = Returned
      (map DBManager.select_listing
         (filter
            (fun vc =>
               str_in (ascii_lower keyword) (ascii_lower (v_title (fst vc))))
            (DBManager.join_companies (DBManager.session db)))).
Proof.
  intros Hplain. unfold DBManager.get_vacancies_with_keyword.
  rewrite ascii_lower_app. cbn [ascii_lower append].
  change (lower_ascii "%") with "%"%char. cbn [like_tokens].
  rewrite ascii_lower_app. cbn [ascii_lower].
  change (lower_ascii "%") with "%"%char.
  rewrite (like_tokens_plain _ (plain_ascii_lower _ Hplain)).
  cbn [option_map result_of snd]. do 2 f_equal.
  apply filter_ext. intros vc. apply like_contains.
Qed.

(** The same for any case mapping that maps the pattern [%keyword%] to
    [%], the keyword in lower case, [%]. *)
Lemma get_vacancies_with_keyword_folded lower keyword db :
  lower ("%" ++ keyword ++ "%") = "%" ++ lower keyword ++ "%" ->
  plain (lower keyword) = true ->
  result_of (DBManager.get_vacancies_with_keyword lower keyword db)
  = Returned
      (map DBManager.select_listing
         (filter
            (fun vc => str_in (lower keyword) (lower (v_title (fst vc))))
            (DBManager.join_companies (DBManager.session db)))).
Proof.
  intros Hfold Hplain. unfold DBManager.get_vacancies_with_keyword.
  rewrite Hfold. cbn [append like_tokens].
  rewrite (like_tokens_plain _ Hplain).
  cbn [option_map result_of snd]. do 2 f_equal.
  apply filter_ext. intros vc. apply like_contains.
Qed.

End KeywordFacts.

(** C9, on [get_vacancies_with_keyword].  With the keyword [_] the query
    returns the vacancy titled [Analyst], and [_] does not occur in
    [analyst]. *)
Theorem underscore_keyword_matches_any_title :
  result_of (DBManager.get_vacancies_with_keyword ascii_lower "_" acme_db)
  = Returned [("Analyst", Some 1000%Z, None, sample_url 7, "Acme")]
  /\ str_in (ascii_lower "_") (ascii_lower "Analyst") = false
  /\ ~ occurs_in (ascii_lower "_") (ascii_lower "Analyst").
Proof.
  split; [reflexivity | split; [reflexivity|]].
  intros Hocc. apply KeywordFacts.str_in_spec in Hocc. discriminate Hocc.
Qed.

(** * The theorems on sample data *)

Lemma two_page_transport_serves i :
  i <= 1 -> serves two_page_transport (Some "1") i (two_pages i).
Proof.
  intros Hi. destruct i as [|[|i]]; [| | lia];
    eexists; split; reflexivity.
Defined.

(** Two pages, the second one short: two requests, 102 vacancies. *)
Lemma fetch_until_first_short_page_sample :
  get_vacancies_for_company two_page_transport (Some "1") 5 fresh_fetch_world
  = (mk_fetch_world
       (sent fresh_fetch_world ++ map (page_request (Some "1")) (seq 0 (1 + 1)))
       (fetch_stdout fresh_fetch_world),
     Returned (pages_concat two_pages (1 + 1))).
Proof.
  apply (fetch_until_first_short_page two_page_transport (Some "1") 5 1
           two_pages fresh_fetch_world).
  - lia.
  - exact two_page_transport_serves.
  - intros i Hi. assert (i = 0) as -> by lia. vm_compute. lia.
  - vm_compute. lia.
Defined.

Lemma refusing_transport_refuses :
  refuses refusing_transport (Some "1") 1 503.
Proof. split; [discriminate | eexists; reflexivity]. Defined.

(** A full page, then status 503: two requests, the 100 vacancies of the
    first page, and the status printed. *)
Lemma refused_page_ends_pagination_sample :
  (forall q,
      In (page_request (Some "1") q)
         (sent (world_after
                  (get_vacancies_for_company refusing_transport (Some "1") 5
                     fresh_fetch_world))) ->
      q <= 1)
  /\ get_vacancies_for_company refusing_transport (Some "1") 5
       fresh_fetch_world
     = (mk_fetch_world
          (sent fresh_fetch_world
             ++ map (page_request (Some "1")) (seq 0 (1 + 1)))
          (fetch_stdout fresh_fetch_world ++ [status_line 503]),
        Returned (pages_concat two_pages 1)).
Proof.
  destruct (refused_page_ends_pagination refusing_transport (Some "1") 5 1 503
              two_pages refusing_transport_refuses) as (Hbound & Hrun).
  split; [exact Hbound|].
  apply Hrun.
  - lia.
  - intros i Hi. assert (i = 0) as -> by lia. split.
    + eexists. split; reflexivity.
    + vm_compute. lia.
Defined.




(** Three companies, the fetch of the second one fails; and a connection
    that is lost after the two calls for the first company. *)
Lemma round_exceptions_are_caught_sample :
  db_manager
    (world_after
       (get_all_vacancies_for_companies flaky_transport [acme; broken; globex]
          (mk_world DBManager.empty [])))
  = db_manager
      (world_after
         (get_all_vacancies_for_companies flaky_transport [acme; globex]
            (mk_world DBManager.empty [])))
  /\ In (error_line unlucky connection_lost)
        (stdout
           (world_after
              (get_all_vacancies_for_companies flaky_transport
                 [acme; unlucky; globex]
                 (mk_world (mk_lossy 2 DBManager.empty) []))))
  /\ has_company "Globex"
       (db_manager
          (world_after
             (get_all_vacancies_for_companies flaky_transport
                [acme; broken; globex] (mk_world DBManager.empty []))))
  /\ has_url (sample_url 101)
       (db_manager
          (world_after
             (get_all_vacancies_for_companies flaky_transport
                [acme; broken; globex] (mk_world DBManager.empty [])))).
Proof.
  destruct round_exceptions_are_caught as (Hany & Hdb).
  destruct (Hany DBManager.t _ flaky_transport [acme] [globex] broken
              (mk_world DBManager.empty [])) as (_ & _ & Hfetch).
  destruct (Hany lossy _ flaky_transport [acme] [globex] unlucky
              (mk_world (mk_lossy 2 DBManager.empty) [])) as (_ & Hcaught & _).
  edestruct Hcaught as (_ & Hreport); [lazy; reflexivity|].
  destruct (Hdb flaky_transport [acme; broken; globex]
              (mk_world DBManager.empty []) globex
              (sample_vacancy 100) [sample_vacancy 101]) as (Hcompany & Hurls).
  - right. right. left. reflexivity.
  - reflexivity.
  - split; [| split; [| split]].
    + apply (Hfetch (PyExc "ConnectionError" "connection refused")).
      reflexivity.
    + exact Hreport.
    + exact Hcompany.
    + apply (Hurls (sample_vacancy 101)). right. left. reflexivity.
Defined.

(** Three companies, the second one without vacancies. *)
Lemma empty_fetch_persists_nothing_sample :
  get_all_vacancies_for_companies flaky_transport [acme; idle; globex]
    (mk_world DBManager.empty [])
  = get_all_vacancies_for_companies flaky_transport [acme; globex]
      (mk_world DBManager.empty []).
Proof.
  destruct (empty_fetch_persists_nothing DBManager.t _ flaky_transport idle)
    as (_ & Hrun & _).
  - reflexivity.
  - apply (Hrun [acme] [globex]).
Defined.

Lemma acme_integrity : integrity acme_db.
Proof.
  split; intros v [<- | []]; eexists; (split; [left; reflexivity | reflexivity]).
Defined.

(** A state after one round from the empty database, and a run from a
    database with rows. *)
Lemma vacancies_reference_their_company_sample :
  integrity
    (db_manager
       (world_after
          (handle_future (submit flaky_transport "1" 5, acme)
             (mk_world DBManager.empty []))))
  /\ integrity
       (db_manager
          (world_after
             (get_all_vacancies_for_companies flaky_transport
                [broken; globex] (mk_world acme_db [])))).
Proof.
  destruct vacancies_reference_their_company as (_ & Hreach & Hrun).
  split.
  - apply Hreach. apply reach_round. apply reach_empty.
  - apply Hrun. exact acme_integrity.
Defined.


(** * More on pagination *)

(** The page of [params] is set anew in each round; the rounds depend on
    its other keys only. *)
Lemma fetch_pages_params t url p q todo acc w :
  employer_id p = employer_id q -> per_page p = per_page q ->
  fetch_pages t url p todo acc w = fetch_pages t url q todo acc w.
Proof.
  intros He Hp. destruct todo as [|n rest]; [reflexivity|].
  cbn [fetch_pages]. unfold set_page. rewrite He, Hp. reflexivity.
Qed.

Section FullPages.

Variable t : transport.
Variable url : string.

(** The loop after [k] full pages. *)
Lemma fetch_pages_skip_full its k :
  forall s len p acc w,
    (forall i, i < k ->
       exists d, t url (set_page p (s + i)) = Answers (mk_response 200 (Some d))
                 /\ data_items d = its (s + i)
                 /\ 100 <= List.length (its (s + i))) ->
    fetch_pages t url p (seq s (k + len)) acc w
    = fetch_pages t url p (seq (s + k) len)
        (acc ++ List.concat (map its (seq s k)))%list
        (mk_fetch_world
           (sent w ++ map (fun n => (url, set_page p n)) (seq s k))%list
           (fetch_stdout w)).
Proof.
  induction k as [|k IH]; intros s len p acc w Hfull.
  - cbn. rewrite !app_nil_r, Nat.add_0_r. now destruct w.
  - destruct (Hfull 0 ltac:(lia)) as (d & Ht & Hd & Hl).
    rewrite Nat.add_0_r in Ht, Hd, Hl.
    cbn [Nat.add seq fetch_pages]. unfold bind at 1, requests_get. rewrite Ht.
    cbn [status_code Nat.eqb response_json body]. unfold bind at 1, ret at 1.
    rewrite Hd. apply Nat.ltb_ge in Hl. rewrite Hl.
    rewrite (IH (S s) len (set_page p s)).
    + cbn [sent fetch_stdout map List.concat seq].
      replace (S s + k) with (s + S k) by lia.
      rewrite <- !app_assoc. cbn [app].
      apply fetch_pages_params; reflexivity.
    + intros i Hi. rewrite set_page_twice.
      replace (S s + i) with (s + S i) by lia. apply Hfull. lia.
Qed.

End FullPages.

(** The fetch after [k] full pages, from page [k] on. *)
Lemma get_vacancies_after_full t company_id its k len w :
  (forall i, i < k ->
     serves t company_id i (its i) /\ 100 <= List.length (its i)) ->
  get_vacancies_for_company t company_id (k + len) w
  = fetch_pages t (BASE_URL ++ "vacancies") (initial_params company_id)
      (seq k len) (pages_concat its k)
      (mk_fetch_world
         (sent w ++ map (page_request company_id) (seq 0 k))%list
         (fetch_stdout w)).
Proof.
  intros Hfull. unfold get_vacancies_for_company. cbv zeta.
  rewrite (fetch_pages_skip_full t _ its k 0 len); [reflexivity|].
  intros i Hi. destruct (Hfull i Hi) as ((d & Ht & Hd) & Hl).
  exists d. cbn [Nat.add]. split; [exact Ht | split; assumption].
Qed.

Lemma fetch_pages_consecutive t url p0 :
  forall len s acc w,
    exists m,
      m <= len
      /\ (0 < len -> 0 < m)
      /\ sent (fst (fetch_pages t url p0 (seq s len) acc w))
         = (sent w ++ map (fun n => (url, set_page p0 n)) (seq s m))%list
      /\ forall i, S i < m ->
           exists d,
             t url (set_page p0 (s + i)) = Answers (mk_response 200 (Some d))
             /\ 100 <= List.length (data_items d).
Proof.
  induction len as [|len IH]; intros s acc w.
  - exists 0. cbn. rewrite app_nil_r.
    repeat split; lia.
  - cbn [seq fetch_pages]. unfold bind at 1, requests_get.
    assert (Hone : forall (r : fetch_world * outcome (list raw_vacancy)),
               sent (fst r) = (sent w ++ [(url, set_page p0 s)])%list ->
               exists m,
                 m <= S len /\ (0 < S len -> 0 < m)
                 /\ sent (fst r)
                    = (sent w
                         ++ map (fun n => (url, set_page p0 n)) (seq s m))%list
                 /\ forall i, S i < m ->
                      exists d,
                        t url (set_page p0 (s + i))
                        = Answers (mk_response 200 (Some d))
                        /\ 100 <= List.length (data_items d)).
    { intros r Hr. exists 1. rewrite Hr. cbn.
      repeat split; lia. }
    destruct (t url (set_page p0 s)) as [e | r] eqn:Hs; [now apply Hone|].
    destruct (Nat.eqb (status_code r) 200) eqn:Hcode; [| now apply Hone].
    unfold response_json. destruct (body r) as [d|] eqn:Hbody;
      [| now apply Hone].
    unfold bind at 1, ret at 1.
    destruct (Nat.ltb (List.length (data_items d)) 100) eqn:Hshort;
      [now apply Hone|].
    rewrite (fetch_pages_params t url (set_page p0 s) p0) by reflexivity.
    destruct (IH (S s) (acc ++ data_items d)%list
                (mk_fetch_world (sent w ++ [(url, set_page p0 s)])%list
                                (fetch_stdout w)))
      as (m & Hm & _ & Hsent & Hfull).
    exists (S m). split; [lia | split; [lia | split]].
    + rewrite Hsent. cbn [sent seq map]. rewrite <- app_assoc. reflexivity.
    + intros [|i] Hi.
      * exists d. rewrite Nat.add_0_r. split.
        -- rewrite Hs. destruct r as [code b]. cbn in Hcode, Hbody.
           apply Nat.eqb_eq in Hcode. now subst.
        -- now apply Nat.ltb_ge.
      * replace (s + S i) with (S s + i) by lia. apply Hfull. lia.
Qed.

(** X1. Whatever the transport does, the requests of one fetch are those
    for the pages [0 .. m-1] in this order, for some [m] that is at most
    [pages] and at least [1] when [pages] is; and a page is only followed
    by the next one when it was answered with status 200 and at least 100
    items. *)
Theorem fetch_requests_are_consecutive :
  forall (t : transport) (company_id : option string) (pages : nat)
         (w : fetch_world),
    exists m,
      m <= pages
      /\ (0 < pages -> 0 < m)
      /\ sent (world_after (get_vacancies_for_company t company_id pages w))
         = (sent w ++ map (page_request company_id) (seq 0 m))%list
      /\ forall i, S i < m -> full t company_id i.
Proof.
  intros t cid pages w.
  destruct (fetch_pages_consecutive t (BASE_URL ++ "vacancies")
              (initial_params cid) pages 0 [] w) as (m & Hm & Hpos & Hsent & Hfull).
  exists m. split; [exact Hm | split; [exact Hpos | split]].
  - exact Hsent.
  - intros i Hi. exact (Hfull i Hi).
Qed.

(** X2. When all of the pages [0 .. pages-1] are answered with status 200
    and at least 100 items, the fetch requests each of them once, in order,
    and returns all their items; it stops there, whatever the transport
    would answer for the next page. *)
Theorem full_pages_exhaust_the_range :
  forall (t : transport) (company_id : option string) (pages : nat)
         (its : nat -> list raw_vacancy) (w : fetch_world),
    (forall i, i < pages ->
       serves t company_id i (its i) /\ 100 <= List.length (its i)) ->
    get_vacancies_for_company t company_id pages w
    = (mk_fetch_world
         (sent w ++ map (page_request company_id) (seq 0 pages))%list
         (fetch_stdout w),
       Returned (pages_concat its pages)).
Proof.
  intros t cid pages its w Hfull.
  rewrite <- (Nat.add_0_r pages) at 1.
  rewrite (get_vacancies_after_full t cid its pages 0 w Hfull). reflexivity.
Qed.

(** X3. When the pages before [p] are full and the request for page
    [p < pages] ends in an exception, raised by the transport or by the
    decoding of a body that is not JSON, the fetch raises that exception:
    the items of the pages before [p] are not returned, nothing is printed,
    and no page after [p] is requested. *)
Theorem broken_page_raises :
  forall (t : transport) (company_id : option string) (pages p : nat)
         (its : nat -> list raw_vacancy) (e : py_exception) (w : fetch_world),
    p < pages ->
    (forall i, i < p ->
       serves t company_id i (its i) /\ 100 <= List.length (its i)) ->
    breaks t company_id p e ->
    get_vacancies_for_company t company_id pages w
    = (mk_fetch_world
         (sent w ++ map (page_request company_id) (seq 0 (p + 1)))%list
         (fetch_stdout w),
       Raised e).
Proof.
  intros t cid pages p its e w Hp Hfull Hbreak.
  replace pages with (p + S (pages - S p)) by lia.
  rewrite (get_vacancies_after_full t cid its p _ w Hfull).
  cbn [seq fetch_pages]. unfold bind at 1, requests_get.
  cbn [sent fetch_stdout].
  rewrite Nat.add_1_r, seq_S, map_app, app_assoc. cbn [map Nat.add].
  unfold breaks, page_request in Hbreak. cbn [fst snd] in Hbreak.
  destruct Hbreak as [Ht | (Ht & ->)]; rewrite Ht; reflexivity.
Qed.

Lemma api_pages_same t company_id :
  forall todo p acc w,
    employer_id p = employer_id (initial_params company_id) ->
    per_page p = 100 ->
    api_pages t company_id todo acc w
    = fetch_pages t (BASE_URL ++ "vacancies") p todo acc w.
Proof.
  induction todo as [|n rest IH]; intros p acc w He Hp; [reflexivity|].
  cbn [api_pages fetch_pages].
  assert (Hparams : (if truthy_id company_id
                     then mk_params company_id 100 (Some n)
                     else mk_params None 100 (Some n))
                    = set_page p n).
  { unfold set_page. rewrite He, Hp. unfold initial_params.
    destruct (truthy_id company_id); reflexivity. }
  rewrite Hparams. unfold bind.
  destruct (requests_get t (BASE_URL ++ "vacancies") (set_page p n) w)
    as [w' [r | e]]; [| reflexivity].
  destruct (Nat.eqb (status_code r) 200); [| reflexivity].
  destruct (response_json r w') as [w'' [d | e]]; [| reflexivity].
  destruct (Nat.ltb (List.length (data_items d)) 100); [reflexivity|].
  apply IH; [exact He | exact Hp].
Qed.

(** X4. [get_all_vacancies_from_api] and [get_vacancies_for_company] are
    the same function: for every transport, company id, number of pages
    and world they send the same requests, print the same lines and end
    with the same result. *)
Theorem get_all_vacancies_from_api_same :
  forall (t : transport) (company_id : option string) (pages : nat)
         (w : fetch_world),
    get_all_vacancies_from_api t company_id pages w
    = get_vacancies_for_company t company_id pages w.
Proof.
  intros t cid pages w.
  unfold get_all_vacancies_from_api, get_vacancies_for_company. cbv zeta.
  apply api_pages_same; [reflexivity|].
  unfold initial_params. destruct (truthy_id cid); reflexivity.
Qed.

(** Five pages asked of a transport with a short second page. *)
Lemma fetch_requests_are_consecutive_sample :
  exists m,
    m <= 5
    /\ (0 < 5 -> 0 < m)
    /\ sent (world_after
               (get_vacancies_for_company two_page_transport (Some "1") 5
                  fresh_fetch_world))
       = (sent fresh_fetch_world ++ map (page_request (Some "1")) (seq 0 m))%list
    /\ forall i, S i < m -> full two_page_transport (Some "1") i.
Proof.
  exact (fetch_requests_are_consecutive two_page_transport (Some "1") 5
           fresh_fetch_world).
Defined.

Lemma endless_transport_full i :
  serves endless_transport (Some "1") i full_page
  /\ 100 <= List.length full_page.
Proof.
  split; [eexists; split; reflexivity | vm_compute; lia].
Defined.

(** Three pages asked of a transport whose pages are all full. *)
Lemma full_pages_exhaust_the_range_sample :
  get_vacancies_for_company endless_transport (Some "1") 3 fresh_fetch_world
  = (mk_fetch_world
       (sent fresh_fetch_world ++ map (page_request (Some "1")) (seq 0 3))%list
       (fetch_stdout fresh_fetch_world),
     Returned (pages_concat (fun _ => full_page) 3)).
Proof.
  apply (full_pages_exhaust_the_range endless_transport (Some "1") 3
           (fun _ => full_page) fresh_fetch_world).
  intros i _. apply endless_transport_full.
Defined.

(** A full page, then a connection that is reset. *)
Lemma broken_page_raises_sample :
  get_vacancies_for_company cut_off_transport (Some "1") 5 fresh_fetch_world
  = (mk_fetch_world
       (sent fresh_fetch_world
          ++ map (page_request (Some "1")) (seq 0 (1 + 1)))%list
       (fetch_stdout fresh_fetch_world),
     Raised (PyExc "ConnectionError" "connection reset")).
Proof.
  apply (broken_page_raises cut_off_transport (Some "1") 5 1
           (fun _ => full_page)).
  - lia.
  - intros i Hi. assert (i = 0) as -> by lia.
    split; [eexists; split; reflexivity | vm_compute; lia].
  - left. reflexivity.
Defined.

(** * Consistency of the tables *)

Module ConsistencyFacts.

Lemma tables_consistent_mono tb cseq vseq cseq' vseq' :
  tables_consistent tb cseq vseq ->
  (cseq <= cseq')%Z -> (vseq <= vseq')%Z ->
  tables_consistent tb cseq' vseq'.
Proof.
  intros (Hn & Hi & Hb & Hu & Hv & Hvb) Hc Hv'.
  repeat split; try assumption.
  - intros c Hin. specialize (Hb c Hin). lia.
  - intros v Hin. specialize (Hvb v Hin). lia.
Qed.

Lemma NoDup_snoc {A} (l : list A) (x : A) :
  NoDup l -> ~ In x l -> NoDup (l ++ [x]).
Proof.
  intros Hnd Hnotin. apply NoDup_app; [exact Hnd | |].
  - constructor; [intros [] | constructor].
  - intros y Hy [<- | []]. contradiction.
Qed.

(** A new company row, for a name that is free. *)
Lemma tables_consistent_company tb cseq vseq name industry area :
  tables_consistent tb cseq vseq ->
  DBManager.name_taken name tb = false ->
  tables_consistent
    (mk_tables (companies tb ++ [mk_company_row cseq name industry area])
               (vacancies tb))
    (cseq + 1) vseq.
Proof.
  intros (Hn & Hi & Hb & Hu & Hv & Hvb) Hfree.
  unfold tables_consistent. cbn [companies vacancies].
  rewrite !map_app. cbn [map c_name c_id].
  split; [| split; [| split; [| split; [| split]]]]; try assumption.
  - apply NoDup_snoc; [exact Hn|]. intros Hin.
    apply in_map_iff in Hin. destruct Hin as (c & Hname & Hc).
    assert (DBManager.name_taken name tb = true).
    { apply existsb_exists. exists c. split; [exact Hc|].
      now apply String.eqb_eq. }
    congruence.
  - apply NoDup_snoc; [exact Hi|]. intros Hin.
    apply in_map_iff in Hin. destruct Hin as (c & Hid & Hc).
    specialize (Hb c Hc). lia.
  - intros c Hin. apply in_app_or in Hin. destruct Hin as [Hin | [<- | []]].
    + specialize (Hb c Hin). lia.
    + cbn. lia.
Qed.

(** The rows of a batch. *)
Lemma tables_consistent_rows rows :
  forall cs vs cseq vseq,
    tables_consistent (mk_tables cs vs) cseq vseq ->
    tables_consistent (mk_tables cs (upsert_rows vs vseq rows)) cseq
      (vseq + Z.of_nat (List.length rows)).
Proof.
  induction rows as [|r rows IH]; intros cs vs cseq vseq Hcons.
  - cbn. now rewrite Z.add_0_r.
  - cbn [upsert_rows List.length].
    replace (vseq + Z.of_nat (S (List.length rows)))%Z
      with (vseq + 1 + Z.of_nat (List.length rows))%Z by lia.
    apply IH.
    destruct (existsb (fun v => v_url v =? vt_url r) vs) eqn:Htaken.
    + eapply tables_consistent_mono; [exact Hcons | lia | lia].
    + destruct Hcons as (Hn & Hi & Hb & Hu & Hv & Hvb).
      unfold tables_consistent. cbn [companies vacancies] in *.
      rewrite !map_app. cbn [map row_of_tuple v_url v_id].
      split; [| split; [| split; [| split; [| split]]]]; try assumption.
      * apply NoDup_snoc; [exact Hu|]. intros Hin.
        apply in_map_iff in Hin. destruct Hin as (v & Hurl & Hv').
        assert (existsb (fun v => v_url v =? vt_url r) vs = true).
        { apply existsb_exists. exists v. split; [exact Hv'|].
          now apply String.eqb_eq. }
        congruence.
      * apply NoDup_snoc; [exact Hv|]. intros Hin.
        apply in_map_iff in Hin. destruct Hin as (v & Hid & Hv').
        specialize (Hvb v Hv'). lia.
      * intros v Hin. apply in_app_or in Hin.
        destruct Hin as [Hin | [<- | []]].
        -- specialize (Hvb v Hin). lia.
        -- cbn. lia.
Qed.

Lemma tables_eta tb : mk_tables (companies tb) (vacancies tb) = tb.
Proof. now destruct tb. Qed.

Lemma consistent_insert_company name industry area db :
  consistent db ->
  consistent (world_after (DBManager.insert_company name industry area db)).
Proof.
  intros (Hs & Hc).
  destruct (DBManager.name_taken name (DBManager.session db)) eqn:Htaken.
  - destruct (DBFacts.insert_company_existing name industry area db Htaken)
      as (id & rest & _ & Hrun).
    rewrite Hrun. unfold world_after, consistent.
    cbn [fst DBManager.session DBManager.committed DBManager.companies_id_seq
         DBManager.vacancies_id_seq].
    split; eapply tables_consistent_mono; try exact Hs; lia.
  - pose proof (DBFacts.insert_company_new name industry area db Htaken)
      as Hrun. cbv zeta in Hrun. rewrite Hrun.
    unfold world_after, consistent.
    cbn [fst DBManager.session DBManager.committed DBManager.companies_id_seq
         DBManager.vacancies_id_seq].
    split; now apply tables_consistent_company.
Qed.

Lemma consistent_rows rows db :
  consistent db ->
  consistent (world_after (DBManager.executemany_insert_vacancy rows db))
  /\ consistent (world_after (DBManager.insert_vacancies_bulk rows db)).
Proof.
  intros (Hs & Hc).
  destruct (BulkFacts.executemany_run rows db) as (cur & Hmany).
  destruct (BulkFacts.insert_vacancies_bulk_run rows db) as (cur' & Hbulk).
  rewrite Hmany, Hbulk. cbv zeta. unfold world_after, consistent.
  cbn [fst DBManager.session DBManager.committed DBManager.companies_id_seq
       DBManager.vacancies_id_seq].
  assert (Hnew : tables_consistent
                   (mk_tables (companies (DBManager.session db))
                      (upsert_rows (vacancies (DBManager.session db))
                         (DBManager.vacancies_id_seq db) rows))
                   (DBManager.companies_id_seq db)
                   (DBManager.vacancies_id_seq db
                    + Z.of_nat (List.length rows))).
  { apply tables_consistent_rows. now rewrite tables_eta. }
  assert (Hold : tables_consistent (DBManager.committed db)
                   (DBManager.companies_id_seq db)
                   (DBManager.vacancies_id_seq db
                    + Z.of_nat (List.length rows)))
    by (eapply tables_consistent_mono; [exact Hc | lia | lia]).
  repeat split; try apply Hnew; try apply Hold.
Qed.

Lemma consistent_handle_future fc db out :
  consistent db ->
  consistent (db_manager (world_after (handle_future fc (mk_world db out)))).
Proof.
  intros Hcons. destruct fc as [[fw [[|v vs] | e]] c]; try exact Hcons.
  destruct (IngestFacts.handle_future_db fw v vs c db out)
    as (id & db1 & Hrun & Hstep).
  unfold future in *. rewrite Hstep. unfold world_after at 1.
  cbn [fst db_manager].
  apply consistent_rows.
  pose proof (consistent_insert_company (company_name c) (company_industry c)
                (company_area c) db Hcons) as H1.
  now rewrite Hrun in H1.
Qed.

Lemma consistent_reachable db : reachable db -> consistent db.
Proof.
  induction 1 as [| db fc out _ IH | db c _ IH | db db1 c id vs n _ IH Hrun].
  - unfold consistent, tables_consistent. cbn.
    repeat split; try constructor; intros ? [].
  - now apply consistent_handle_future.
  - now apply consistent_insert_company.
  - apply consistent_rows.
    pose proof (consistent_insert_company (company_name c) (company_industry c)
                  (company_area c) db IH) as H1.
    now rewrite Hrun in H1.
Qed.

End ConsistencyFacts.

(** X5. The keys and the uniqueness constraints hold in every state that
    the coordinator reaches from the empty database, for the session's
    tables and the committed ones: no two companies share a name or an id,
    no two vacancies share a url or an id, and every id is below the
    counter that gives the next one.  A run keeps this true from any state
    in which it holds. *)
Theorem coordinator_keeps_tables_consistent :
  (forall db : DBManager.t, reachable db -> consistent db)
  /\ (forall (t : transport) (cs : list company) (w : world DBManager.t),
         consistent (db_manager w) ->
         consistent
           (db_manager (world_after (get_all_vacancies_for_companies t cs w)))).
Proof.
  split.
  - exact ConsistencyFacts.consistent_reachable.
  - intros t cs w Hcons. rewrite run_is_loop.
    apply (IngestFacts.for_each_handle_keeps consistent); [| exact Hcons].
    intros fc db out. apply ConsistencyFacts.consistent_handle_future.
Qed.

(** * The listing *)

Module ListingFacts.

Lemma filter_unique_id cs :
  NoDup (map c_id cs) ->
  forall c0 id,
    In c0 cs -> c_id c0 = id ->
    filter (fun c => Z.eqb id (c_id c)) cs = [c0]
    /\ find (fun c => Z.eqb id (c_id c)) cs = Some c0.
Proof.
  induction cs as [|c cs IH]; intros Hnd c0 id Hin Hid; [contradiction|].
  cbn [map] in Hnd. inversion Hnd as [|? ? Hnotin Hnd']; subst.
  cbn [filter find]. destruct Hin as [-> | Hin].
  - rewrite Z.eqb_refl. split; [| reflexivity]. f_equal.
    apply filter_none. intros c Hc.
    apply Z.eqb_neq. intros Heq. apply Hnotin. rewrite Heq.
    now apply in_map.
  - destruct (Z.eqb_spec (c_id c0) (c_id c)) as [Heq | Hne].
    + exfalso. apply Hnotin. rewrite <- Heq. now apply in_map.
    + now apply IH.
Qed.

(** With the foreign key and unique company ids, the join has one row for
    each vacancy. *)
Lemma join_listing tb :
  references_hold tb ->
  NoDup (map c_id (companies tb)) ->
  map DBManager.select_listing (DBManager.join_companies tb)
  = map (listing_of tb) (vacancies tb).
Proof.
  intros Href Hnd. unfold DBManager.join_companies.
  assert (Hgen : forall vs,
             (forall v, In v vs -> In v (vacancies tb)) ->
             map DBManager.select_listing
               (flat_map
                  (fun v =>
                     map (fun c => (v, c))
                       (filter (fun c => Z.eqb (v_company_id v) (c_id c))
                               (companies tb))) vs)
             = map (listing_of tb) vs).
  { induction vs as [|v vs IH]; intros Hsub; [reflexivity|].
    cbn [flat_map map]. rewrite map_app, IH by (intros; apply Hsub; now right).
    destruct (Href v (Hsub v (or_introl eq_refl))) as (c & Hc & Hid).
    destruct (filter_unique_id _ Hnd c (v_company_id v) Hc Hid)
      as (Hfilter & Hfind).
    rewrite Hfilter. cbn [map app]. f_equal.
    unfold DBManager.select_listing, listing_of, name_of_company.
    rewrite Hfind. reflexivity. }
  apply Hgen. auto.
Qed.

Lemma name_of_company_found tb v :
  references_hold tb ->
  NoDup (map c_id (companies tb)) ->
  In v (vacancies tb) ->
  exists c,
    In c (companies tb) /\ c_id c = v_company_id v
    /\ name_of_company tb (v_company_id v) = c_name c.
Proof.
  intros Href Hnd Hv. destruct (Href v Hv) as (c & Hc & Hid).
  exists c. split; [exact Hc | split; [exact Hid|]].
  unfold name_of_company.
  now rewrite (proj2 (filter_unique_id _ Hnd c (v_company_id v) Hc Hid)).
Qed.

End ListingFacts.

(** X6. In a database whose vacancies refer to companies and whose company
    ids are unique, as in every state the coordinator reaches,
    [get_all_vacancies] returns one row for each vacancy, in the order of
    the table, with the title, the salary bounds and the url of the vacancy
    and the name of the company that its [company_id] refers to. *)
Theorem get_all_vacancies_lists_each_once :
  forall db : DBManager.t,
    (integrity db /\ consistent db) \/ reachable db ->
    result_of (Reports.get_all_vacancies db)
    = Returned
        (map (listing_of (DBManager.session db))
             (vacancies (DBManager.session db)))
    /\ forall v, In v (vacancies (DBManager.session db)) ->
         exists c,
           In c (companies (DBManager.session db))
           /\ c_id c = v_company_id v
           /\ name_of_company (DBManager.session db) (v_company_id v)
              = c_name c.
Proof.
  intros db Hdb.
  assert (Hboth : integrity db /\ consistent db).
  { destruct Hdb as [Hboth | Hreach]; [exact Hboth|].
    split; [now apply IngestFacts.integrity_reachable
           | now apply ConsistencyFacts.consistent_reachable]. }
  destruct Hboth as ((Href & _) & ((_ & Hids & _) & _)).
  split.
  - unfold Reports.get_all_vacancies, result_of. cbn [snd]. f_equal.
    now apply ListingFacts.join_listing.
  - intros v Hv. now apply ListingFacts.name_of_company_found.
Qed.

(** * From the fetch to the listing *)

Module RoundTripFacts.



End RoundTripFacts.


(** * The companies with the most vacancies *)

Module CountFacts.

Lemma insert_by_count_perm x l :
  Permutation (Reports.insert_by_count x l) (x :: l).
Proof.
  induction l as [|y l IH]; cbn [Reports.insert_by_count]; [reflexivity|].
  destruct (Nat.ltb (snd y) (snd x)); [reflexivity|].
  rewrite IH. apply perm_swap.
Qed.

Lemma order_by_count_perm l :
  Permutation (Reports.order_by_count_desc l) l.
Proof.
  induction l as [|x l IH]; cbn; [reflexivity|].
  rewrite insert_by_count_perm. now constructor.
Qed.

Lemma insert_by_count_sorted x l :
  descending l -> descending (Reports.insert_by_count x l).
Proof.
  unfold descending.
  induction l as [|y l IH]; intros Hs; cbn [Reports.insert_by_count].
  - constructor; constructor.
  - inversion Hs as [|? ? Hs' Hall]; subst.
    destruct (Nat.ltb_spec (snd y) (snd x)) as [Hlt | Hge].
    + constructor; [exact Hs|]. constructor; [lia|].
      eapply Forall_impl; [| exact Hall]. cbn. intros z Hz. lia.
    + constructor; [now apply IH|].
      apply (Permutation_Forall (Permutation_sym (insert_by_count_perm x l))).
      constructor; assumption.
Qed.

Lemma order_by_count_sorted l :
  descending (Reports.order_by_count_desc l).
Proof.
  induction l as [|x l IH]; cbn; [constructor|].
  now apply insert_by_count_sorted.
Qed.

(** The head of a list in descending order, against its tail. *)
Lemma descending_split n l :
  descending l ->
  descending (firstn n l)
  /\ forall x y, In x (firstn n l) -> In y (skipn n l) -> snd y <= snd x.
Proof.
  unfold descending. revert l.
  induction n as [|n IH]; intros l Hs.
  - cbn. split; [constructor | contradiction].
  - destruct l as [|a l]; cbn [firstn skipn].
    + split; [constructor | contradiction].
    + inversion Hs as [|? ? Hs' Hall]; subst.
      destruct (IH l Hs') as (Hhead & Hcut). split.
      * constructor; [exact Hhead|].
        rewrite Forall_forall in *. intros z Hz.
        apply Hall. revert Hz. apply IngestFacts.firstn_In.
      * intros x y [<- | Hx] Hy.
        -- rewrite Forall_forall in Hall. apply Hall.
           rewrite <- (firstn_skipn n l). apply in_or_app. now right.
        -- now apply Hcut.
Qed.

End CountFacts.

(** X8. [get_companies_and_vacancies_count] returns at most ten rows, and
    all companies when there are at most ten; the rows are in descending
    order of the count; together with the companies left out they are the
    companies of the table, each with its name and the number of vacancies
    that refer to it, which is [0] for a company without vacancies; and no
    company left out has more vacancies than one that is returned. *)
Theorem top_companies_by_vacancies :
  forall db : DBManager.t,
    exists rows rest,
      result_of (Reports.get_companies_and_vacancies_count db) = Returned rows
      /\ List.length rows
         = Nat.min 10 (List.length (companies (DBManager.session db)))
      /\ descending rows
      /\ Permutation (rows ++ rest) (company_counts (DBManager.session db))
      /\ forall x y, In x rows -> In y rest -> snd y <= snd x.
Proof.
  intros db.
  set (sorted := Reports.order_by_count_desc
                   (company_counts (DBManager.session db))).
  exists (firstn 10 sorted), (skipn 10 sorted).
  pose proof (CountFacts.order_by_count_perm
                (company_counts (DBManager.session db))) as Hperm.
  fold sorted in Hperm.
  destruct (CountFacts.descending_split 10 sorted
              (CountFacts.order_by_count_sorted _)) as (Hdesc & Hcut).
  split; [reflexivity | split; [| split; [exact Hdesc | split]]].
  - rewrite length_firstn, (Permutation_length Hperm).
    unfold company_counts. now rewrite length_map.
  - rewrite firstn_skipn. exact Hperm.
  - exact Hcut.
Qed.

(** * Above the average *)

Module MeanFacts.






End MeanFacts.


(** * Runs of the coordinator on [DBManager] *)

Module RunFacts.


(** A round leaves nothing uncommitted behind when nothing was before. *)
Lemma handle_future_settled fc db out :
  DBManager.committed db = DBManager.session db ->
  let db' := db_manager (world_after (handle_future fc (mk_world db out))) in
  DBManager.committed db' = DBManager.session db'.
Proof.
  intros Hset. cbv zeta. destruct fc as [[fw [[|v vs] | e]] c]; try exact Hset.
  destruct (IngestFacts.handle_future_tables fw v vs c db out)
    as (id & extra & next & _ & Hcommitted & _).
  exact Hcommitted.
Qed.

Lemma vt_url_vacancy_data id v : vt_url (vacancy_data id v) = stored_url v.
Proof. reflexivity. Qed.

(** After the whole loop, what each task brought is in the database. *)
Lemma for_each_covers l :
  forall (w : world DBManager.t) fc,
    In fc l ->
    covered fc (db_manager (world_after (for_each l handle_future w))).
Proof.
  intros w fc Hin. apply in_split in Hin. destruct Hin as (l1 & l2 & ->).
  rewrite for_each_handle_app. cbn [for_each]. unfold bind.
  set (w1 := world_after (for_each l1 handle_future w)).
  pose proof (handle_future_returns fc w1) as Hret.
  destruct fc as [[fw [[|v vs] | e]] c]; try exact I.
  pose proof (IngestFacts.handle_future_persists fw v vs c (db_manager w1)
                (stdout w1)) as Hnow.
  pose proof (IngestFacts.handle_future_tables fw v vs c (db_manager w1)
                (stdout w1)) as (id & extra & next & _ & Hset & _).
  cbv zeta in Hnow, Hset.
  replace (mk_world (db_manager w1) (stdout w1)) with w1 in Hnow, Hset
    by now destruct w1.
  unfold result_of, world_after in Hnow, Hret, Hset. unfold future in *.
  destruct (handle_future ((fw, Returned (v :: vs)), c) w1) as [w2 r].
  cbn [fst snd] in Hnow, Hret, Hset. subst r.
  destruct Hnow as (Hcompany & Hurls).
  unfold covered. cbn [fst snd]. split; [| split].
  - apply (IngestFacts.for_each_handle_keeps
             (has_company (company_name c))); [| exact Hcompany].
    intros fc db out. apply IngestFacts.has_company_handle_future.
  - intros v' Hv'.
    apply (IngestFacts.for_each_handle_keeps (has_url (stored_url v')));
      [| now apply Hurls].
    intros fc db out. apply IngestFacts.has_url_handle_future.
  - apply (IngestFacts.for_each_handle_keeps
             (fun db => DBManager.committed db = DBManager.session db));
      [| exact Hset].
    intros fc db out. apply handle_future_settled.
Qed.

(** A round whose task brought nothing new changes no table. *)
Lemma handle_future_covered fc db out :
  covered fc db ->
  let db' := db_manager (world_after (handle_future fc (mk_world db out))) in
  DBManager.session db' = DBManager.session db
  /\ DBManager.committed db' = DBManager.committed db.
Proof.
  intros Hcov. cbv zeta.
  destruct fc as [[fw [[|v vs] | e]] c]; try (split; reflexivity).
  unfold covered in Hcov. cbn [fst snd] in Hcov.
  destruct Hcov as ((Hname & _) & Hurls & Hset).
  destruct (IngestFacts.handle_future_db fw v vs c db out)
    as (id & db1 & Hrun & Hstep).
  destruct (DBFacts.insert_company_existing (company_name c)
              (company_industry c) (company_area c) db Hname)
    as (id' & rest & _ & Hrun').
  rewrite Hrun in Hrun'. injection Hrun' as -> ->.
  unfold future in *. rewrite Hstep. unfold world_after at 1 3.
  cbn [fst db_manager].
  destruct (BulkFacts.insert_vacancies_bulk_run
              (map (vacancy_data id') (v :: vs))
              (DBManager.mk (DBManager.session db) (DBManager.session db)
                 (DBManager.companies_id_seq db + 1)
                 (DBManager.vacancies_id_seq db) rest)) as (cur & Hbulk).
  rewrite Hbulk. cbv zeta. unfold world_after.
  cbn [fst DBManager.session DBManager.committed DBManager.vacancies_id_seq].
  rewrite BulkFacts.upsert_rows_skips.
  - rewrite ConsistencyFacts.tables_eta, Hset. split; reflexivity.
  - intros r Hr. apply in_map_iff in Hr. destruct Hr as (v' & <- & Hv').
    rewrite vt_url_vacancy_data. exact (proj1 (Hurls v' Hv')).
Qed.

Lemma covered_same_tables fc db db' :
  DBManager.session db' = DBManager.session db ->
  DBManager.committed db' = DBManager.committed db ->
  covered fc db -> covered fc db'.
Proof.
  intros Hs Hc. unfold covered, has_company, has_url.
  destruct (snd (fst fc)) as [[|v vs] | e]; try exact (fun H => H).
  now rewrite Hs, Hc.
Qed.

(** A loop whose tasks bring nothing new changes no table. *)
Lemma for_each_covered l :
  forall w : world DBManager.t,
    (forall fc, In fc l -> covered fc (db_manager w)) ->
    let db' := db_manager (world_after (for_each l handle_future w)) in
    DBManager.session db' = DBManager.session (db_manager w)
    /\ DBManager.committed db' = DBManager.committed (db_manager w).
Proof.
  induction l as [|fc l IH]; intros w Hcov; cbv zeta; [split; reflexivity|].
  cbn [for_each]. unfold bind.
  pose proof (handle_future_returns fc w) as Hret.
  pose proof (handle_future_covered fc (db_manager w) (stdout w)
                (Hcov fc (or_introl eq_refl))) as Hsame.
  cbv zeta in Hsame.
  replace (mk_world (db_manager w) (stdout w)) with w in Hsame
    by now destruct w.
  unfold result_of, world_after in Hret, Hsame |- *.
  destruct (handle_future fc w) as [w' r]. cbn [fst snd] in *. subst r.
  destruct Hsame as (Hs & Hc).
  destruct (IH w') as (Hs' & Hc').
  - intros fc' Hin. apply (covered_same_tables fc' (db_manager w));
      [exact Hs | exact Hc | apply Hcov; now right].
  - unfold world_after in Hs', Hc'. split; congruence.
Qed.

End RunFacts.

(** X10. Running the coordinator a second time, for the same companies
    with the same answers of the transport, changes no table: the session's
    tables and the committed tables after the second run are those after
    the first. *)
Theorem second_run_changes_no_table :
  forall (t : transport) (cs : list company) (w : world DBManager.t),
    let first := world_after (get_all_vacancies_for_companies t cs w) in
    let second := world_after (get_all_vacancies_for_companies t cs first) in
    DBManager.session (db_manager second) = DBManager.session (db_manager first)
    /\ DBManager.committed (db_manager second)
       = DBManager.committed (db_manager first).
Proof.
  intros t cs w first second. subst second first. rewrite !run_is_loop.
  apply RunFacts.for_each_covered.
  intros fc Hin. now apply RunFacts.for_each_covers.
Qed.


(** * Dictionaries *)

Module DictFacts.

Section Dict.

Context {V : Type}.

Lemma dict_get_In (d : list (string * V)) k v :
  dict_get d k = Some v -> In (k, v) d.
Proof.
  induction d as [|[k' v'] d IH]; cbn; [discriminate|].
  destruct (String.eqb_spec k' k) as [-> | Hne].
  - intros [= ->]. now left.
  - intros Hget. right. now apply IH.
Qed.

Lemma dict_get_None (d : list (string * V)) k :
  dict_get d k = None <-> ~ In k (map fst d).
Proof.
  induction d as [|[k' v'] d IH]; cbn; [tauto|].
  destruct (String.eqb_spec k' k) as [-> | Hne].
  - split; [discriminate | intros Hnot; exfalso; apply Hnot; now left].
  - rewrite IH. tauto.
Qed.


(** Reading after writing. *)
Lemma dict_get_set (d : list (string * V)) k v k' :
  dict_get (dict_set d k v) k'
  = if k =? k' then Some v else dict_get d k'.
Proof.
  induction d as [|[k0 v0] d IH]; cbn [dict_set dict_get].
  - reflexivity.
  - destruct (String.eqb_spec k0 k) as [-> | Hne]; cbn [dict_get].
    + destruct (k =? k'); reflexivity.
    + rewrite IH. destruct (String.eqb_spec k0 k') as [-> | Hne'].
      * destruct (String.eqb_spec k k'); [congruence | reflexivity].
      * reflexivity.
Qed.

(** Writing keeps the keys, in their order, and adds a new one at the
    end. *)
Lemma dict_set_keys (d : list (string * V)) k v :
  map fst (dict_set d k v)
  = if dict_has d k then map fst d else (map fst d ++ [k])%list.
Proof.
  unfold dict_has.
  induction d as [|[k0 v0] d IH]; cbn [dict_set dict_get map fst app].
  - reflexivity.
  - destruct (String.eqb_spec k0 k) as [-> | Hne]; cbn [map fst].
    + reflexivity.
    + rewrite IH. destruct (dict_get d k); reflexivity.
Qed.

Lemma dict_has_In (d : list (string * V)) k :
  dict_has d k = true <-> In k (map fst d).
Proof.
  unfold dict_has. destruct (dict_get d k) eqn:Hget.
  - split; [intros _ | reflexivity].
    apply dict_get_In in Hget. apply in_map_iff. now exists (k, v).
  - split; [discriminate|]. intros Hin.
    apply dict_get_None in Hget. contradiction.
Qed.

Lemma dict_set_NoDup (d : list (string * V)) k v :
  NoDup (map fst d) -> NoDup (map fst (dict_set d k v)).
Proof.
  intros Hnd. rewrite dict_set_keys.
  destruct (dict_has d k) eqn:Hhas; [exact Hnd|].
  apply ConsistencyFacts.NoDup_snoc; [exact Hnd|].
  intros Hin. apply dict_has_In in Hin. congruence.
Qed.

Lemma dict_In_get (d : list (string * V)) k v :
  NoDup (map fst d) -> In (k, v) d -> dict_get d k = Some v.
Proof.
  induction d as [|[k0 v0] d IH]; cbn; intros Hnd Hin; [contradiction|].
  inversion Hnd as [|? ? Hnotin Hnd']; subst.
  destruct Hin as [[= -> ->] | Hin].
  - now rewrite String.eqb_refl.
  - destruct (String.eqb_spec k0 k) as [-> | Hne].
    + exfalso. apply Hnotin. apply in_map_iff. now exists (k, v).
    + now apply IH.
Qed.

End Dict.

End DictFacts.

(** * Fetched vacancies above an average *)

Module HigherFacts.



End HigherFacts.


Module AboveFacts.



Lemma half_zero : (inject_Z 0 / 2 == 0)%Q.
Proof. reflexivity. Qed.







End AboveFacts.


(** * hh_api.py: get_all_vacancies_for_companies *)

Module CollectFacts.

(** One round of the loop over the futures. *)
Lemma collect_future_run d (f : future) name w :
  Fetched.collect_future d (f, name) w
  = match snd f with
    | Raised e =>
        (mk_fetch_world (sent w)
           (fetch_stdout w
              ++ [("Ошибка при получении данных для компании "
                   ++ name ++ ": " ++ exc_str e)%string])%list,
         Returned d)
    | Returned [] => (w, Returned d)
    | Returned (v :: vs) => (w, Returned (dict_set d name (v :: vs)))
    end.
Proof.
  unfold Fetched.collect_future, try_except. cbn [fst snd].
  destruct (snd f) as [[|v vs] | e]; reflexivity.
Qed.

Lemma error_line_text c e :
  ("Ошибка при получении данных для компании "
     ++ company_name c ++ ": " ++ exc_str e)%string
  = error_line c e.
Proof. reflexivity. Qed.

End CollectFacts.

Module LastFacts.

Lemma last_fetched_snoc t done c name :
  last_fetched t (done ++ [c]) name
  = match
      (if company_name c =? name then
         match result_of (submit t (company_id c) 5) with
         | Returned (v :: vs) => Some (v :: vs)
         | _ => None
         end
       else None)
    with
    | Some vacancies => Some vacancies
    | None => last_fetched t done name
    end.
Proof.
  induction done as [|c0 done IH]; cbn [app last_fetched].
  - destruct (company_name c =? name); [| reflexivity].
    destruct (result_of (submit t (company_id c) 5)) as [[|v vs] | e];
      reflexivity.
  - rewrite IH.
    destruct (company_name c =? name); [| reflexivity].
    destruct (result_of (submit t (company_id c) 5)) as [[|v vs] | e];
      reflexivity.
Qed.

Lemma last_fetched_not_empty t cs name :
  last_fetched t cs name <> Some [].
Proof.
  induction cs as [|c cs IH]; cbn [last_fetched]; [discriminate|].
  destruct (last_fetched t cs name) as [l|]; [exact IH|].
  destruct (company_name c =? name); [| discriminate].
  destruct (result_of (submit t (company_id c) 5)) as [[|v vs] | e];
    discriminate.
Qed.

(** The loop over the futures. *)
Lemma collect_futures_last t cs :
  forall done d w,
    NoDup (map fst d) ->
    (forall name, dict_get d name = last_fetched t done name) ->
    exists d',
      Fetched.collect_futures
        (map (fun c => (submit t (company_id c) 5, company_name c)) cs) d w
      = (mk_fetch_world (sent w)
           (fetch_stdout w ++ flat_map (fetch_error_lines t) cs)%list,
         Returned d')
      /\ NoDup (map fst d')
      /\ forall name, dict_get d' name = last_fetched t (done ++ cs) name.
Proof.
  induction cs as [|c cs IH]; intros done d w Hnd Hget.
  - exists d. cbn. rewrite !app_nil_r.
    split; [now destruct w | split; [exact Hnd | exact Hget]].
  - cbn [map Fetched.collect_futures flat_map]. unfold bind.
    rewrite CollectFacts.collect_future_run.
    unfold fetch_error_lines at 1.
    pose proof (last_fetched_snoc t done c) as Hsnoc.
    unfold result_of in *.
    replace (done ++ c :: cs)%list with ((done ++ [c]) ++ cs)%list
      by (rewrite <- app_assoc; reflexivity).
    destruct (snd (submit t (company_id c) 5)) as [[|v vs] | e].
    + apply IH; [exact Hnd|]. intros name. rewrite Hsnoc, Hget.
      destruct (company_name c =? name); reflexivity.
    + apply IH; [now apply DictFacts.dict_set_NoDup|].
      intros name. rewrite Hsnoc, DictFacts.dict_get_set, Hget.
      destruct (company_name c =? name); reflexivity.
    + match goal with
      | |- context [Fetched.collect_futures _ d ?w0] =>
          destruct (IH (done ++ [c])%list d w0 Hnd) as (d' & Hrun & Hd')
      end.
      { intros name. rewrite Hsnoc, Hget.
        destruct (company_name c =? name); reflexivity. }
      exists d'. rewrite Hrun. cbn [sent fetch_stdout].
      rewrite CollectFacts.error_line_text, <- app_assoc.
      split; [reflexivity | exact Hd'].
Qed.

End LastFacts.

(** X15. What [get_all_vacancies_for_companies] of [hh_api.py] returns for
    a list of companies that is not empty: it does not raise, also when
    fetches did; in the dictionary that it returns the keys are distinct,
    no list is empty, and each name has what the last company of the list
    with that name and with vacancies brought, so a later company replaces
    an earlier one of the same name, and a company whose fetch raised or
    brought nothing adds no key. *)
Theorem collected_by_company_name :
  forall (employer_name : raw_vacancy -> outcome string)
         (execution_time : string) (t : transport) (cs : list company)
         (w : fetch_world),
    cs <> [] ->
    exists d,
      result_of
        (Fetched.get_all_vacancies_for_companies employer_name execution_time
           t cs w)
      = Returned d
      /\ NoDup (map fst d)
      /\ (forall name, dict_get d name = last_fetched t cs name)
      /\ forall name vacancies, In (name, vacancies) d -> vacancies <> [].
Proof.
  intros employer_name execution_time t cs w Hne.
  destruct cs as [|c0 cs0]; [contradiction|].
  destruct (LastFacts.collect_futures_last t (c0 :: cs0) [] [] w)
    as (d & Hrun & Hnd & Hget).
  - constructor.
  - reflexivity.
  - exists d. unfold Fetched.get_all_vacancies_for_companies. cbv zeta.
    unfold bind at 1. rewrite Hrun. unfold bind, fetch_print, modify, ret.
    unfold result_of. cbn [snd].
    split; [reflexivity | split; [exact Hnd | split; [exact Hget|]]].
    intros name vacancies Hin Hnil. subst vacancies.
    apply (DictFacts.dict_In_get _ _ _ Hnd) in Hin.
    rewrite Hget in Hin. exact (LastFacts.last_fetched_not_empty _ _ _ Hin).
Qed.

Module GroupFacts.

Section Group.

Variable employer_name : raw_vacancy -> outcome string.
Variable name_of : raw_vacancy -> string.

(** One round of the grouping loop, on the dictionary. *)
Lemma group_round (d : HhApi.vacancies_by_company) n0 v :
  NoDup (map fst d) ->
  let d1 := if dict_has d n0 then d else dict_set d n0 [] in
  let d2 :=
    match dict_get d1 n0 with
    | Some l => dict_set d1 n0 (l ++ [v])%list
    | None => d1
    end in
  NoDup (map fst d2)
  /\ forall name,
       dict_get d2 name
       = if n0 =? name
         then Some (match dict_get d n0 with Some l => l | None => [] end
                      ++ [v])%list
         else dict_get d name.
Proof.
  intros Hnd. cbv zeta. unfold dict_has.
  destruct (dict_get d n0) as [l|] eqn:Hget.
  - rewrite Hget. split; [now apply DictFacts.dict_set_NoDup|].
    intros name. now rewrite DictFacts.dict_get_set.
  - rewrite DictFacts.dict_get_set, String.eqb_refl. split.
    + now apply DictFacts.dict_set_NoDup, DictFacts.dict_set_NoDup.
    + intros name. rewrite !DictFacts.dict_get_set.
      destruct (n0 =? name); reflexivity.
Qed.

Lemma group_by_employer_run l :
  (forall v, In v l -> employer_name v = Returned (name_of v)) ->
  forall d w,
    NoDup (map fst d) ->
    exists d',
      Fetched.group_by_employer employer_name l d w = (w, Returned d')
      /\ NoDup (map fst d')
      /\ forall name,
           dict_get d' name
           = match dict_get d name, of_employer name_of name l with
             | Some before, found => Some (before ++ found)%list
             | None, [] => None
             | None, found => Some found
             end.
Proof.
  induction l as [|v l IH]; intros Hnames d w Hnd.
  - exists d. split; [reflexivity | split; [exact Hnd|]].
    intros name. cbn. destruct (dict_get d name); [| reflexivity].
    now rewrite app_nil_r.
  - cbn [Fetched.group_by_employer].
    rewrite (Hnames v (or_introl eq_refl)).
    destruct (group_round d (name_of v) v Hnd) as (Hnd2 & Hget2).
    cbv zeta in Hnd2, Hget2.
    match goal with
    | |- context [Fetched.group_by_employer employer_name l ?d2 w] =>
        destruct (IH (fun x Hx => Hnames x (or_intror Hx)) d2 w Hnd2)
          as (d' & Hrun & Hnd' & Hget')
    end.
    exists d'. split; [exact Hrun | split; [exact Hnd'|]].
    intros name. rewrite Hget', Hget2. unfold of_employer. cbn [filter].
    destruct (String.eqb_spec (name_of v) name) as [<- | Hne].
    + destruct (dict_get d (name_of v)) as [before|].
      * now rewrite <- app_assoc.
      * reflexivity.
    + reflexivity.
Qed.

(** The loop stops at the first vacancy without the name of an
    employer. *)
Lemma group_by_employer_raises before bad after e :
  (forall v, In v before -> employer_name v = Returned (name_of v)) ->
  employer_name bad = Raised e ->
  forall d w,
    Fetched.group_by_employer employer_name (before ++ bad :: after) d w
    = (w, Raised e).
Proof.
  induction before as [|v before IH]; intros Hnames Hbad d w.
  - cbn [app Fetched.group_by_employer]. now rewrite Hbad.
  - cbn [app Fetched.group_by_employer].
    rewrite (Hnames v (or_introl eq_refl)).
    apply IH; [| exact Hbad]. intros x Hx. apply Hnames. now right.
Qed.

End Group.

End GroupFacts.

(** X16. [get_all_vacancies_for_companies] of [hh_api.py] without
    companies.  When its fetch of up to five pages, with no employer
    filter, returns vacancies that all have the name of an employer, the
    function returns a dictionary with distinct keys in which each name has
    the vacancies of that employer, in the order of the fetch, and a name
    without vacancies is not a key; it prints the line with the elapsed
    time after what the fetch printed. *)
Theorem grouped_by_employer :
  forall (employer_name : raw_vacancy -> outcome string)
         (execution_time : string) (t : transport) (w w1 : fetch_world)
         (fetched : list raw_vacancy) (name_of : raw_vacancy -> string),
    get_vacancies_for_company t None 5 w = (w1, Returned fetched) ->
    (forall v, In v fetched -> employer_name v = Returned (name_of v)) ->
    exists d,
      Fetched.get_all_vacancies_for_companies employer_name execution_time t
        [] w
      = (mk_fetch_world (sent w1)
           (fetch_stdout w1 ++ [time_line execution_time])%list,
         Returned d)
      /\ NoDup (map fst d)
      /\ forall name,
           dict_get d name
           = match of_employer name_of name fetched with
             | [] => None
             | found => Some found
             end.
Proof.
  intros employer_name execution_time t w w1 fetched name_of Hfetch Hnames.
  destruct (GroupFacts.group_by_employer_run employer_name name_of fetched
              Hnames [] w1) as (d & Hrun & Hnd & Hget); [constructor|].
  exists d. unfold Fetched.get_all_vacancies_for_companies. cbv zeta.
  unfold bind at 1. unfold bind at 1. rewrite Hfetch, Hrun.
  split; [reflexivity | split; [exact Hnd | exact Hget]].
Qed.

(** X17. [get_all_vacancies_for_companies] of [hh_api.py] without
    companies has no handler: the exception of its fetch leaves the
    function, and so does the exception of the first fetched vacancy
    without the name of an employer; in both cases the line with the
    elapsed time is not printed and no dictionary is returned. *)
Theorem ungrouped_errors_propagate :
  forall (employer_name : raw_vacancy -> outcome string)
         (execution_time : string) (t : transport) (w w1 : fetch_world)
         (e : py_exception),
    (get_vacancies_for_company t None 5 w = (w1, Raised e) ->
     Fetched.get_all_vacancies_for_companies employer_name execution_time t
       [] w
     = (w1, Raised e))
    /\ (forall before bad after name_of,
           get_vacancies_for_company t None 5 w
           = (w1, Returned (before ++ bad :: after)%list) ->
           (forall v, In v before -> employer_name v = Returned (name_of v)) ->
           employer_name bad = Raised e ->
           Fetched.get_all_vacancies_for_companies employer_name
             execution_time t [] w
           = (w1, Raised e)).
Proof.
  intros employer_name execution_time t w w1 e. split.
  - intros Hfetch. unfold Fetched.get_all_vacancies_for_companies. cbv zeta.
    unfold bind at 1. unfold bind at 1. now rewrite Hfetch.
  - intros before bad after name_of Hfetch Hnames Hbad.
    unfold Fetched.get_all_vacancies_for_companies. cbv zeta.
    unfold bind at 1. unfold bind at 1. rewrite Hfetch.
    now rewrite (GroupFacts.group_by_employer_raises employer_name name_of
                   before bad after e Hnames Hbad).
Qed.

(** * More on the keyword search and on single inserts *)

(** X18. The first loop of [search_vacancies_by_keyword], whatever the case
    mapping: [matching_vacancies] has the companies of the input in their
    order, also those without a match; the list of a company holds, in
    their order, exactly its vacancies whose title in lower case, the empty
    title for a vacancy without one, has the keyword in lower case in it;
    and [total_matching_vacancies] is the number of vacancies in these
    lists. *)
Theorem search_matches_titles :
  forall (lower : string -> string) (v : HhApi.vacancies_by_company)
         (keyword : string),
    let found := HhApi.search_vacancies_by_keyword lower v keyword in
    map fst (fst found) = map fst v
    /\ fst found
       = map (fun entry =>
                (fst entry,
                 HhApi.matching lower (lower keyword) (snd entry))) v
    /\ (forall vacancies vacancy,
           In vacancy (HhApi.matching lower (lower keyword) vacancies)
           <-> In vacancy vacancies
               /\ occurs_in (lower keyword)
                    (lower (get_or (raw_name vacancy) "")))
    /\ snd found = List.length (flat_map snd (fst found)).
Proof.
  intros lower v keyword found. subst found.
  rewrite KeywordFacts.search_vacancies_by_keyword_spec. cbn [fst snd].
  split; [| split; [reflexivity | split]].
  - rewrite map_map. reflexivity.
  - intros vacancies vacancy. apply KeywordFacts.matching_spec.
  - f_equal. induction v as [|entry v IH]; [reflexivity|].
    cbn [map flat_map fst snd]. now rewrite IH.
Qed.

(** X19. Whatever the case mapping of the database, if it maps the
    pattern [%keyword%] to [%], the keyword in lower case, [%], and the
    keyword in lower case has no [%], [_] and backslash in it:
    [get_vacancies_with_keyword] returns the rows of the join whose title
    in lower case has the keyword in lower case in it, and only those; in a
    state that the coordinator has reached these are the rows of
    [get_all_vacancies] for the vacancies with such a title, one for each,
    in the order of the table. *)
Theorem plain_keyword_finds_substrings :
  forall (lower : string -> string) (keyword : string) (db : DBManager.t),
    lower ("%" ++ keyword ++ "%") = "%" ++ lower keyword ++ "%" ->
    plain (lower keyword) = true ->
    result_of (DBManager.get_vacancies_with_keyword lower keyword db)
    = Returned
        (map DBManager.select_listing
           (filter
              (fun vc =>
                 str_in (lower keyword) (lower (v_title (fst vc))))
              (DBManager.join_companies (DBManager.session db))))
    /\ (forall vc,
           In vc (filter
                    (fun vc =>
                       str_in (lower keyword) (lower (v_title (fst vc))))
                    (DBManager.join_companies (DBManager.session db)))
           <-> In vc (DBManager.join_companies (DBManager.session db))
               /\ occurs_in (lower keyword) (lower (v_title (fst vc))))
    /\ (reachable db ->
        result_of (DBManager.get_vacancies_with_keyword lower keyword db)
        = Returned
            (map (listing_of (DBManager.session db))
               (filter
                  (fun v => str_in (lower keyword) (lower (v_title v)))
                  (vacancies (DBManager.session db))))).
Proof.
  intros lower keyword db Hfold Hplain.
  pose proof (KeywordFacts.get_vacancies_with_keyword_folded lower keyword db
                Hfold Hplain) as Hrun.
  split; [exact Hrun | split].
  - intros vc. rewrite filter_In, KeywordFacts.str_in_spec. reflexivity.
  - intros Hreach. rewrite Hrun. f_equal.
    pose proof (IngestFacts.integrity_reachable _ Hreach) as (Href & _).
    pose proof (ConsistencyFacts.consistent_reachable _ Hreach)
      as ((_ & Hids & _) & _).
    (* the join has one row for each vacancy *)
    unfold DBManager.join_companies.
    assert (Hgen : forall vs,
               (forall v, In v vs -> In v (vacancies (DBManager.session db))) ->
               map DBManager.select_listing
                 (filter
                    (fun vc =>
                       str_in (lower keyword) (lower (v_title (fst vc))))
                    (flat_map
                       (fun v =>
                          map (fun c => (v, c))
                            (filter
                               (fun c => Z.eqb (v_company_id v) (c_id c))
                               (companies (DBManager.session db)))) vs))
               = map (listing_of (DBManager.session db))
                   (filter
                      (fun v => str_in (lower keyword) (lower (v_title v)))
                      vs)).
    { induction vs as [|v vs IH]; intros Hsub; [reflexivity|].
      cbn [flat_map]. rewrite filter_app, map_app.
      rewrite IH by (intros; apply Hsub; now right).
      destruct (Href v (Hsub v (or_introl eq_refl))) as (c & Hc & Hid).
      destruct (ListingFacts.filter_unique_id _ Hids c (v_company_id v) Hc Hid)
        as (Hfilter & Hfind).
      rewrite Hfilter. cbn [map filter fst].
      destruct (str_in (lower keyword) (lower (v_title v)));
        [| reflexivity].
      cbn [map app]. f_equal.
      unfold DBManager.select_listing, listing_of, name_of_company.
      rewrite Hfind. reflexivity. }
    apply Hgen. auto.
Qed.


(** * The further theorems on sample data *)

Lemma acme_consistent : consistent acme_db.
Proof.
  unfold consistent, tables_consistent. cbn.
  repeat split;
    try (constructor; [intros [] | constructor]);
    intros x [<- | []]; cbn; lia.
Defined.

Lemma after_acme_reachable :
  reachable
    (db_manager
       (world_after
          (handle_future (submit flaky_transport "1" 5, acme)
             (mk_world DBManager.empty [])))).
Proof. apply reach_round. apply reach_empty. Defined.

(** A run from the sample database. *)
Lemma coordinator_keeps_tables_consistent_sample :
  consistent
    (db_manager
       (world_after
          (get_all_vacancies_for_companies flaky_transport [broken; globex]
             (mk_world acme_db [])))).
Proof.
  apply (proj2 coordinator_keeps_tables_consistent). exact acme_consistent.
Defined.

(** The listing after one round from the empty database. *)
Lemma get_all_vacancies_lists_each_once_sample :
  let db :=
    db_manager
      (world_after
         (handle_future (submit flaky_transport "1" 5, acme)
            (mk_world DBManager.empty []))) in
  result_of (Reports.get_all_vacancies db)
  = Returned
      (map (listing_of (DBManager.session db))
           (vacancies (DBManager.session db))).
Proof.
  cbv zeta.
  apply (get_all_vacancies_lists_each_once _ (or_intror after_acme_reachable)).
Defined.







(** Three companies, the fetch of the second one fails. *)
Lemma collected_by_company_name_sample :
  exists d,
    result_of
      (Fetched.get_all_vacancies_for_companies employed_by_acme "0.42"
         flaky_transport [acme; broken; globex] fresh_fetch_world)
    = Returned d
    /\ NoDup (map fst d)
    /\ (forall name,
           dict_get d name
           = last_fetched flaky_transport [acme; broken; globex] name)
    /\ forall name vacancies, In (name, vacancies) d -> vacancies <> [].
Proof.
  apply (collected_by_company_name employed_by_acme "0.42" flaky_transport
           [acme; broken; globex] fresh_fetch_world).
  discriminate.
Defined.

Lemma two_page_fetch_of_all :
  get_vacancies_for_company two_page_transport None 5 fresh_fetch_world
  = (world_after
       (get_vacancies_for_company two_page_transport None 5 fresh_fetch_world),
     Returned (pages_concat two_pages 2)).
Proof. vm_compute. reflexivity. Defined.

(** A fetch of two pages, every vacancy of one employer. *)
Lemma grouped_by_employer_sample :
  exists d,
    Fetched.get_all_vacancies_for_companies employed_by_acme "0.42"
      two_page_transport [] fresh_fetch_world
    = (mk_fetch_world
         (sent (world_after
                  (get_vacancies_for_company two_page_transport None 5
                     fresh_fetch_world)))
         (fetch_stdout
            (world_after
               (get_vacancies_for_company two_page_transport None 5
                  fresh_fetch_world))
            ++ [time_line "0.42"]),
       Returned d)
    /\ NoDup (map fst d)
    /\ forall name,
         dict_get d name
         = match
             of_employer (fun _ => "Acme") name (pages_concat two_pages 2)
           with
           | [] => None
           | found => Some found
           end.
Proof.
  apply (grouped_by_employer employed_by_acme "0.42" two_page_transport
           fresh_fetch_world _ (pages_concat two_pages 2) (fun _ => "Acme")
           two_page_fetch_of_all).
  intros v _. reflexivity.
Defined.

Lemma cut_off_fetch_of_all :
  get_vacancies_for_company cut_off_transport None 5 fresh_fetch_world
  = (world_after
       (get_vacancies_for_company cut_off_transport None 5 fresh_fetch_world),
     Raised (PyExc "ConnectionError" "connection reset")).
Proof. vm_compute. reflexivity. Defined.

(** A fetch that is cut off after the first page. *)
Lemma ungrouped_errors_propagate_sample :
  Fetched.get_all_vacancies_for_companies employed_by_acme "0.42"
    cut_off_transport [] fresh_fetch_world
  = (world_after
       (get_vacancies_for_company cut_off_transport None 5 fresh_fetch_world),
     Raised (PyExc "ConnectionError" "connection reset")).
Proof.
  apply (proj1 (ungrouped_errors_propagate employed_by_acme "0.42"
                  cut_off_transport fresh_fetch_world _ _)).
  exact cut_off_fetch_of_all.
Defined.

(** The keyword of the sample vacancy, in capitals. *)
Lemma plain_keyword_finds_substrings_sample :
  result_of (DBManager.get_vacancies_with_keyword ascii_lower "ANALYST" acme_db)
  = Returned
      (map DBManager.select_listing
         (filter
            (fun vc =>
               str_in (ascii_lower "ANALYST")
                      (ascii_lower (v_title (fst vc))))
            (DBManager.join_companies (DBManager.session acme_db)))).
Proof.
  apply (proj1 (plain_keyword_finds_substrings ascii_lower "ANALYST" acme_db
                  eq_refl eq_refl)).
Defined.

(** * A connection whose statements can fail *)

Module TransactionalFacts.

Section Refusals.

Variable refused_company :
  string -> option string -> option string -> option py_exception.
Variable refused_vacancy : vacancy_tuple -> option py_exception.

(** In a failed transaction [insert_company] raises at its first
    statement and changes nothing. *)
Lemma insert_company_failed name industry area c :
  Transactional.failed c = true ->
  Transactional.insert_company refused_company name industry area c
  = (c, Raised Transactional.in_failed_transaction).
Proof.
  intros Hfailed.
  unfold Transactional.insert_company, bind at 1, Transactional.execute.
  rewrite Hfailed. reflexivity.
Qed.

(** One round of the loop on a connection in a failed transaction: the
    connection stays as it is, and a company with vacancies gets the
    report of the failed transaction. *)
Lemma handle_future_failed (f : future) c (w : world Transactional.t) :
  Transactional.failed (db_manager w) = true ->
  @handle_future Transactional.t
    (Transactional_Repository refused_company refused_vacancy) (f, c) w
  = match snd f with
    | Returned [] => (w, Returned tt)
    | Returned (_ :: _) =>
        (mk_world (db_manager w)
           (stdout w
              ++ [error_line c Transactional.in_failed_transaction])%list,
         Returned tt)
    | Raised e =>
        (mk_world (db_manager w) (stdout w ++ [error_line c e])%list,
         Returned tt)
    end.
Proof.
  intros Hfailed. destruct f as [fw [[|v vs] | e]]; cbn [snd].
  - apply handle_future_empty.
  - unfold handle_future, try_except. cbn [fst snd].
    rewrite persist_company_nonempty.
    cbn [insert_company Transactional_Repository].
    rewrite insert_company_failed by exact Hfailed. reflexivity.
  - apply handle_future_raised.
Qed.

(** So the whole run leaves the connection as it is, and reports the
    failed transaction for every company that has vacancies. *)
Lemma run_failed t cs :
  forall w : world Transactional.t,
    Transactional.failed (db_manager w) = true ->
    let final :=
      world_after
        (@get_all_vacancies_for_companies Transactional.t
           (Transactional_Repository refused_company refused_vacancy) t cs w)
    in
    db_manager final = db_manager w
    /\ forall c, In c cs -> fetched_some t c ->
         In (error_line c Transactional.in_failed_transaction) (stdout final).
Proof.
  rewrite run_is_loop.
  induction cs as [|c cs IH]; intros w Hfailed; cbv zeta.
  - split; [reflexivity | intros c []].
  - cbn [submit_all map for_each]. unfold bind.
    rewrite (handle_future_failed _ c w Hfailed).
    fold (submit_all t cs).
    assert (Hstep : forall out,
               db_manager
                 (world_after
                    (for_each (submit_all t cs)
                       (@handle_future Transactional.t
                          (Transactional_Repository refused_company
                             refused_vacancy))
                       (mk_world (db_manager w) out)))
               = db_manager w
               /\ forall c', In c' cs -> fetched_some t c' ->
                    In (error_line c' Transactional.in_failed_transaction)
                       (stdout
                          (world_after
                             (for_each (submit_all t cs)
                                (@handle_future Transactional.t
                                   (Transactional_Repository refused_company
                                      refused_vacancy))
                                (mk_world (db_manager w) out))))).
    { intros out. apply (IH (mk_world (db_manager w) out)). exact Hfailed. }
    assert (Hsame : mk_world (db_manager w) (stdout w) = w) by now destruct w.
    destruct (snd (submit t (company_id c) 5)) as [[|v vs] | e] eqn:Hfetch.
    + destruct (Hstep (stdout w)) as (Hdb & Hlines). rewrite Hsame in *.
      split; [exact Hdb|].
      intros c' [<- | Hin] Hsome; [| now apply Hlines].
      destruct Hsome as (v & vs & Hsome). unfold result_of in Hsome.
      congruence.
    + destruct (Hstep (stdout w
                         ++ [error_line c
                               Transactional.in_failed_transaction])%list)
        as (Hdb & Hlines).
      split; [exact Hdb|].
      intros c' [<- | Hin] Hsome; [| now apply Hlines].
      apply for_each_handle_stdout_incl. cbn [stdout].
      apply in_or_app. right. now left.
    + destruct (Hstep (stdout w ++ [error_line c e])%list) as (Hdb & Hlines).
      split; [exact Hdb|].
      intros c' [<- | Hin] Hsome; [| now apply Hlines].
      destruct Hsome as (v & vs & Hsome). unfold result_of in Hsome.
      congruence.
Qed.

(** A row that the server accepts leaves what is committed as it is. *)
Lemma execute_insert_vacancy_committed r d :
  DBManager.committed (world_after (DBManager.execute_insert_vacancy r d))
  = DBManager.committed d.
Proof.
  unfold DBManager.execute_insert_vacancy, modify, world_after. cbn [fst].
  destruct (DBManager.url_taken (vt_url r) (DBManager.session d));
    reflexivity.
Qed.

(** A batch with a row that the server refuses: the batch raises the
    error of the first such row, the transaction is failed, and nothing of
    the batch is committed. *)
Lemma refused_row_fails_transaction rows1 r rows2 e :
  (forall r', In r' rows1 -> refused_vacancy r' = None) ->
  refused_vacancy r = Some e ->
  forall c,
    Transactional.failed c = false ->
    exists c',
      Transactional.insert_vacancies_bulk refused_vacancy
        (rows1 ++ r :: rows2) c
      = (c', Raised e)
      /\ Transactional.failed c' = true
      /\ DBManager.committed (Transactional.db c')
         = DBManager.committed (Transactional.db c).
Proof.
  intros Hfine Hrefused.
  unfold Transactional.insert_vacancies_bulk,
    Transactional.executemany_insert_vacancy.
  induction rows1 as [|r1 rows1 IH]; intros c Hok.
  - exists (Transactional.mk true (Transactional.db c)).
    cbn [app for_each]. unfold bind, Transactional.execute.
    rewrite Hok, Hrefused. repeat split.
  - assert (Hr1 : refused_vacancy r1 = None) by (apply Hfine; now left).
    destruct (IH (fun r' Hin => Hfine r' (or_intror Hin))
                 (Transactional.mk false
                    (world_after
                       (DBManager.execute_insert_vacancy r1
                          (Transactional.db c)))) eq_refl)
      as (c' & Hrun & Hfailed & Hcommitted).
    exists c'. cbn [app for_each]. unfold bind at 1 2.
    unfold Transactional.execute at 1. rewrite Hok, Hr1.
    unfold bind in Hrun.
    change (DBManager.execute_insert_vacancy r1 (Transactional.db c))
      with (world_after
              (DBManager.execute_insert_vacancy r1 (Transactional.db c)),
            Returned tt).
    cbv iota beta.
    split; [exact Hrun | split; [exact Hfailed|]].
    rewrite Hcommitted. cbn [Transactional.db].
    apply execute_insert_vacancy_committed.
Qed.

(** [insert_company] returns only after its [commit]. *)
Lemma insert_company_returned name industry area c c1 id :
  Transactional.insert_company refused_company name industry area c
  = (c1, Returned id) ->
  Transactional.failed c1 = false.
Proof.
  unfold Transactional.insert_company, bind at 1, Transactional.execute.
  destruct (Transactional.failed c); [discriminate|].
  destruct (refused_company name industry area); [discriminate|].
  unfold DBManager.execute_insert_company at 1, modify at 1.
  unfold bind at 1, Transactional.commit. cbn [Transactional.failed].
  unfold DBManager.commit at 1, modify at 1.
  unfold bind at 1, Transactional.on_cursor at 1.
  destruct (DBManager.fetchone _) as [d [[id'|] | e]];
    cbn [Transactional.failed Transactional.db].
  - unfold ret. now intros [= <- _].
  - unfold bind at 1, Transactional.execute.
    cbn [Transactional.failed Transactional.db].
    unfold DBManager.execute_select_company_id at 1, modify at 1.
    unfold bind, Transactional.on_cursor.
    cbn [Transactional.failed Transactional.db].
    destruct (DBManager.fetchone _) as [d1 [row | e]];
      cbn [Transactional.failed Transactional.db]; [| discriminate].
    destruct (DBManager.first_column row d1) as [d2 res].
    now intros [= <- _].
  - discriminate.
Qed.

(** A company whose batch has a row that the server refuses, and the
    companies after it: the error of the row is reported, nothing of the
    batch is committed, the transaction is failed at the end of the run,
    and every later company that has vacancies gets the report of the
    failed transaction and stores nothing. *)
Lemma refused_batch_blocks_run t b after (w : world Transactional.t)
    v vs c1 id rows1 r rows2 e :
  snd (submit t (company_id b) 5) = Returned (v :: vs) ->
  Transactional.insert_company refused_company (company_name b)
    (company_industry b) (company_area b) (db_manager w)
  = (c1, Returned id) ->
  map (vacancy_data id) (v :: vs) = (rows1 ++ r :: rows2)%list ->
  (forall r', In r' rows1 -> refused_vacancy r' = None) ->
  refused_vacancy r = Some e ->
  let final :=
    world_after
      (@get_all_vacancies_for_companies Transactional.t
         (Transactional_Repository refused_company refused_vacancy) t
         (b :: after) w)
  in
  Transactional.failed (db_manager final) = true
  /\ DBManager.committed (Transactional.db (db_manager final))
     = DBManager.committed (Transactional.db c1)
  /\ In (error_line b e) (stdout final)
  /\ forall c, In c after -> fetched_some t c ->
       In (error_line c Transactional.in_failed_transaction) (stdout final).
Proof.
  intros Hfetch Hcompany Hrows Hfine Hrefused. cbv zeta.
  destruct (refused_row_fails_transaction rows1 r rows2 e Hfine Hrefused c1
              (insert_company_returned _ _ _ _ _ _ Hcompany))
    as (c' & Hbulk & Hfailed & Hcommitted).
  rewrite run_is_loop. cbn [submit_all map for_each]. unfold bind.
  fold (submit_all t after).
  destruct (submit t (company_id b) 5) as [fw res]. cbn [snd] in Hfetch.
  subst res.
  change (@handle_future Transactional.t
            (Transactional_Repository refused_company refused_vacancy)
            ((fw, Returned (v :: vs)), b) w)
    with (try_except
            (@persist_company Transactional.t
               (Transactional_Repository refused_company refused_vacancy)
               (fw, Returned (v :: vs)) b)
            (fun e0 => print (error_line b e0)) w).
  unfold try_except. rewrite persist_company_nonempty.
  cbn [insert_company insert_vacancies_bulk Transactional_Repository].
  rewrite Hcompany. cbv zeta. rewrite Hrows, Hbulk.
  unfold print, modify. cbn [db_manager stdout].
  match goal with
  | |- context [for_each _ _ ?w0] => set (w1 := w0)
  end.
  destruct (run_failed t after w1 Hfailed) as (Hdb & Hlines).
  rewrite run_is_loop in Hdb, Hlines.
  rewrite Hdb. cbn [db_manager w1].
  split; [exact Hfailed | split; [exact Hcommitted | split]].
  - apply for_each_handle_stdout_incl. cbn [stdout w1].
    apply in_or_app. right. now left.
  - exact Hlines.
Qed.

End Refusals.

End TransactionalFacts.

(** C5, on a connection whose statements can fail.  Acme, Greedy and Globex
    each have vacancies; the second row of Greedy's batch has a bound that
    is no [INT].  The run returns; the error of that row is reported for
    Greedy; the transaction stays failed, since nothing ends it, so that
    Globex, whose fetch returned a vacancy, gets the report of the failed
    transaction and neither its name nor its vacancy is stored; of
    Greedy's batch nothing is committed. *)
Theorem refused_row_blocks_later_companies :
  result_of (submit overpaying_transport (company_id globex) 5)
  = Returned [sample_vacancy 300]
  /\ result_of overpaid_run = Returned tt
  /\ In (error_line greedy integer_out_of_range)
        (stdout (world_after overpaid_run))
  /\ In (error_line globex Transactional.in_failed_transaction)
        (stdout (world_after overpaid_run))
  /\ Transactional.failed (db_manager (world_after overpaid_run)) = true
  /\ map c_name
       (companies
          (DBManager.committed
             (Transactional.db (db_manager (world_after overpaid_run)))))
     = ["Acme"; "Greedy"]
  /\ map v_url
       (vacancies
          (DBManager.committed
             (Transactional.db (db_manager (world_after overpaid_run)))))
     = [sample_url 100; sample_url 101]
  /\ DBManager.name_taken (company_name globex)
       (DBManager.committed
          (Transactional.db (db_manager (world_after overpaid_run))))
     = false
  /\ DBManager.url_taken (stored_url (sample_vacancy 300))
       (DBManager.committed
          (Transactional.db (db_manager (world_after overpaid_run))))
     = false.
Proof.
  split; [vm_compute; reflexivity|].
  split; [vm_compute; reflexivity|].
  split; [vm_compute; do 4 right; left; reflexivity|].
  split; [vm_compute; do 5 right; left; reflexivity|].
  repeat split; vm_compute; reflexivity.
Qed.

(** * calculate_average_salary on integers and floats *)

Module NumericFacts.

Import Numeric.

Lemma or_zero_truthy o :
  negb (Z.eqb (HhApi.or_zero o) 0) = HhApi.truthy o.
Proof.
  unfold HhApi.or_zero. destruct (HhApi.truthy o) eqn:Ho; [| reflexivity].
  destruct o as [z|]; [exact Ho | discriminate Ho].
Qed.

Lemma and_then_raised {A B} (o : outcome A) (k : A -> outcome B) e :
  and_then o k = Raised e ->
  o = Raised e \/ exists a, o = Returned a /\ k a = Raised e.
Proof.
  destruct o as [a | e']; cbn; intros Hraise.
  - right. exists a. now split.
  - injection Hraise as ->. now left.
Qed.

(** The nested loops are one loop over all vacancies. *)
Lemma fold_outcome_app {A B} (body : A -> B -> outcome A) l1 l2 :
  forall acc,
    fold_outcome body (l1 ++ l2) acc
    = and_then (fold_outcome body l1 acc) (fold_outcome body l2).
Proof.
  induction l1 as [|x l1 IH]; intros acc; [reflexivity|].
  cbn [app fold_outcome]. destruct (body acc x) as [acc' | e]; cbn [and_then];
    [apply IH | reflexivity].
Qed.

Lemma salary_totals_flat v :
  salary_totals v = fold_outcome add_salary (all_vacancies v) (Int 0, O).
Proof.
  unfold salary_totals, all_vacancies. generalize (Int 0, O).
  induction v as [|[name l] v IH]; intros acc; [reflexivity|].
  cbn [fold_outcome flat_map snd]. rewrite fold_outcome_app.
  destruct (fold_outcome add_salary l acc) as [acc' | e]; cbn [and_then];
    [apply IH | reflexivity].
Qed.

(** What the operations raise. *)
Lemma as_float_raises n e : as_float n = Raised e -> is_overflow e.
Proof.
  destruct n as [z | q]; cbn [as_float]; [| discriminate].
  destruct (Z.abs z <? float_limit)%Z; [discriminate|].
  intros [= <-]. now eexists.
Qed.

Lemma add_raises a b e : add a b = Raised e -> is_overflow e.
Proof.
  assert (Hfloats : and_then (as_float a) (fun x =>
                    and_then (as_float b) (fun y =>
                    Returned (Float (x + y)%Q))) = Raised e ->
                    is_overflow e).
  { intros Hraise. apply and_then_raised in Hraise.
    destruct Hraise as [Ha | (x & _ & Hraise)];
      [now apply as_float_raises in Ha|].
    apply and_then_raised in Hraise.
    destruct Hraise as [Hb | (y & _ & Hraise)];
      [now apply as_float_raises in Hb | discriminate Hraise]. }
  destruct a as [x | p], b as [y | q]; cbn [add];
    [discriminate | exact Hfloats ..].
Qed.

Lemma inject_Z_not_zero y : y <> 0%Z -> Qeq_bool (inject_Z y) 0 = false.
Proof.
  intros Hy. unfold Qeq_bool, inject_Z. cbn [Qnum Qden].
  apply Z.eqb_neq. lia.
Qed.

(** A division by an integer other than zero raises nothing but an
    [OverflowError]. *)
Lemma truediv_raises a y e :
  y <> 0%Z -> truediv a (Int y) = Raised e -> is_overflow e.
Proof.
  intros Hy. destruct a as [x | p]; cbn [truediv].
  - destruct (Z.eqb_spec y 0) as [-> | _]; [contradiction|].
    destruct (Z.abs x <? float_limit * Z.abs y)%Z; [discriminate|].
    intros [= <-]. now eexists.
  - cbn [as_float and_then].
    destruct (Z.abs y <? float_limit)%Z; cbn [and_then].
    + rewrite (inject_Z_not_zero y Hy). discriminate.
    + intros [= <-]. now eexists.
Qed.

(** One round of the inner loop. *)
Lemma add_salary_not_counted acc vacancy :
  counted vacancy = false -> add_salary acc vacancy = Returned acc.
Proof.
  unfold counted, add_salary. destruct acc as [total count].
  destruct (raw_salary vacancy) as [s|]; [| reflexivity].
  now intros ->.
Qed.

Lemma add_salary_round total count vacancy :
  counted vacancy = true ->
  exists average,
    add_salary (total, count) vacancy
    = and_then average (fun average =>
      and_then (add total average) (fun total' =>
      Returned (total', S count)))
    /\ (forall e, average = Raised e -> is_overflow e).
Proof.
  unfold counted, add_salary.
  destruct (raw_salary vacancy) as [s|]; [| discriminate].
  intros ->. eexists. split; [reflexivity|].
  intros e.
  destruct (negb (HhApi.or_zero (salary_from s) =? 0)%Z
            && negb (HhApi.or_zero (salary_to s) =? 0)%Z).
  - apply truediv_raises. discriminate.
  - destruct (negb (HhApi.or_zero (salary_from s) =? 0)%Z); discriminate.
Qed.

Lemma add_salary_raises acc vacancy e :
  add_salary acc vacancy = Raised e -> is_overflow e.
Proof.
  destruct acc as [total count].
  destruct (counted vacancy) eqn:Hcounted.
  - destruct (add_salary_round total count vacancy Hcounted)
      as (average & -> & Haverage).
    intros Hraise. apply and_then_raised in Hraise.
    destruct Hraise as [Hraise | (a & _ & Hraise)]; [now apply Haverage|].
    apply and_then_raised in Hraise.
    destruct Hraise as [Hraise | (total' & _ & Hraise)];
      [now apply add_raises in Hraise | discriminate Hraise].
  - rewrite add_salary_not_counted by exact Hcounted. discriminate.
Qed.

Lemma add_salary_count acc vacancy acc' :
  add_salary acc vacancy = Returned acc' ->
  snd acc' = (snd acc + (if counted vacancy then 1 else 0))%nat.
Proof.
  destruct acc as [total count].
  destruct (counted vacancy) eqn:Hcounted.
  - destruct (add_salary_round total count vacancy Hcounted)
      as (average & -> & _).
    destruct average as [a | e]; cbn [and_then]; [| discriminate].
    destruct (add total a) as [total' | e]; cbn [and_then]; [| discriminate].
    intros [= <-]. cbn [snd]. lia.
  - rewrite add_salary_not_counted by exact Hcounted.
    intros [= <-]. cbn [snd]. lia.
Qed.

(** The loop over all vacancies. *)
Lemma fold_add_salary_raises l :
  forall acc e,
    fold_outcome add_salary l acc = Raised e -> is_overflow e.
Proof.
  induction l as [|x l IH]; intros acc e; cbn [fold_outcome];
    [discriminate|].
  intros Hraise. apply and_then_raised in Hraise.
  destruct Hraise as [Hraise | (acc' & _ & Hraise)];
    [now apply add_salary_raises in Hraise | now apply IH in Hraise].
Qed.

Lemma fold_add_salary_count l :
  forall acc acc',
    fold_outcome add_salary l acc = Returned acc' ->
    snd acc' = (snd acc + List.length (filter counted l))%nat.
Proof.
  induction l as [|x l IH]; intros acc acc'; cbn [fold_outcome filter].
  - intros [= <-]. cbn [List.length]. lia.
  - destruct (add_salary acc x) as [acc1 | e] eqn:Hstep; cbn [and_then];
      [| discriminate].
    intros Hrest. apply IH in Hrest. apply add_salary_count in Hstep.
    rewrite Hrest, Hstep. destruct (counted x); cbn [List.length]; lia.
Qed.

Lemma fold_add_salary_none l :
  (forall vacancy, In vacancy l -> counted vacancy = false) ->
  forall acc, fold_outcome add_salary l acc = Returned acc.
Proof.
  induction l as [|x l IH]; intros Hnone acc; [reflexivity|].
  cbn [fold_outcome].
  rewrite add_salary_not_counted by (apply Hnone; now left).
  cbn [and_then]. apply IH. intros vacancy Hin. apply Hnone. now right.
Qed.

(** Numbers within a bound. *)
Lemma within_more n b b' : (b <= b')%Z -> within n b -> within n b'.
Proof.
  intros Hle. destruct n as [z | q]; cbn [within]; [lia|].
  intros (Hlow & Hhigh). split.
  - apply Qle_trans with (inject_Z (- b)); [| exact Hlow].
    rewrite <- Zle_Qle. lia.
  - apply Qle_trans with (inject_Z b); [exact Hhigh|].
    rewrite <- Zle_Qle. lia.
Qed.

Lemma as_float_within n b :
  within n b -> (b < float_limit)%Z ->
  exists q, as_float n = Returned q
            /\ (inject_Z (- b) <= q)%Q /\ (q <= inject_Z b)%Q.
Proof.
  destruct n as [z | q]; cbn [within as_float]; intros Hn Hb.
  - destruct (Z.ltb_spec (Z.abs z) float_limit) as [_ | Hout]; [| lia].
    eexists. split; [reflexivity|].
    rewrite <- !Zle_Qle. lia.
  - now exists q.
Qed.

Lemma add_within a b ba bb :
  within a ba -> within b bb -> (ba + bb < float_limit)%Z ->
  (0 <= ba)%Z -> (0 <= bb)%Z ->
  exists n, add a b = Returned n /\ within n (ba + bb).
Proof.
  intros Ha Hb Hlimit Hba Hbb.
  assert (Hfloats : exists n,
             and_then (as_float a) (fun x =>
             and_then (as_float b) (fun y =>
             Returned (Float (x + y)%Q))) = Returned n
             /\ within n (ba + bb)).
  { destruct (as_float_within a ba Ha) as (x & -> & Hx1 & Hx2); [lia|].
    destruct (as_float_within b bb Hb) as (y & -> & Hy1 & Hy2); [lia|].
    eexists. split; [reflexivity|]. cbn [within]. split.
    - apply Qle_trans with (inject_Z (- ba) + inject_Z (- bb))%Q.
      + rewrite <- inject_Z_plus, <- Zle_Qle. lia.
      + now apply Qplus_le_compat.
    - apply Qle_trans with (inject_Z ba + inject_Z bb)%Q.
      + now apply Qplus_le_compat.
      + rewrite <- inject_Z_plus, <- Zle_Qle. lia. }
  destruct a as [x | p], b as [y | q]; cbn [add]; try exact Hfloats.
  eexists. split; [reflexivity|]. cbn [within] in *. lia.
Qed.

(** Half of an integer. *)
Lemma half_within m b :
  (Z.abs m <= b)%Z ->
  (inject_Z (- b) <= inject_Z m / inject_Z 2)%Q
  /\ (inject_Z m / inject_Z 2 <= inject_Z b)%Q.
Proof.
  intros Hm. unfold Qle, Qdiv, Qmult, Qinv, inject_Z. cbn. lia.
Qed.

Lemma add_salary_within acc vacancy b :
  within (fst acc) b -> (Z.of_nat (snd acc) <= b)%Z ->
  (b + bound_size vacancy < float_limit)%Z ->
  exists acc',
    add_salary acc vacancy = Returned acc'
    /\ within (fst acc') (b + bound_size vacancy)
    /\ (Z.of_nat (snd acc') <= b + bound_size vacancy)%Z.
Proof.
  destruct acc as [total count]. cbn [fst snd].
  intros Htotal Hcount Hlimit.
  assert (Hsize : (0 <= bound_size vacancy)%Z).
  { unfold bound_size. destruct (raw_salary vacancy); lia. }
  destruct (counted vacancy) eqn:Hcounted.
  - unfold counted, add_salary, bound_size in *.
    destruct (raw_salary vacancy) as [s|]; [| discriminate].
    rewrite Hcounted.
    rewrite <- !or_zero_truthy in Hcounted.
    set (a := HhApi.or_zero (salary_from s)) in *.
    set (c := HhApi.or_zero (salary_to s)) in *.
    assert (Hone : (1 <= Z.abs a + Z.abs c)%Z).
    { destruct (Z.eqb_spec a 0), (Z.eqb_spec c 0);
        cbn in Hcounted; try discriminate; lia. }
    assert (Haverage : exists average,
               (if negb (a =? 0)%Z && negb (c =? 0)%Z
                then truediv (Int (a + c)) (Int 2)
                else if negb (a =? 0)%Z then Returned (Int a)
                     else Returned (Int c))
               = Returned average
               /\ within average (Z.abs a + Z.abs c)).
    { destruct (negb (a =? 0)%Z && negb (c =? 0)%Z).
      - cbn [truediv Z.eqb].
        destruct (Z.ltb_spec (Z.abs (a + c)) (float_limit * Z.abs 2))
          as [_ | Hout]; [| lia].
        eexists. split; [reflexivity|].
        apply half_within. lia.
      - destruct (negb (a =? 0)%Z); eexists; (split; [reflexivity|]);
          cbn [within]; lia. }
    destruct Haverage as (average & -> & Haverage). cbn [and_then].
    destruct (add_within total average b (Z.abs a + Z.abs c) Htotal Haverage)
      as (total' & -> & Htotal'); [lia | lia | lia |].
    cbn [and_then]. eexists. split; [reflexivity|]. cbn [fst snd].
    split; [exact Htotal' | lia].
  - rewrite add_salary_not_counted by exact Hcounted.
    eexists. split; [reflexivity|]. cbn [fst snd].
    split; [apply (within_more _ b); [lia | exact Htotal] | lia].
Qed.

Lemma fold_add_salary_within l :
  forall acc b,
    within (fst acc) b -> (Z.of_nat (snd acc) <= b)%Z ->
    (b + bounds_size l < float_limit)%Z ->
    exists acc',
      fold_outcome add_salary l acc = Returned acc'
      /\ within (fst acc') (b + bounds_size l)
      /\ (Z.of_nat (snd acc') <= b + bounds_size l)%Z.
Proof.
  unfold bounds_size.
  induction l as [|x l IH]; intros acc b Htotal Hcount Hlimit;
    cbn [map fold_right fold_outcome] in *.
  - exists acc. rewrite Z.add_0_r. repeat split; assumption.
  - assert (Hrest : (0 <= fold_right Z.add 0 (map bound_size l))%Z).
    { clear. induction l as [|y l IH]; cbn [map fold_right]; [lia|].
      assert (0 <= bound_size y)%Z
        by (unfold bound_size; destruct (raw_salary y); lia).
      lia. }
    destruct (add_salary_within acc x b Htotal Hcount)
      as (acc1 & -> & Htotal1 & Hcount1); [lia|].
    cbn [and_then].
    destruct (IH acc1 (b + bound_size x)%Z Htotal1 Hcount1)
      as (acc' & Hrun & Htotal' & Hcount'); [lia|].
    exists acc'. rewrite Z.add_assoc. repeat split; assumption.
Qed.

(** The division of a total within the range of the floats by a count
    above zero returns. *)
Lemma truediv_count_within total count b :
  within total b -> (Z.of_nat count <= b)%Z -> (b < float_limit)%Z ->
  0 < count ->
  exists n, truediv total (Int (Z.of_nat count)) = Returned n.
Proof.
  intros Htotal Hcount Hlimit Hpos.
  destruct total as [z | q]; cbn [truediv within] in *.
  - destruct (Z.eqb_spec (Z.of_nat count) 0) as [Hzero | _]; [lia|].
    destruct (Z.ltb_spec (Z.abs z) (float_limit * Z.abs (Z.of_nat count)))
      as [_ | Hout]; [now eexists | nia].
  - cbn [as_float and_then].
    destruct (Z.ltb_spec (Z.abs (Z.of_nat count)) float_limit)
      as [_ | Hout]; [| lia].
    cbn [and_then]. rewrite inject_Z_not_zero by lia. now eexists.
Qed.

(** The numbers are those of the exact average. *)
Lemma as_float_value n q : as_float n = Returned q -> q = value n.
Proof.
  destruct n as [z | p]; cbn [as_float value].
  - destruct (Z.abs z <? float_limit)%Z; [| discriminate]. now intros [= <-].
  - now intros [= <-].
Qed.

Lemma add_value a b n :
  add a b = Returned n -> (value n == value a + value b)%Q.
Proof.
  assert (Hfloats : and_then (as_float a) (fun x =>
                    and_then (as_float b) (fun y =>
                    Returned (Float (x + y)%Q))) = Returned n ->
                    (value n == value a + value b)%Q).
  { destruct (as_float a) as [x | e] eqn:Ha; cbn [and_then]; [| discriminate].
    destruct (as_float b) as [y | e] eqn:Hb; cbn [and_then]; [| discriminate].
    intros [= <-]. cbn [value].
    rewrite (as_float_value _ _ Ha), (as_float_value _ _ Hb). reflexivity. }
  destruct a as [x | p], b as [y | q]; cbn [add]; try exact Hfloats.
  intros [= <-]. cbn [value]. rewrite inject_Z_plus. reflexivity.
Qed.

Lemma truediv_value a b n :
  truediv a b = Returned n -> (value n == value a / value b)%Q.
Proof.
  assert (Hfloats : and_then (as_float a) (fun x =>
                    and_then (as_float b) (fun y =>
                    if Qeq_bool y 0 then
                      Raised (PyExc "ZeroDivisionError"
                                "float division by zero")
                    else Returned (Float (x / y)%Q))) = Returned n ->
                    (value n == value a / value b)%Q).
  { destruct (as_float a) as [x | e] eqn:Ha; cbn [and_then]; [| discriminate].
    destruct (as_float b) as [y | e] eqn:Hb; cbn [and_then]; [| discriminate].
    destruct (Qeq_bool y 0); [discriminate|].
    intros [= <-]. cbn [value].
    rewrite (as_float_value _ _ Ha), (as_float_value _ _ Hb). reflexivity. }
  destruct a as [x | p], b as [y | q]; cbn [truediv]; try exact Hfloats.
  destruct (y =? 0)%Z; [discriminate|].
  destruct (Z.abs x <? float_limit * Z.abs y)%Z; [| discriminate].
  intros [= <-]. reflexivity.
Qed.

Lemma add_salary_value total count vacancy acc' :
  add_salary (total, count) vacancy = Returned acc' ->
  (value (fst acc')
   == value total + (if counted vacancy then salary_value vacancy else 0))%Q.
Proof.
  destruct (counted vacancy) eqn:Hcounted.
  - unfold counted, add_salary, salary_value in *.
    destruct (raw_salary vacancy) as [s|]; [| discriminate].
    rewrite Hcounted.
    assert (Hfrom : HhApi.truthy (salary_from s) = true ->
                    HhApi.or_zero (salary_from s)
                    = DBManager.coalesce (salary_from s) 0).
    { unfold HhApi.or_zero. intros ->. now destruct (salary_from s). }
    assert (Hto : HhApi.truthy (salary_to s) = true ->
                  HhApi.or_zero (salary_to s)
                  = DBManager.coalesce (salary_to s) 0).
    { unfold HhApi.or_zero. intros ->. now destruct (salary_to s). }
    rewrite <- !or_zero_truthy in Hcounted.
    rewrite <- or_zero_truthy in Hfrom. rewrite <- or_zero_truthy in Hto.
    rewrite <- (or_zero_truthy (salary_from s)),
      <- (or_zero_truthy (salary_to s)).
    set (a := HhApi.or_zero (salary_from s)) in *.
    set (c := HhApi.or_zero (salary_to s)) in *.
    destruct (negb (a =? 0)%Z) eqn:Ha, (negb (c =? 0)%Z) eqn:Hc;
      cbn [andb orb] in *; try discriminate.
    + destruct (truediv (Int (a + c)) (Int 2)) as [average | e] eqn:Hdiv;
        cbn [and_then]; [| discriminate].
      destruct (add total average) as [total' | e] eqn:Hadd;
        cbn [and_then]; [| discriminate].
      intros [= <-]. cbn [fst].
      rewrite (add_value _ _ _ Hadd), (truediv_value _ _ _ Hdiv).
      cbn [value]. rewrite <- Hfrom, <- Hto by reflexivity. reflexivity.
    + cbn [and_then].
      destruct (add total (Int a)) as [total' | e] eqn:Hadd;
        cbn [and_then]; [| discriminate].
      intros [= <-]. cbn [fst]. rewrite (add_value _ _ _ Hadd).
      cbn [value]. rewrite <- Hfrom by reflexivity. reflexivity.
    + cbn [and_then].
      destruct (add total (Int c)) as [total' | e] eqn:Hadd;
        cbn [and_then]; [| discriminate].
      intros [= <-]. cbn [fst]. rewrite (add_value _ _ _ Hadd).
      cbn [value]. rewrite <- Hto by reflexivity. reflexivity.
  - rewrite add_salary_not_counted by exact Hcounted.
    intros [= <-]. cbn [fst]. ring.
Qed.

Lemma fold_add_salary_value l :
  forall acc acc',
    fold_outcome add_salary l acc = Returned acc' ->
    (value (fst acc')
     == value (fst acc) + sum_Q (map salary_value (filter counted l)))%Q.
Proof.
  induction l as [|x l IH]; intros acc acc'; cbn [fold_outcome filter].
  - intros [= <-]. cbn. ring.
  - destruct (add_salary acc x) as [acc1 | e] eqn:Hstep; cbn [and_then];
      [| discriminate].
    intros Hrest. apply IH in Hrest. destruct acc as [total count].
    apply add_salary_value in Hstep. rewrite Hrest, Hstep. cbn [fst].
    destruct (counted x); cbn [map sum_Q fold_right].
    + fold (sum_Q (map salary_value (filter counted l))). ring.
    + ring.
Qed.

(** Where [calculate_average_salary] returns on integers and floats, it
    returns the number that the exact average is. *)
Lemma calculate_average_salary_exact v n :
  calculate_average_salary v = Returned n ->
  exists q,
    HhApi.calculate_average_salary v = Returned q /\ (value n == q)%Q.
Proof.
  unfold calculate_average_salary, HhApi.calculate_average_salary.
  rewrite salary_totals_flat.
  destruct (AverageFacts.salary_totals_counted v) as (Hsum & Hcount).
  destruct (HhApi.salary_totals v) as [total_q count_q].
  cbn [fst snd] in Hsum, Hcount.
  destruct (fold_outcome add_salary (all_vacancies v) (Int 0, O))
    as [[total count] | e] eqn:Hfold; cbn [and_then]; [| discriminate].
  pose proof (fold_add_salary_count _ _ _ Hfold) as Hcount'.
  pose proof (fold_add_salary_value _ _ _ Hfold) as Hsum'.
  cbn [fst snd Nat.add value] in Hcount', Hsum'.
  rewrite <- Hcount' in Hcount. subst count_q.
  destruct count as [|k].
  - intros [= <-]. exists 0%Q. split; reflexivity.
  - change (Nat.ltb 0 (S k)) with true. cbv iota.
    intros Hdiv. eexists. split; [reflexivity|].
    rewrite (truediv_value _ _ _ Hdiv), Hsum', Hsum. cbn [value].
    rewrite Qplus_0_l. reflexivity.
Qed.

End NumericFacts.

(** C10, as stated: for one vacancy with the lower bound [10**400] the
    division of the total by the count raises an [OverflowError], so the
    function returns no number. *)
Lemma average_of_huge_bound_overflows :
  Numeric.calculate_average_salary huge_salary
  = Raised (PyExc "OverflowError"
              "integer division result too large for a float")
  /\ ~ exists n, Numeric.calculate_average_salary huge_salary = Returned n.
Proof.
  assert (Hraise : Numeric.calculate_average_salary huge_salary
                   = Raised (PyExc "OverflowError"
                               "integer division result too large for a float"))
    by (vm_compute; reflexivity).
  split; [exact Hraise|].
  intros (n & Hn). rewrite Hraise in Hn. discriminate Hn.
Qed.

(** C10, amended.  [calculate_average_salary] does not divide by zero: the
    only exception that it raises is an [OverflowError]; when no vacancy
    has a bound that is a number other than zero it returns [0]; when its
    loops end, its count is the number of such vacancies, with a count of
    [0] it returns [0] and does not divide, and with a count above [0] it
    returns what the division of the total by the count gives.  It returns
    a number whenever the absolute values of the bounds sum to less than
    the least integer that is too large for a float. *)
Theorem calculate_average_salary_guards_division :
  forall v : HhApi.vacancies_by_company,
    (forall e, Numeric.calculate_average_salary v = Raised e -> is_overflow e)
    /\ ((forall vacancy, In vacancy (all_vacancies v) ->
           counted vacancy = false) ->
        Numeric.calculate_average_salary v = Returned (Numeric.Int 0))
    /\ (forall total_salary salary_count,
           Numeric.salary_totals v = Returned (total_salary, salary_count) ->
           salary_count = List.length (filter counted (all_vacancies v))
           /\ (salary_count = 0 ->
               Numeric.calculate_average_salary v = Returned (Numeric.Int 0))
           /\ (0 < salary_count ->
               Numeric.calculate_average_salary v
               = Numeric.truediv total_salary
                   (Numeric.Int (Z.of_nat salary_count))))
    /\ ((bounds_size (all_vacancies v) < Numeric.float_limit)%Z ->
        exists n, Numeric.calculate_average_salary v = Returned n).
Proof.
  intros v. unfold Numeric.calculate_average_salary.
  rewrite NumericFacts.salary_totals_flat.
  split; [| split; [| split]].
  - intros e Hraise. apply NumericFacts.and_then_raised in Hraise.
    destruct Hraise as [Hraise | ([total count] & _ & Hraise)].
    + now apply NumericFacts.fold_add_salary_raises in Hraise.
    + destruct count as [|n]; [discriminate Hraise|].
      change (Nat.ltb 0 (S n)) with true in Hraise. cbv iota in Hraise.
      apply NumericFacts.truediv_raises in Hraise; [exact Hraise | lia].
  - intros Hnone. rewrite NumericFacts.fold_add_salary_none by exact Hnone.
    reflexivity.
  - intros total count Htotals. rewrite Htotals. cbn [Numeric.and_then].
    apply NumericFacts.fold_add_salary_count in Htotals.
    cbn [snd] in Htotals. split; [exact Htotals | split].
    + intros ->. reflexivity.
    + intros Hpos. destruct count as [|n]; [lia | reflexivity].
  - intros Hlimit.
    destruct (NumericFacts.fold_add_salary_within (all_vacancies v)
                (Numeric.Int 0, O) 0%Z)
      as ([total count] & -> & Htotal & Hcount);
      [cbn; lia | cbn; lia | exact Hlimit |].
    cbn [Numeric.and_then fst snd] in *.
    destruct count as [|n]; [now eexists|].
    change (Nat.ltb 0 (S n)) with true. cbv iota.
    apply (NumericFacts.truediv_count_within total (S n)
             (0 + bounds_size (all_vacancies v))%Z); [assumption .. | lia].
Qed.

(** * The further theorems on a failing connection and on large numbers *)

(** A vacancy without a salary; one with a lower bound; two companies with
    three vacancies; and the vacancy with the lower bound [10**400]. *)
Lemma calculate_average_salary_guards_division_sample :
  Numeric.calculate_average_salary unpaid = Returned (Numeric.Int 0)
  /\ Numeric.calculate_average_salary lower_bound_only
     = Numeric.truediv (Numeric.Int 1000) (Numeric.Int (Z.of_nat 1))
  /\ (exists n, Numeric.calculate_average_salary two_companies = Returned n)
  /\ is_overflow
       (PyExc "OverflowError" "integer division result too large for a float").
Proof.
  split; [| split; [| split]].
  - destruct (calculate_average_salary_guards_division unpaid)
      as (_ & Hnone & _).
    apply Hnone. intros vacancy [<- | []]. reflexivity.
  - destruct (calculate_average_salary_guards_division lower_bound_only)
      as (_ & _ & Hcount & _).
    destruct (Hcount (Numeric.Int 1000) 1 eq_refl) as (_ & _ & Hpos).
    apply Hpos. lia.
  - destruct (calculate_average_salary_guards_division two_companies)
      as (_ & _ & _ & Hwithin).
    apply Hwithin. vm_compute. reflexivity.
  - destruct (calculate_average_salary_guards_division huge_salary)
      as (Hraises & _).
    apply Hraises. vm_compute. reflexivity.
Defined.
